(** * diffusion_tools.py: noise schedules, position encoder, image range

    A shallow embedding of [src/diffusion_tools.py], and of the file-name
    function of [src/hw8_base.py].  Python floats and NumPy [float64]
    arrays are IEEE-754 binary64 numbers, modelled by Rocq's primitive
    floats; Python integers are [Z]; a call that can raise returns a
    [Py.result].  The NumPy and TensorFlow primitives the module calls
    ([np.arange], [np.cumprod], [np.maximum], [np.meshgrid], [tf.gather_nd],
    ...) are written out from their documented behaviour; the values of
    [np.sin], [np.cos] and [np.power] are the platform's and stay abstract. *)

From Stdlib Require Import ZArith List Bool Lia Floats.
From Stdlib Require String.
Import ListNotations.

Set Warnings "-inexact-float".

(** ** Python results *)

Module Py.

Inductive exception : Set :=
| ZeroDivisionError
| OverflowError
| ValueError
| InvalidArgumentError.

Inductive result (A : Type) : Type :=
| Ok (a : A)
| Raise (e : exception).

Arguments Ok {A} a.
Arguments Raise {A} e.

Definition bind {A B : Type} (r : result A) (k : A -> result B) : result B :=
  match r with
  | Ok a => k a
  | Raise e => Raise e
  end.

Definition raises {A : Type} (r : result A) : bool :=
  match r with
  | Ok _ => false
  | Raise _ => true
  end.

End Py.

Import Py.

Notation "x <- c ;; k" := (Py.bind c (fun x => k))
  (at level 61, c at next level, right associativity).

(** ** Binary64 scalars *)

Module F64.

Open Scope float_scope.

(** [float(n)] for a Python integer: the nearest binary64, ties to even. *)
Definition of_Z (n : Z) : float :=
  SF2Prim (binary_normalize prec emax n 0 false).

(** [ceil] of a finite binary64 as an integer; [None] on NaN and the
    infinities. *)
Definition ceil (x : float) : option Z :=
  match Prim2SF x with
  | S754_zero _ => Some 0%Z
  | S754_finite s m e =>
      let v := cond_Zopp s (Zpos m) in
      Some (match e with
            | Zneg p => (- ((- v) / 2 ^ Zpos p))%Z
            | _ => (v * 2 ^ e)%Z
            end)
  | S754_infinity _ | S754_nan => None
  end.

(** [np.pi]. *)
Definition pi : float := 0x1.921fb54442d18p+1.

(** Python's [x / n] for a float [x] and an integer [n]: [n] is converted
    to a float (an integer that rounds past the largest double does not
    convert), and a zero divisor raises. *)
Definition py_div_int (x : float) (n : Z) : result float :=
  let d := of_Z n in
  if is_infinity d then Raise OverflowError
  else if d =? 0 then Raise ZeroDivisionError
  else Ok (x / d).

(** Round a double to the format of precision [p] and maximal exponent
    [e] (nearest, ties to even), the result again held as a double. *)
Definition round_to (p e : Z) (x : float) : float :=
  match Prim2SF x with
  | S754_finite s mx ex =>
      match binary_round p e s mx ex with
      | S754_finite s' m' e' => SF2Prim (binary_round prec emax s' m' e')
      | y => SF2Prim y
      end
  | _ => x
  end.

Definition to_binary32 : float -> float := round_to 24 128.

(** Python's [x / y] on two floats. *)
Definition py_div (x y : float) : result float :=
  if y =? 0 then Raise ZeroDivisionError else Ok (x / y).

End F64.

(** ** NumPy one-dimensional primitives *)

Module Np.

Open Scope float_scope.

(** The bounds of [npy_intp] as [np.arange] tests them, both converted to
    double. *)
Definition intp_min : Z := (- 2 ^ 63)%Z.
Definition intp_max_as_double : Z := (2 ^ 63)%Z.

(** The C cast [(npy_intp)ivalue] of an integral double: the 64-bit
    two's-complement integer.  A double up to [2^63 - 1024] converts to
    itself; [2^63], the one double that passes the range test and is not an
    [npy_intp], comes out as [-2^63]. *)
Definition to_intp (ivalue : Z) : Z :=
  ((ivalue + 2 ^ 63) mod 2 ^ 64 - 2 ^ 63)%Z.

(** Length of [np.arange(start, stop, step)] on Python floats, as NumPy
    computes it: [ceil((stop - start) / step)] in binary64, the division
    being Python's, cast to [npy_intp].  A quotient that underflows to zero
    gives length 1 (or 0 for a negative zero); a NaN or a ceiling outside
    the bounds is an error.  The length can be negative: [arange] then
    builds an empty array. *)
Definition arange_length (start stop step : float) : result Z :=
  let delta := stop - start in
  value <- F64.py_div delta step ;;
  match F64.ceil value with
  | None => Raise ValueError
  | Some ivalue =>
      if ((intp_min <=? ivalue) && (ivalue <=? intp_max_as_double))%Z
      then
        if (value =? 0) && negb (delta =? 0)
        then Ok (if get_sign value then 0%Z else 1%Z)
        else Ok (to_intp ivalue)
      else Raise ValueError
  end.

(** The fill loop of [np.arange]: slot 0 holds [start], slot 1 holds
    [start + step], and slot [i >= 2] holds [start + i * delta] where
    [delta = buffer[1] - buffer[0]]; the product and the sum are rounded
    one after the other.  Running out of memory is not modelled. *)
Fixpoint arange_fill (start delta : float) (i : Z) (count : nat) : list float :=
  match count with
  | O => []
  | S count' => (start + F64.of_Z i * delta) :: arange_fill start delta (i + 1) count'
  end.

Definition arange_values (start step : float) (len : nat) : list float :=
  match len with
  | O => []
  | S O => [start]
  | S (S rest) =>
      let next := start + step in
      start :: next :: arange_fill start (next - start) 2 rest
  end.

Definition arange (start stop step : float) : result (list float) :=
  len <- arange_length start stop step ;;
  Ok (arange_values start step (Z.to_nat len)).

(** [np.cumprod]: slot 0 is the first element, slot [i] multiplies slot
    [i - 1] by element [i]. *)
Fixpoint cumprod_from (acc : float) (a : list float) : list float :=
  match a with
  | [] => []
  | x :: rest => let acc' := acc * x in acc' :: cumprod_from acc' rest
  end.

Definition cumprod (a : list float) : list float :=
  match a with
  | [] => []
  | x :: rest => x :: cumprod_from x rest
  end.

End Np.

(** ** What the platform supplies

    [np.sin], [np.cos] and [np.power] on doubles are the math library's;
    their values are not fixed by IEEE 754, so the embedding takes them as
    given.  So is the content of the memory [np.empty] hands out. *)

Record platform : Type := {
  np_sin : float -> float;
  np_cos : float -> float;
  np_power : float -> float -> float;
  np_empty_cell : nat -> nat -> float
}.

(** ** Schedule generators *)

Section Schedules.

Open Scope float_scope.

Variable pf : platform.

Definition schedule : Type := list float * list float * list float.

Definition gamma_start_default : float := 0.
Definition gamma_end_default : float := 0.1.

Definition compute_beta_alpha (nsteps : Z)
    (beta_start beta_end gamma_start gamma_end : float) : result schedule :=
  beta_step <- F64.py_div_int (beta_end - beta_start) nsteps ;;
  beta <- Np.arange beta_start beta_end beta_step ;;
  gamma_step <- F64.py_div_int (gamma_end - gamma_start) nsteps ;;
  sigma <- Np.arange gamma_start gamma_end gamma_step ;;
  let alpha := Np.cumprod (map (fun b => 1 - b) beta) in
  Ok (beta, alpha, sigma).

Definition compute_beta_alpha2 (nsteps : Z)
    (beta_start beta_end gamma_start gamma_end : float) : result schedule :=
  unit_step <- F64.py_div_int 1 nsteps ;;
  u <- Np.arange 0 1 unit_step ;;
  let t := map (fun x => (F64.pi / 2) * x) u in
  let beta := map (fun x => np_sin pf x * (beta_end - beta_start) + beta_start) t in
  gamma_step <- F64.py_div_int (gamma_end - gamma_start) nsteps ;;
  sigma <- Np.arange gamma_start gamma_end gamma_step ;;
  let alpha := Np.cumprod (map (fun b => 1 - b) beta) in
  Ok (beta, alpha, sigma).

End Schedules.

(** The product [(1 - beta[0]) * ... * (1 - beta[t])] of the specification,
    multiplied left to right in binary64. *)
Fixpoint retained_product (beta : list float) (t : nat) : float :=
  match t with
  | O => (1 - nth 0 beta 0)%float
  | S t' => (retained_product beta t' * (1 - nth t beta 0))%float
  end.

(** The lengths of a returned schedule. *)
Definition schedule_lengths (r : result schedule) : option (nat * nat * nat) :=
  match r with
  | Ok (beta, alpha, sigma) => Some (length beta, length alpha, length sigma)
  | Raise _ => None
  end.

(** A stand-in platform, used only to run the definitions on concrete
    inputs: low-order Taylor polynomials around 0 for the math library, and
    memory that reads as 0.25 before it is written. *)
Definition taylor_platform : platform := {|
  np_sin := fun x => (x - x * x * x / 6)%float;
  np_cos := fun x => (1 - x * x / 2)%float;
  np_power := fun b y => (1 + y * (b - 1))%float;
  np_empty_cell := fun _ _ => 0.25%float
|}.

(** ** Tensors and two-dimensional arrays *)

Module Tensor.

(** A dense tensor: its shape and its elements in row-major order. *)
Record t (A : Type) : Type := mk { shape : list nat; data : list A }.

Arguments mk {A} shape data.
Arguments shape {A} _.
Arguments data {A} _.

Definition numel (s : list nat) : nat := fold_right Nat.mul 1%nat s.

(** The tensor of a Python list of numbers, and of a list of such lists. *)
Definition vector {A : Type} (l : list A) : t A := mk [length l] l.

Definition matrix {A : Type} (rows : list (list A)) : t A :=
  mk [length rows; length (hd [] rows)] (concat rows).

(** Element [(r, c)] of a rank-2 tensor. *)
Definition get2 {A : Type} (x : t A) (r c : nat) (d : A) : A :=
  nth (r * nth 1 (shape x) 0 + c)%nat (data x) d.

End Tensor.

Module Np2.

(** Two-dimensional arrays as lists of rows. *)
Definition array2 (A : Type) : Type := list (list A).

(** [np.arange(n)] on an integer. *)
Definition arange_int (n : Z) : list Z := map Z.of_nat (seq 0 (Z.to_nat n)).

(** [np.meshgrid(x, y)]: both grids have [len(y)] rows and [len(x)]
    columns; the first repeats [x] along the rows, the second repeats [y]
    along the columns. *)
Definition meshgrid {A B : Type} (x : list A) (y : list B)
  : array2 A * array2 B :=
  (map (fun _ => x) y, map (fun b => map (fun _ => b) x) y).

(** An elementwise binary operation on two arrays of one shape. *)
Definition map2 {A B C : Type} (f : A -> B -> C) (a : array2 A) (b : array2 B)
  : array2 C :=
  map (fun rr => map (fun xy => f (fst xy) (snd xy)) (combine (fst rr) (snd rr)))
      (combine a b).

(** [a.T] for an array with [ncols] columns. *)
Definition transpose {A : Type} (ncols : nat) (a : array2 A) (d : A) : array2 A :=
  map (fun j => map (fun row => nth j row d) a) (seq 0 ncols).

(** [np.empty((rows, cols))]: whatever the memory holds. *)
Definition empty (cell : nat -> nat -> float) (rows cols : nat) : array2 float :=
  map (fun r => map (fun c => cell r c) (seq 0 cols)) (seq 0 rows).

(** One row of [dst[:, k::2] = src]: [skip] tells whether the next slot of
    [dst] is outside the slice. *)
Fixpoint assign_stride2 {A : Type} (skip : bool) (dst src : list A) : list A :=
  match dst with
  | [] => []
  | d :: dst' =>
      if skip then d :: assign_stride2 false dst' src
      else match src with
           | s :: src' => s :: assign_stride2 true dst' src'
           | [] => dst
           end
  end.

(** [dst[:, ::2] = src] ([odd = false]) and [dst[:, 1::2] = src]
    ([odd = true]). *)
Definition assign_cols {A : Type} (odd : bool) (dst src : array2 A) : array2 A :=
  map (fun rr => assign_stride2 odd (fst rr) (snd rr)) (combine dst src).

End Np2.

(** ** TensorFlow pieces *)

Module Tf.

Open Scope float_scope.

Inductive dtype : Set := float16 | float32 | float64.

Inductive device : Set := CPU | GPU.

(** [ndarray.astype(dtype)] on a [float64] element. *)
Definition astype (dt : dtype) (x : float) : float :=
  match dt with
  | float16 => F64.round_to 11 16 x
  | float32 => F64.to_binary32 x
  | float64 => x
  end.

(** [tf.constant] of a two-dimensional array. *)
Definition constant2 {A : Type} (rows cols : nat) (a : Np2.array2 A) : Tensor.t A :=
  Tensor.mk [rows; cols] (concat a).

(** Row-major offset of an index tuple into dimensions [dims]; [None]
    when a component is out of bounds. *)
Fixpoint flat_offset (dims : list nat) (ix : list Z) (acc : nat) : option nat :=
  match dims, ix with
  | [], _ => Some acc
  | d :: dims', i :: ix' =>
      if ((0 <=? i) && (i <? Z.of_nat d))%Z
      then flat_offset dims' ix' (acc * d + Z.to_nat i)
      else None
  | _ :: _, [] => None
  end.

Fixpoint collect {A : Type} (rs : list (result A)) : result (list A) :=
  match rs with
  | [] => Ok []
  | r :: rs' => x <- r ;; xs <- collect rs' ;; Ok (x :: xs)
  end.

(** [tf.gather_nd(params, indices)]: the last axis of [indices], of length
    [K], holds index tuples into the first [K] axes of [params]; each tuple
    selects a slice.  Both arguments must have an axis, and [K] cannot
    exceed the rank of [params].  Asking for at least one slice of a
    [params] that has no element is an error on every device.  An
    out-of-bounds tuple is an error on CPU and yields a slice of zeros on
    GPU.  The limits on the number of elements are not modelled. *)
Definition gather_nd (dev : device) (params : Tensor.t float)
    (indices : Tensor.t Z) : result (Tensor.t float) :=
  match rev (Tensor.shape indices) with
  | [] => Raise InvalidArgumentError
  | K :: outer_rev =>
      if ((length (Tensor.shape params) =? 0) ||
          (length (Tensor.shape params) <? K))%nat
      then Raise InvalidArgumentError
      else
        let outer := rev outer_rev in
        let slice_shape := skipn K (Tensor.shape params) in
        let slice_size := Tensor.numel slice_shape in
        if ((0 <? Tensor.numel outer) &&
            (Tensor.numel (Tensor.shape params) =? 0))%nat
        then Raise InvalidArgumentError
        else
          let gather_one (j : nat) : result (list float) :=
            let ix := firstn K (skipn (j * K) (Tensor.data indices)) in
            match flat_offset (firstn K (Tensor.shape params)) ix 0 with
            | Some off =>
                Ok (firstn slice_size (skipn (off * slice_size) (Tensor.data params)))
            | None =>
                match dev with
                | CPU => Raise InvalidArgumentError
                | GPU => Ok (repeat 0 slice_size)
                end
            end in
          slices <- collect (map gather_one (seq 0 (Tensor.numel outer))) ;;
          Ok (Tensor.mk (outer ++ slice_shape) (concat slices))
  end.

End Tf.

(** ** The position encoder layer *)

Record PositionEncoder : Type := {
  positional_embedding : Tensor.t float;
  max_steps : Z;
  max_dims : Z;
  dtype : Tf.dtype
}.

Definition default_dtype : Tf.dtype := Tf.float32.

Section Encoder.

Open Scope float_scope.

Variable pf : platform.

(** The argument [p / 10000**(2 * i / max_dims)] of the sine and the
    cosine, for one grid point. *)
Definition angle (max_dims p i : Z) : float :=
  F64.of_Z p / np_power pf (F64.of_Z 10000) (F64.of_Z (2 * i) / F64.of_Z max_dims).

(** [PositionEncoder.__init__]; [np.empty] rejects a negative dimension. *)
Definition PositionEncoder_init (max_steps max_dims : Z) (dtype : Tf.dtype)
  : result PositionEncoder :=
  let max_dims := if (max_dims mod 2 =? 1)%Z then (max_dims + 1)%Z else max_dims in
  let '(p, i) := Np2.meshgrid (Np2.arange_int max_steps)
                              (Np2.arange_int (max_dims / 2)) in
  if ((max_steps <? 0) || (max_dims <? 0))%Z then Raise ValueError
  else
    let rows := Z.to_nat max_steps in
    let cols := Z.to_nat max_dims in
    let pos_emb := Np2.empty (np_empty_cell pf) rows cols in
    let pos_emb :=
      Np2.assign_cols false pos_emb
        (Np2.transpose rows
           (map (map (np_sin pf)) (Np2.map2 (angle max_dims) p i)) 0) in
    let pos_emb :=
      Np2.assign_cols true pos_emb
        (Np2.transpose rows
           (map (map (np_cos pf)) (Np2.map2 (angle max_dims) p i)) 0) in
    Ok {| positional_embedding :=
            Tf.constant2 rows cols (map (map (Tf.astype dtype)) pos_emb);
          max_steps := max_steps;
          max_dims := max_dims;
          dtype := dtype |}.

End Encoder.

(** [PositionEncoder.call] on the device the layer runs on. *)
Definition call (dev : Tf.device) (self : PositionEncoder) (indices : Tensor.t Z)
  : result (Tensor.t float) :=
  Tf.gather_nd dev (positional_embedding self) indices.

(** [PositionEncoder.embedding]. *)
Definition embedding (self : PositionEncoder) : Tensor.t float :=
  positional_embedding self.

(** The stored dimensionality as the specification words it: [max_dims]
    when even, [max_dims + 1] when odd. *)
Definition stored_dims (max_dims : Z) : Z :=
  if Z.even max_dims then max_dims else (max_dims + 1)%Z.

(** Row [i] of the encoder's table. *)
Definition table_row (self : PositionEncoder) (i : Z) : list float :=
  let width := Z.to_nat (max_dims self) in
  firstn width (skipn (Z.to_nat i * width) (Tensor.data (embedding self))).

(** What a lookup yields for index [i] on GPU: the row, or zeros when [i]
    is out of range. *)
Definition table_row_or_zeros (self : PositionEncoder) (i : Z) : list float :=
  if ((0 <=? i) && (i <? max_steps self))%Z then table_row self i
  else repeat 0%float (Z.to_nat (max_dims self)).

(** Row [r] of [pos_emb] once both slice assignments are done. *)
Definition encoding_row (pf : platform) (max_dims : Z) (r : nat) : list float :=
  let y := Np2.arange_int (max_dims / 2) in
  Np2.assign_stride2 true
    (Np2.assign_stride2 false
       (map (np_empty_cell pf r) (seq 0 (Z.to_nat max_dims)))
       (map (fun i => np_sin pf (angle pf max_dims (Z.of_nat r) i)) y))
    (map (fun i => np_cos pf (angle pf max_dims (Z.of_nat r) i)) y).

(** ** Arrays in the Python heap, and the range converter *)

Module Heap.

Open Scope float_scope.

Inductive buffer : Type :=
| Int64 (l : list Z)
| Float32 (l : list float)
| Float64 (l : list float).

Record ndarray : Type := { nd_shape : list nat; nd_buffer : buffer }.

(** The heap holds the arrays; a reference is a position in it. *)
Definition heap : Type := list ndarray.
Definition ref : Type := nat.

Definition State (A : Type) : Type := heap -> A * heap.

Definition ret {A : Type} (a : A) : State A := fun h => (a, h).

Definition bind {A B : Type} (c : State A) (k : A -> State B) : State B :=
  fun h => let (a, h') := c h in k a h'.

Definition no_array : ndarray := {| nd_shape := [0%nat]; nd_buffer := Float64 [] |}.

Definition read (r : ref) (h : heap) : ndarray := nth r h no_array.

(** The elements of an array as doubles: an integer is converted, a
    [float32] element is held as the double of the same value. *)
Definition operand (b : buffer) : list float :=
  match b with
  | Int64 l => map F64.of_Z l
  | Float32 l => l
  | Float64 l => l
  end.

(** An operation between an array and a Python float keeps a [float32]
    array in [float32] and gives [float64] for the other arrays:
    [rounding] rounds a double into the result's format and [rebuild]
    makes the result's buffer. *)
Definition rounding (b : buffer) : float -> float :=
  match b with
  | Float32 _ => F64.to_binary32
  | _ => fun x => x
  end.

Definition rebuild (b : buffer) (l : list float) : buffer :=
  match b with
  | Float32 _ => Float32 l
  | _ => Float64 l
  end.

(** An elementwise operation against a Python scalar: the result is a new
    array of the operand's shape, each element [f x] rounded into the
    result's format. *)
Definition elementwise (f : float -> float) (r : ref) : State ref :=
  fun h =>
    let a := read r h in
    (length h,
     h ++ [{| nd_shape := nd_shape a;
              nd_buffer :=
                rebuild (nd_buffer a)
                        (map (fun x => rounding (nd_buffer a) (f x))
                             (operand (nd_buffer a))) |}]).

(** An elementwise choice between the element and the scalar: nothing to
    round. *)
Definition elementwise_select (f : float -> float) (r : ref) : State ref :=
  fun h =>
    let a := read r h in
    (length h,
     h ++ [{| nd_shape := nd_shape a;
              nd_buffer := rebuild (nd_buffer a) (map f (operand (nd_buffer a))) |}]).

(** The scalar loops of [np.maximum] and [np.minimum]: a NaN operand wins. *)
Definition scalar_max (a b : float) : float :=
  if (b <=? a) || is_nan a then a else b.

Definition scalar_min (a b : float) : float :=
  if (a <=? b) || is_nan a then a else b.

Definition true_divide (r : ref) (c : float) : State ref :=
  elementwise (fun x => x / c) r.

Definition add (r : ref) (c : float) : State ref :=
  elementwise (fun x => x + c) r.

Definition maximum (r : ref) (c : float) : State ref :=
  elementwise_select (fun x => scalar_max x c) r.

Definition minimum (r : ref) (c : float) : State ref :=
  elementwise_select (fun x => scalar_min x c) r.

End Heap.

Notation "x <~ c ;; k" := (Heap.bind c (fun x => k))
  (at level 61, c at next level, right associativity).

Definition convert_image (I : Heap.ref) : Heap.State Heap.ref :=
  I1 <~ Heap.true_divide I 2 ;;
  I2 <~ Heap.add I1 0.5 ;;
  I3 <~ Heap.maximum I2 0 ;;
  I4 <~ Heap.minimum I3 1 ;;
  Heap.ret I4.

(** The converter run on a heap that holds one array, and the array it
    returns. *)
Definition run_convert_image (a : Heap.ndarray) : Heap.ndarray :=
  let (r, h) := convert_image 0%nat [a] in Heap.read r h.

(** A heap with two arrays, to run the converter on. *)
Definition sample_image : Heap.ndarray :=
  {| Heap.nd_shape := [2; 2]%nat;
     Heap.nd_buffer := Heap.Float32 [-3; -0.5; 0.25; nan]%float |}.

Definition sample_heap : Heap.heap := [Heap.no_array; sample_image].

(** [clamp(x, lo, hi)] as the specification words it. *)
Definition clamp (x lo hi : float) : float :=
  if (x <? lo)%float then lo else if (hi <? x)%float then hi else x.

(** The specification's [to_unit_range] on one element,
    [clamp(x/2 + 0.5, 0.0, 1.0)], in the arithmetic of a format whose
    rounding is [rnd] (the identity for [float64]). *)
Definition to_unit_range (rnd : float -> float) (x : float) : float :=
  clamp (rnd (rnd (x / 2) + 0.5))%float 0 1.

(** ** Binary64 rounding: what the proofs below measure

    The order of two positive binary64 numbers is read off their values
    [m * 2^e]; to stay in the integers the values are scaled by [2^K] for a
    [K] that exceeds every exponent in play. *)

Definition scaled (K m e : Z) : Z := (m * 2 ^ (e + K))%Z.

(** A mantissa and exponent in canonical form for binary64. *)
Definition canonical (m : positive) (e : Z) : Prop :=
  fexp prec emax (Zpos (digits2_pos m) + e) = e.

(** What [k] right shifts leave of a mantissa [m]: the quotient, and a
    record that is inexact only when the remainder is not zero. *)
Definition shifted (m : Z) (k : nat) (mrs : shr_record) : Prop :=
  (0 <= shr_m mrs /\
   shr_m mrs * 2 ^ Z.of_nat k <= m < (shr_m mrs + 1) * 2 ^ Z.of_nat k /\
   (loc_of_shr_record mrs <> loc_Exact -> shr_m mrs * 2 ^ Z.of_nat k < m))%Z.

(** A binary64 number in the interval [0, 1], as a test on the float and
    as a property of its decoding. *)
Definition in_unit (x : float) : bool := ((0 <=? x) && (x <=? 1))%float.

Definition unit_SF (K : Z) (sf : spec_float) : Prop :=
  match sf with
  | S754_zero _ => True
  | S754_finite s m e =>
      s = false /\ canonical m e /\ (scaled K (Zpos m) e <= scaled K 1 0)%Z
  | _ => False
  end.

(** ** Signs, step counts, configurations and file names

    Definitions the edge-case theorems at the end of the file are stated
    with. *)

(** The sign bit of a decoded binary64 number; a NaN has none. *)
Definition sign_of (sf : spec_float) : option bool :=
  match sf with
  | S754_zero s | S754_infinity s | S754_finite s _ _ => Some s
  | S754_nan => None
  end.

(** The step counts up to 1000 for which [np.arange(0, 1, 1.0/n)] has
    [n + 1] elements, and those for which the default gamma range
    [np.arange(0, 0.1, 0.1/n)] has. *)
Definition sine_long_steps : list Z :=
  [49; 98; 103; 107; 196; 197; 206; 214; 237; 239; 249; 253; 392; 394;
   412; 417; 425; 428; 443; 474; 478; 479; 491; 498; 499; 501; 503; 506;
   509; 737; 784; 788; 797; 809; 817; 823; 824; 833; 834; 841; 849; 850;
   853; 856; 857; 886; 895; 927; 929; 947; 948; 949; 956; 958; 969; 982;
   996; 998]%Z.

Definition gamma_long_steps : list Z :=
  [95; 190; 193; 253; 379; 380; 383; 386; 397; 407; 483; 499; 506; 691;
   723; 727; 735; 741; 753; 757; 758; 760; 763; 766; 767; 769; 772; 787;
   791; 794; 795; 801; 803; 811; 814; 966; 998]%Z.

(** The number of elements a sequence has for [n] steps: one more than
    [n] for the steps listed in [long]. *)
Definition steps_or_one_more (long : list Z) (n : Z) : nat :=
  Z.to_nat (if existsb (Z.eqb n) long then n + 1 else n).

(** ** The layer's configuration

    The configuration is a Python dict, held here as a record of its
    entries.  [keras.layers.Layer.get_config] gives the layer's name,
    whether it is trainable and its dtype; [PositionEncoder.get_config]
    updates that dict with the two recorded sizes, and [from_config] calls
    the constructor with the entries as keyword arguments: the sizes and
    the dtype are the constructor's own, the name and the flag go to the
    base class. *)

Record layer_config : Type := {
  config_name : String.string;
  config_trainable : bool;
  config_dtype : Tf.dtype
}.

Record encoder_config : Type := {
  base_config : layer_config;
  config_max_steps : Z;
  config_max_dims : Z
}.

Definition get_config (super_get_config : PositionEncoder -> layer_config)
    (self : PositionEncoder) : encoder_config :=
  {| base_config := super_get_config self;
     config_max_steps := max_steps self;
     config_max_dims := max_dims self |}.

Definition from_config (pf : platform) (config : encoder_config)
  : result PositionEncoder :=
  PositionEncoder_init pf (config_max_steps config) (config_max_dims config)
    (config_dtype (base_config config)).

(** The row [[0, 1, 0, 1, ...]] of [pairs] pairs. *)
Definition zero_one_row (pairs : nat) : list float :=
  flat_map (fun _ => [0; 1]%float) (seq 0 pairs).

(** ** hw8_base.py: the name of the output files *)

Module Base.

Import Stdlib.Strings.String.

Local Open Scope string_scope.

(** The arguments [generate_fname] reads.  The parser gives [exp_type] and
    [label] the default [None]. *)
Record args : Type := {
  results_path : string;
  exp_type : option string;
  label : option string
}.

(** What an f-string puts for a string or [None]. *)
Definition format_field (x : option string) : string :=
  match x with
  | Some s => s
  | None => "None"
  end.

Definition generate_fname (a : args) : string :=
  results_path a ++ "/" ++ format_field (exp_type a) ++
  match label a with
  | Some l => "_" ++ l
  | None => ""
  end.

End Base.

(** A decoded number of sign [s] whose magnitude is at least [2^b]: an
    infinity counts. *)
Definition at_least (K : Z) (s : bool) (b : Z) (sf : spec_float) : Prop :=
  match sf with
  | S754_infinity s' => s' = s
  | S754_finite s' m e => s' = s /\ (scaled K 1 b <= scaled K (Zpos m) e)%Z
  | _ => False
  end.

(** A binary64 number in the interval [-1, 1], as a test on the float. *)
Definition in_signed_unit (x : float) : bool := ((-1 <=? x) && (x <=? 1))%float.

(** A decoded number, of either sign, whose magnitude is at most [2^b]. *)
Definition at_most (K : Z) (b : Z) (sf : spec_float) : Prop :=
  match sf with
  | S754_zero _ => True
  | S754_finite _ m e => (scaled K (Zpos m) e <= scaled K 1 b)%Z
  | _ => False
  end.

(** Row [t] of the table as the specification words it for the default
    dtype: for each pair index, the 32-bit rounding of the sine and of the
    cosine of the angle. *)
Definition rounded_row (pf : platform) (max_dims t : Z) : list float :=
  flat_map (fun i => [F64.to_binary32 (np_sin pf (angle pf max_dims t i));
                      F64.to_binary32 (np_cos pf (angle pf max_dims t i))])
           (Np2.arange_int (max_dims / 2)).

(** What a shift record holds of a quotient [N / P] that need not be an
    integer: its mantissa is the integer part of the quotient, and the
    record is inexact whenever the quotient is not that integer. *)
Definition within (N P : Z) (mrs : shr_record) : Prop :=
  (0 <= shr_m mrs /\
   shr_m mrs * P <= N < (shr_m mrs + 1) * P /\
   (loc_of_shr_record mrs <> loc_Exact -> shr_m mrs * P < N))%Z.

(** * Lemmas on the NumPy primitives *)

Module NpFacts.

Open Scope float_scope.

Lemma arange_fill_length start delta i count :
  length (Np.arange_fill start delta i count) = count.
Proof.
  revert i; induction count as [|count IH]; intros i; simpl.
  - reflexivity.
  - now rewrite IH.
Qed.

Lemma arange_values_length start step len :
  length (Np.arange_values start step len) = len.
Proof.
  destruct len as [|[|rest]]; simpl; try reflexivity.
  now rewrite arange_fill_length.
Qed.

Lemma cumprod_from_length acc a :
  length (Np.cumprod_from acc a) = length a.
Proof.
  revert acc; induction a as [|x rest IH]; intros acc; simpl.
  - reflexivity.
  - now rewrite IH.
Qed.

Lemma cumprod_length a : length (Np.cumprod a) = length a.
Proof.
  destruct a as [|x rest]; simpl; [reflexivity|].
  now rewrite cumprod_from_length.
Qed.

(** Slot [t] of the tail of a running product started at [acc]. *)
Lemma cumprod_from_nth acc a t d :
  (t < length a)%nat ->
  nth t (Np.cumprod_from acc a) d =
  fold_left PrimFloat.mul (firstn (S t) a) acc.
Proof.
  revert acc t; induction a as [|x rest IH]; intros acc t Ht; simpl in Ht.
  - lia.
  - destruct t as [|t].
    + reflexivity.
    + cbn [Np.cumprod_from nth]. rewrite IH by lia. reflexivity.
Qed.

Lemma cumprod_nth_0 a d :
  (0 < length a)%nat -> nth 0 (Np.cumprod a) d = nth 0 a d.
Proof.
  destruct a as [|x rest]; simpl; [lia | reflexivity].
Qed.

(** The recurrence of [np.cumprod]. *)
Lemma cumprod_nth_S a t d :
  (S t < length a)%nat ->
  nth (S t) (Np.cumprod a) d = nth t (Np.cumprod a) d * nth (S t) a d.
Proof.
  destruct a as [|x rest]; simpl; [lia|]. intros Ht.
  assert (H : forall acc l k, (k < length l)%nat ->
            nth k (Np.cumprod_from acc l) d =
            nth k (acc :: Np.cumprod_from acc l) d * nth k l d).
  { intros acc l; revert acc; induction l as [|y l IH]; intros acc k Hk;
      simpl in Hk; [lia|].
    destruct k as [|k]; [reflexivity|].
    cbn [Np.cumprod_from nth]. rewrite IH by lia. reflexivity. }
  apply H. lia.
Qed.

End NpFacts.

(** * Inversion of the two generators *)

Section ScheduleFacts.

Open Scope float_scope.

Variable pf : platform.

Lemma compute_beta_alpha_inv nsteps b0 b1 g0 g1 beta alpha sigma :
  compute_beta_alpha nsteps b0 b1 g0 g1 = Ok (beta, alpha, sigma) ->
  exists beta_step,
    F64.py_div_int (b1 - b0) nsteps = Ok beta_step /\
    Np.arange b0 b1 beta_step = Ok beta /\
    alpha = Np.cumprod (map (fun b => 1 - b) beta).
Proof.
  unfold compute_beta_alpha, Py.bind.
  destruct (F64.py_div_int (b1 - b0) nsteps) as [bs|]; [|discriminate].
  destruct (Np.arange b0 b1 bs) as [bl|] eqn:Ebeta; [|discriminate].
  destruct (F64.py_div_int (g1 - g0) nsteps) as [gs|]; [|discriminate].
  destruct (Np.arange g0 g1 gs) as [gl|]; [|discriminate].
  intros H; injection H as <- <- <-. exists bs. repeat split. exact Ebeta.
Qed.

Lemma compute_beta_alpha2_inv nsteps b0 b1 g0 g1 beta alpha sigma :
  compute_beta_alpha2 pf nsteps b0 b1 g0 g1 = Ok (beta, alpha, sigma) ->
  exists unit_step u,
    F64.py_div_int 1 nsteps = Ok unit_step /\
    Np.arange 0 1 unit_step = Ok u /\
    beta = map (fun x => np_sin pf ((F64.pi / 2) * x) * (b1 - b0) + b0) u /\
    alpha = Np.cumprod (map (fun b => 1 - b) beta).
Proof.
  unfold compute_beta_alpha2, Py.bind.
  destruct (F64.py_div_int 1 nsteps) as [us|]; [|discriminate].
  destruct (Np.arange 0 1 us) as [u|] eqn:Eu; [|discriminate].
  destruct (F64.py_div_int (g1 - g0) nsteps) as [gs|]; [|discriminate].
  destruct (Np.arange g0 g1 gs) as [gl|]; [|discriminate].
  intros H; injection H as <- <- <-. exists us, u.
  rewrite map_map. repeat split. exact Eu.
Qed.

(** In either generator [alpha] is [np.cumprod (1 - beta)]. *)
Lemma alpha_is_cumprod nsteps b0 b1 g0 g1 beta alpha sigma :
  compute_beta_alpha nsteps b0 b1 g0 g1 = Ok (beta, alpha, sigma) \/
  compute_beta_alpha2 pf nsteps b0 b1 g0 g1 = Ok (beta, alpha, sigma) ->
  alpha = Np.cumprod (map (fun b => 1 - b) beta).
Proof.
  intros [H|H].
  - apply compute_beta_alpha_inv in H. now destruct H as (? & _ & _ & ->).
  - apply compute_beta_alpha2_inv in H. now destruct H as (? & ? & _ & _ & _ & ->).
Qed.

Lemma retained_product_cumprod beta t :
  (t < length beta)%nat ->
  nth t (Np.cumprod (map (fun b => 1 - b) beta)) 0 = retained_product beta t.
Proof.
  intros Ht. induction t as [|t IH].
  - rewrite NpFacts.cumprod_nth_0 by (rewrite length_map; lia).
    simpl. destruct beta; [simpl in Ht; lia | reflexivity].
  - rewrite NpFacts.cumprod_nth_S by (rewrite length_map; lia).
    rewrite IH by lia. cbn [retained_product]. f_equal.
    rewrite (nth_indep _ 0 (1 - 0)) by (rewrite length_map; lia).
    apply (map_nth (fun b => 1 - b)).
Qed.

End ScheduleFacts.

(** * Binary64 facts *)

Module F64Facts.

Open Scope float_scope.

Lemma SFcompare_antisym x y :
  SFcompare y x = option_map CompOpp (SFcompare x y).
Proof.
  destruct x as [sx|sx| |sx mx ex], y as [sy|sy| |sy my ey]; simpl;
    try destruct sx; try destruct sy; try reflexivity;
    rewrite (Z.compare_antisym ex ey); destruct (ex ?= ey)%Z; simpl;
    try reflexivity;
    rewrite (Pos.compare_cont_antisym mx my Eq); reflexivity.
Qed.

Lemma SFcompare_refl x : x <> S754_nan -> SFcompare x x = Some Eq.
Proof.
  destruct x as [s|s| |s mx ex]; simpl; intros H; try congruence;
    destruct s; try reflexivity;
    rewrite Z.compare_refl, Pos.compare_cont_refl; reflexivity.
Qed.

Lemma is_nan_spec x :
  is_nan x = match Prim2SF x with S754_nan => true | _ => false end.
Proof.
  unfold is_nan. rewrite eqb_spec. unfold SFeqb.
  destruct (Prim2SF x) eqn:E; try reflexivity;
    rewrite SFcompare_refl by discriminate; reflexivity.
Qed.

Lemma nan_ltb_l x y : is_nan x = true -> (x <? y) = false.
Proof.
  rewrite is_nan_spec, ltb_spec. unfold SFltb.
  destruct (Prim2SF x); try discriminate. reflexivity.
Qed.

Lemma nan_ltb_r x y : is_nan y = true -> (x <? y) = false.
Proof.
  rewrite is_nan_spec, ltb_spec. unfold SFltb.
  destruct (Prim2SF y); try discriminate. now destruct (Prim2SF x).
Qed.

Lemma nan_leb_l x y : is_nan x = true -> (x <=? y) = false.
Proof.
  rewrite is_nan_spec, leb_spec. unfold SFleb.
  destruct (Prim2SF x); try discriminate. reflexivity.
Qed.

Lemma nan_leb_r x y : is_nan y = true -> (x <=? y) = false.
Proof.
  rewrite is_nan_spec, leb_spec. unfold SFleb.
  destruct (Prim2SF y); try discriminate. now destruct (Prim2SF x).
Qed.

(** On numbers, [y <= x] is the negation of [x < y]. *)
Lemma leb_negb_ltb x y :
  is_nan x = false -> is_nan y = false -> (y <=? x) = negb (x <? y).
Proof.
  rewrite !is_nan_spec, leb_spec, ltb_spec. unfold SFleb, SFltb.
  rewrite (SFcompare_antisym (Prim2SF x) (Prim2SF y)).
  destruct (Prim2SF x) as [sx|sx| |sx mx ex] eqn:Ex; try discriminate;
    destruct (Prim2SF y) as [sy|sy| |sy my ey] eqn:Ey; try discriminate;
    intros _ _;
    match goal with
    | |- context [SFcompare ?a ?b] => destruct (SFcompare a b) as [[]|] eqn:Ec
    end; try reflexivity; simpl in Ec;
    repeat match type of Ec with
           | context [if ?s then _ else _] => destruct s
           end; discriminate.
Qed.

(** A zero dividend over a positive divisor is [+0]. *)
Lemma zero_div_pos x : (0 <? x) = true -> 0 / x = 0.
Proof.
  rewrite ltb_spec. intros H. apply Prim2SF_inj. rewrite div_spec.
  change (Prim2SF 0) with (S754_zero false) in *.
  destruct (Prim2SF x) as [s|s| |s mx ex]; simpl in *;
    try discriminate; destruct s; try discriminate; reflexivity.
Qed.

Lemma astype_zero dt : Tf.astype dt 0 = 0.
Proof. destruct dt; reflexivity. Qed.

Lemma astype_one dt : Tf.astype dt 1 = 1.
Proof. destruct dt; reflexivity. Qed.

(** The two clamping loops of the source against the specification's
    [clamp]. *)
Lemma scalar_min_max_clamp v :
  Heap.scalar_min (Heap.scalar_max v 0) 1 = clamp v 0 1.
Proof.
  unfold Heap.scalar_min, Heap.scalar_max, clamp.
  destruct (is_nan v) eqn:Hnan.
  - rewrite (nan_leb_r 0 v Hnan), (nan_ltb_l v 0 Hnan), (nan_ltb_r 1 v Hnan).
    simpl. rewrite Hnan, (nan_leb_l v 1 Hnan). reflexivity.
  - rewrite (leb_negb_ltb v 0 Hnan eq_refl).
    destruct (v <? 0); simpl.
    + reflexivity.
    + rewrite Hnan, (leb_negb_ltb 1 v eq_refl Hnan).
      now destruct (1 <? v).
Qed.

End F64Facts.

(** * Binary64 rounding against a representable bound *)

Module Rounding.

Open Scope Z_scope.

Lemma digits2_bounds m :
  2 ^ (Zpos (digits2_pos m) - 1) <= Zpos m < 2 ^ Zpos (digits2_pos m).
Proof.
  induction m as [m IH|m IH|]; cbn [digits2_pos].
  - rewrite Pos2Z.inj_succ.
    replace (Z.succ (Zpos (digits2_pos m)) - 1) with (Zpos (digits2_pos m)) by lia.
    rewrite Z.pow_succ_r by lia.
    assert (H : 2 ^ Zpos (digits2_pos m) = 2 * 2 ^ (Zpos (digits2_pos m) - 1)).
    { rewrite <- Z.pow_succ_r by lia. f_equal. lia. }
    lia.
  - rewrite Pos2Z.inj_succ.
    replace (Z.succ (Zpos (digits2_pos m)) - 1) with (Zpos (digits2_pos m)) by lia.
    rewrite Z.pow_succ_r by lia.
    assert (H : 2 ^ Zpos (digits2_pos m) = 2 * 2 ^ (Zpos (digits2_pos m) - 1)).
    { rewrite <- Z.pow_succ_r by lia. f_equal. lia. }
    lia.
  - simpl. lia.
Qed.

Lemma iter_pos_nat {A : Type} (f : A -> A) p x :
  iter_pos f p x = Nat.iter (Pos.to_nat p) f x.
Proof.
  revert x; induction p as [p IH|p IH|]; intros x; cbn [iter_pos].
  - rewrite !IH, Pos2Nat.inj_xI.
    replace (S (2 * Pos.to_nat p)) with (Pos.to_nat p + S (Pos.to_nat p))%nat by lia.
    rewrite Nat.iter_add. f_equal. now rewrite Nat.iter_succ_r.
  - rewrite !IH, Pos2Nat.inj_xO.
    replace (2 * Pos.to_nat p)%nat with (Pos.to_nat p + Pos.to_nat p)%nat by lia.
    now rewrite Nat.iter_add.
  - reflexivity.
Qed.

Lemma shifted_step m k mrs : shifted m k mrs -> shifted m (S k) (shr_1 mrs).
Proof.
  unfold shifted. rewrite Nat2Z.inj_succ, Z.pow_succ_r by lia.
  assert (Hp : 0 < 2 ^ Z.of_nat k) by (apply Z.pow_pos_nonneg; lia).
  set (P := 2 ^ Z.of_nat k) in *.
  destruct mrs as [mm r s]. cbn [shr_m]. intros (H0 & [Hlo Hhi] & Hin).
  assert (Hin' : r || s = true -> mm * P < m).
  { intros Hrs. apply Hin. destruct r, s; simpl in *; congruence. }
  assert (Hloc : forall q b,
            loc_of_shr_record (Build_shr_record q b (r || s)) <> loc_Exact ->
            b = true \/ r || s = true).
  { intros q b. destruct b; [now left|]. destruct (r || s); [now right|].
    simpl. congruence. }
  destruct mm as [|[p|p|]|p]; try lia; cbn [shr_1 shr_m].
  - (* 0 *)
    repeat split; try lia.
    intros H. destruct (Hloc _ _ H) as [?|Hrs]; [discriminate|].
    specialize (Hin' Hrs). lia.
  - (* 2p + 1 *)
    rewrite Pos2Z.inj_xI in *.
    replace ((2 * Z.pos p + 1) * P) with (2 * (Z.pos p * P) + P) in * by ring.
    replace ((2 * Z.pos p + 1 + 1) * P) with (2 * (Z.pos p * P) + 2 * P) in * by ring.
    replace (Z.pos p * (2 * P)) with (2 * (Z.pos p * P)) by ring.
    replace ((Z.pos p + 1) * (2 * P)) with (2 * (Z.pos p * P) + 2 * P) by ring.
    repeat split; lia.
  - (* 2p *)
    rewrite Pos2Z.inj_xO in *.
    replace (2 * Z.pos p * P) with (2 * (Z.pos p * P)) in * by ring.
    replace ((2 * Z.pos p + 1) * P) with (2 * (Z.pos p * P) + P) in * by ring.
    replace (Z.pos p * (2 * P)) with (2 * (Z.pos p * P)) by ring.
    replace ((Z.pos p + 1) * (2 * P)) with (2 * (Z.pos p * P) + 2 * P) by ring.
    repeat split; try lia.
    intros H. destruct (Hloc _ _ H) as [?|Hrs]; [discriminate|].
    specialize (Hin' Hrs). lia.
  - (* 1 *)
    repeat split; lia.
Qed.

Lemma shifted_iter m k : 0 <= m ->
  shifted m k (Nat.iter k shr_1 (Build_shr_record m false false)).
Proof.
  intros Hm. induction k as [|k IH].
  - unfold shifted; simpl. repeat split; try lia. congruence.
  - simpl. now apply shifted_step.
Qed.

Lemma shr_exact_spec m e n :
  0 <= m -> 0 <= n ->
  exists mrs, shr (Build_shr_record m false false) e n = (mrs, e + n) /\
              shifted m (Z.to_nat n) mrs.
Proof.
  intros Hm Hn. destruct n as [|p|p]; [| |lia].
  - eexists. split; [simpl; now rewrite Z.add_0_r|].
    apply (shifted_iter m 0 Hm).
  - eexists. split; [reflexivity|]. rewrite iter_pos_nat.
    change (Z.to_nat (Zpos p)) with (Pos.to_nat p). now apply shifted_iter.
Qed.

Lemma round_nearest_even_bounds mrs :
  let m' := round_nearest_even (shr_m mrs) (loc_of_shr_record mrs) in
  m' = shr_m mrs \/ (m' = shr_m mrs + 1 /\ loc_of_shr_record mrs <> loc_Exact).
Proof.
  destruct mrs as [mm [|] [|]]; cbn [shr_m loc_of_shr_record round_nearest_even].
  - right. split; [reflexivity | congruence].
  - destruct (Z.even mm); [now left | right; split; [reflexivity | congruence]].
  - now left.
  - now left.
Qed.

Section Scaled.

Variable K : Z.
Hypothesis K_large : 2200 <= K.

Local Abbreviation V := (scaled K).
Local Abbreviation unit_SF := (unit_SF K).

Lemma pow2_pos k : 0 <= k -> 0 < 2 ^ k.
Proof. intros. apply Z.pow_pos_nonneg; lia. Qed.

Lemma V_shift m e n : 0 <= n -> - K <= e -> V (m * 2 ^ n) e = V m (e + n).
Proof.
  intros Hn He. unfold scaled.
  replace (e + n + K) with (n + (e + K)) by lia.
  rewrite (Z.pow_add_r 2 n (e + K)) by lia. ring.
Qed.

Lemma V_mono m1 m2 e : - K <= e -> m1 <= m2 -> V m1 e <= V m2 e.
Proof.
  intros He H. unfold scaled. apply Z.mul_le_mono_nonneg_r; [|assumption].
  apply Z.lt_le_incl, pow2_pos. lia.
Qed.

Lemma canonical_facts m e :
  canonical m e ->
  -1074 <= e /\ Zpos m < 2 ^ 53 /\ (-1074 < e -> 2 ^ 52 <= Zpos m).
Proof.
  unfold canonical, fexp, emin, prec, emax.
  pose proof (digits2_bounds m) as [Hlo Hhi].
  set (d := Zpos (digits2_pos m)) in *. intros H.
  assert (Hd : d <= 53) by lia.
  split; [lia|]. split.
  - eapply Z.lt_le_trans; [exact Hhi|]. apply Z.pow_le_mono_r; lia.
  - intros He. assert (d = 53) by lia. subst d.
    replace (53 - 1) with 52 in Hlo by lia. rewrite H0 in Hlo. exact Hlo.
Qed.

Lemma V_lt_inv a b e : - K <= e -> V a e < V b e -> a < b.
Proof.
  intros He H. unfold scaled in H.
  apply Z.mul_lt_mono_pos_r in H; [assumption|]. apply pow2_pos. lia.
Qed.

Lemma V_le_exp m e1 e2 : 0 <= m -> - K <= e1 -> e1 <= e2 -> V m e1 <= V m e2.
Proof.
  intros Hm He H. unfold scaled. apply Z.mul_le_mono_nonneg_l; [assumption|].
  apply Z.pow_le_mono_r; lia.
Qed.

Lemma shr_le m e n :
  0 <= m -> - K <= e ->
  exists mrs e',
    shr (Build_shr_record m false false) e n = (mrs, e') /\
    e <= e' /\ 0 <= shr_m mrs /\ V (shr_m mrs) e' <= V m e.
Proof.
  intros Hm He. destruct n as [|p|p].
  - exists (Build_shr_record m false false), e. simpl. repeat split; lia.
  - destruct (shr_exact_spec m e (Zpos p) Hm) as (mrs & E & H0 & [Hlo _] & _); [lia|].
    exists mrs, (e + Zpos p). split; [exact E|]. split; [lia|]. split; [exact H0|].
    rewrite Z2Nat.id in Hlo by lia.
    rewrite <- V_shift by lia. now apply V_mono.
  - exists (Build_shr_record m false false), e. simpl. repeat split; lia.
Qed.

(** Rounding to nearest never passes a representable number: when the
    exact value [m * 2^e] is at most a canonical [mx * 2^ex], so is what
    [binary_round_aux] returns. *)
Lemma round_aux_le (m : positive) e (mx : positive) ex :
  - K <= e ->
  e <= fexp prec emax (Zpos (digits2_pos m) + e) ->
  canonical mx ex ->
  V (Zpos m) e <= V (Zpos mx) ex ->
  V (Zpos mx) ex <= V 1 (emax - prec) ->
  match binary_round_aux prec emax false (Zpos m) e loc_Exact with
  | S754_zero s => s = false
  | S754_finite s mr er =>
      s = false /\ e <= er /\ V (Zpos mr) er <= V (Zpos mx) ex
  | _ => False
  end.
Proof.
  intros He Hshift Hcan Hle Hmax.
  destruct (canonical_facts mx ex Hcan) as (Hex & Hmx & _).
  pose proof (digits2_bounds m) as [Hdlo Hdhi].
  unfold binary_round_aux, shr_fexp. cbn [Zdigits2 shr_record_of_loc].
  set (d := Zpos (digits2_pos m)) in *.
  set (e1 := fexp prec emax (d + e)) in *.
  destruct (shr_exact_spec (Zpos m) e (e1 - e)) as (mrs1 & E1 & H0 & [Hlo Hhi] & Hin);
    [lia | lia |].
  rewrite E1. replace (e + (e1 - e)) with e1 by lia.
  rewrite Z2Nat.id in Hlo, Hhi, Hin by lia.
  set (m1 := shr_m mrs1) in *.
  set (m2 := round_nearest_even m1 (loc_of_shr_record mrs1)).
  assert (Hm2 : 0 <= m2 /\ V m2 e1 <= V (Zpos mx) ex).
  { assert (Hm1 : V m1 e1 <= V (Zpos m) e).
    { replace e1 with (e + (e1 - e)) by lia.
      rewrite <- V_shift by lia. apply V_mono; lia. }
    destruct (round_nearest_even_bounds mrs1) as [Hr | [Hr Hloc]];
      fold m1 m2 in Hr; rewrite Hr.
    - split; lia.
    - split; [lia|]. specialize (Hin Hloc).
      assert (Hstrict : V m1 e1 < V (Zpos mx) ex).
      { eapply Z.lt_le_trans; [|exact Hle].
        replace e1 with (e + (e1 - e)) by lia.
        rewrite <- V_shift by lia. unfold scaled.
        apply Z.mul_lt_mono_pos_r; [apply pow2_pos; lia | exact Hin]. }
      destruct (Z_le_gt_dec e1 ex) as [Hcase | Hcase].
      + replace ex with (e1 + (ex - e1)) in Hstrict |- * by lia.
        rewrite <- V_shift in Hstrict |- * by lia.
        apply V_lt_inv in Hstrict; [|lia]. apply V_mono; lia.
      + exfalso.
        assert (He1 : e1 = d + e - 53) by (unfold e1, fexp, emin, prec, emax in *; lia).
        assert (Hm1' : 2 ^ 52 <= m1).
        { assert (Hpow : 2 ^ (d - 1) = 2 ^ 52 * 2 ^ (e1 - e)).
          { rewrite <- Z.pow_add_r by lia. f_equal. lia. }
          rewrite Hpow in Hdlo.
          assert (2 ^ 52 * 2 ^ (e1 - e) < (m1 + 1) * 2 ^ (e1 - e)) by lia.
          apply Z.mul_lt_mono_pos_r in H; [lia | apply pow2_pos; lia]. }
        assert (Hx : V (Zpos mx) ex < V (2 ^ 52) e1).
        { apply Z.lt_le_trans with (V (2 ^ 53) ex).
          - unfold scaled. apply Z.mul_lt_mono_pos_r; [apply pow2_pos; lia | exact Hmx].
          - change (2 ^ 53) with (2 ^ 52 * 2 ^ 1). rewrite V_shift by lia.
            apply V_le_exp; lia. }
        assert (V (2 ^ 52) e1 <= V m1 e1) by (apply V_mono; lia).
        lia. }
  destruct Hm2 as [Hm2 Hv2].
  destruct (shr_le m2 e1 (fexp prec emax (Zdigits2 m2 + e1) - e1) Hm2)
    as (mrs3 & e3 & E3 & He3 & Hm3 & Hv3); [lia|].
  rewrite E3.
  destruct (shr_m mrs3) as [|p|p] eqn:Em3; [reflexivity | | lia].
  assert (Hv : V (Zpos p) e3 <= V (Zpos mx) ex) by lia.
  destruct (e3 <=? emax - prec) eqn:Hov.
  - repeat split; [lia | exact Hv].
  - apply Z.leb_gt in Hov.
    assert (V 1 e3 <= V (Zpos p) e3) by (apply V_mono; lia).
    assert (V 1 (emax - prec) < V 1 e3).
    { unfold scaled. rewrite !Z.mul_1_l. unfold emax, prec in *.
      apply Z.pow_lt_mono_r; lia. }
    lia.
Qed.

Lemma V_pow a e : 0 <= a -> - K <= e -> V (2 ^ a) e = V 1 (e + a).
Proof. intros Ha He. rewrite <- (Z.mul_1_l (2 ^ a)). now apply V_shift. Qed.

Lemma V_lt_mono m1 m2 e : - K <= e -> m1 < m2 -> V m1 e < V m2 e.
Proof.
  intros He H. unfold scaled. apply Z.mul_lt_mono_pos_r; [apply pow2_pos; lia | exact H].
Qed.

(** On canonical positive numbers the order of the values is the order
    [SFcompare] computes. *)
Lemma SFleb_of_value m1 e1 m2 e2 :
  canonical m1 e1 -> canonical m2 e2 ->
  V (Zpos m1) e1 <= V (Zpos m2) e2 ->
  SFleb (S754_finite false m1 e1) (S754_finite false m2 e2) = true.
Proof.
  intros H1 H2 Hle.
  destruct (canonical_facts m1 e1 H1) as (He1 & Hm1 & Hn1).
  destruct (canonical_facts m2 e2 H2) as (He2 & Hm2 & Hn2).
  unfold SFleb, SFcompare.
  destruct (Z.compare_spec e1 e2) as [Heq | Hlt | Hgt]; [| reflexivity |].
  - subst e2. fold (Pos.compare m1 m2).
    destruct (Pos.compare_spec m1 m2) as [? | ? | Hgt]; try reflexivity.
    exfalso. apply (V_lt_mono (Zpos m2) (Zpos m1) e1) in Hgt; lia.
  - exfalso. specialize (Hn1 ltac:(lia)).
    assert (V (Zpos m2) e2 < V (2 ^ 53) e2) by (apply V_lt_mono; lia).
    assert (V (2 ^ 53) e2 <= V (2 ^ 52) e1).
    { change (2 ^ 53) with (2 ^ 52 * 2 ^ 1). rewrite V_shift by lia.
      apply V_le_exp; lia. }
    assert (V (2 ^ 52) e1 <= V (Zpos m1) e1) by (apply V_mono; lia).
    lia.
Qed.

Lemma digits_unique m d :
  2 ^ (d - 1) <= Zpos m < 2 ^ d -> Zpos (digits2_pos m) = d.
Proof.
  intros [Hlo Hhi]. pose proof (digits2_bounds m) as [Hlo' Hhi'].
  set (d' := Zpos (digits2_pos m)) in *.
  assert (Hd' : 0 < d') by (unfold d'; lia).
  assert (Hd : 0 < d).
  { destruct (Z_lt_le_dec 0 d) as [|Hneg]; [assumption|].
    exfalso. destruct d as [|p|p]; simpl in Hhi; lia. }
  destruct (Z.lt_trichotomy d d') as [H | [H | H]]; [| now symmetry |]; exfalso.
  - assert (2 ^ d <= 2 ^ (d' - 1)) by (apply Z.pow_le_mono_r; lia). lia.
  - assert (2 ^ d' <= 2 ^ (d - 1)) by (apply Z.pow_le_mono_r; lia). lia.
Qed.

Lemma iter_xO m d : Zpos (Pos.iter xO m d) = Zpos m * 2 ^ Zpos d.
Proof.
  induction d as [|d IH] using Pos.peano_ind.
  - simpl. lia.
  - rewrite Pos.iter_succ, Pos2Z.inj_xO, IH, Pos2Z.inj_succ, Z.pow_succ_r by lia.
    ring.
Qed.

Lemma shl_align_spec m e e' :
  exists m', shl_align m e e' = (m', Z.min e e') /\
             Zpos m' = Zpos m * 2 ^ (e - Z.min e e').
Proof.
  unfold shl_align. destruct (e' - e) as [|p|p] eqn:E.
  - exists m. replace (Z.min e e') with e by lia.
    rewrite Z.sub_diag. split; [reflexivity | simpl; lia].
  - exists m. replace (Z.min e e') with e by lia.
    rewrite Z.sub_diag. split; [reflexivity | simpl; lia].
  - exists (Pos.iter xO m p). replace (Z.min e e') with e' by lia.
    split; [reflexivity|]. rewrite iter_xO. f_equal. f_equal. lia.
Qed.

Lemma digits_shift m m' j :
  0 <= j -> Zpos m' = Zpos m * 2 ^ j ->
  Zpos (digits2_pos m') = Zpos (digits2_pos m) + j.
Proof.
  intros Hj Hm. apply digits_unique. rewrite Hm.
  pose proof (digits2_bounds m) as [Hlo Hhi].
  assert (Hp : 0 < 2 ^ j) by (apply pow2_pos; lia).
  replace (Zpos (digits2_pos m) + j - 1) with (Zpos (digits2_pos m) - 1 + j) by lia.
  rewrite !Z.pow_add_r by lia. split.
  - apply Z.mul_le_mono_nonneg_r; lia.
  - apply Z.mul_lt_mono_pos_r; lia.
Qed.

Open Scope float_scope.

Lemma valid_canonical x m e s :
  Prim2SF x = S754_finite s m e -> canonical m e.
Proof.
  intros E. pose proof (Prim2SF_valid x) as H. rewrite E in H.
  simpl in H. unfold bounded in H. apply andb_prop in H. destruct H as [H _].
  unfold canonical_mantissa in H. apply Z.eqb_eq in H. exact H.
Qed.

Lemma one_SF : Prim2SF 1 = S754_finite false 4503599627370496 (-52).
Proof. reflexivity. Qed.

Lemma one_canonical : canonical 4503599627370496 (-52).
Proof. reflexivity. Qed.

Lemma one_value : V (Zpos 4503599627370496) (-52) = V 1 0.
Proof.
  change (Zpos 4503599627370496) with (1 * 2 ^ 52)%Z.
  rewrite V_shift by lia. reflexivity.
Qed.

Lemma in_unit_SF x : in_unit x = true -> unit_SF (Prim2SF x).
Proof.
  unfold in_unit. rewrite !leb_spec, one_SF.
  change (Prim2SF 0) with (S754_zero false). intros H.
  apply andb_prop in H. destruct H as [H0 H1].
  destruct (Prim2SF x) as [s|s| |s m e] eqn:E; cbn [unit_SF]; trivial.
  - destruct s; discriminate.
  - discriminate.
  - destruct s; [discriminate|].
    pose proof (valid_canonical x m e false E) as Hcan.
    split; [reflexivity|]. split; [exact Hcan|].
    destruct (canonical_facts m e Hcan) as (He & Hm & _).
    unfold SFleb, SFcompare in H1.
    destruct (Z.compare_spec e (-52)) as [Heq | Hlt | Hgt]; [| | discriminate].
    + subst e. rewrite Pos.compare_cont_spec in H1. cbn [Pos.switch_Eq] in H1.
      assert (Hm' : (Zpos m <= Zpos 4503599627370496)%Z).
      { destruct (Pos.compare_spec m 4503599627370496) as [Hm' | Hm' | Hm'];
          [subst m; reflexivity | apply Pos2Z.pos_lt_pos in Hm'; apply Z.lt_le_incl, Hm' | discriminate]. }
      rewrite <- one_value. apply V_mono; [lia | exact Hm'].
    + apply Z.le_trans with (V (2 ^ 53) e); [apply V_mono; lia|].
      rewrite V_pow by lia. apply V_le_exp; lia.
Qed.

Lemma SF_in_unit x : unit_SF (Prim2SF x) -> in_unit x = true.
Proof.
  unfold in_unit. rewrite !leb_spec, one_SF.
  change (Prim2SF 0) with (S754_zero false).
  destruct (Prim2SF x) as [s|s| |s m e]; cbn [unit_SF]; try contradiction.
  - intros _. now destruct s.
  - intros (-> & Hcan & Hv). cbn [andb SFleb SFcompare].
    apply (SFleb_of_value m e _ _ Hcan one_canonical). now rewrite one_value.
Qed.

Lemma unit_exponent m e : (- K <= e)%Z -> (V (Zpos m) e <= V 1 0)%Z -> (e <= 0)%Z.
Proof.
  intros He H. destruct (Z_le_gt_dec e 0) as [|Hgt]; [assumption|]. exfalso.
  assert (V 1 0 < V 1 e)%Z.
  { unfold scaled. rewrite !Z.mul_1_l. apply Z.pow_lt_mono_r; lia. }
  assert (V 1 e <= V (Zpos m) e)%Z by (apply V_mono; lia).
  lia.
Qed.

Lemma V_mul a b e1 e2 :
  (- 1074 <= e1)%Z -> (- 1074 <= e2)%Z ->
  (V (a * b) (e1 + e2) * 2 ^ K = V a e1 * V b e2)%Z.
Proof.
  intros H1 H2. unfold scaled.
  transitivity (a * b * (2 ^ (e1 + e2 + K) * 2 ^ K))%Z; [ring|].
  rewrite <- Z.pow_add_r by lia.
  replace (e1 + e2 + K + K)%Z with ((e1 + K) + (e2 + K))%Z by lia.
  rewrite Z.pow_add_r by lia. ring.
Qed.


Lemma digits_mul_lower ma my :
  (2 ^ 52 <= Zpos my)%Z -> (53 <= Zpos (digits2_pos (ma * my)))%Z.
Proof.
  intros Hmy. pose proof (digits2_bounds (ma * my)) as [_ Hhi].
  rewrite Pos2Z.inj_mul in Hhi.
  destruct (Z_lt_le_dec (Zpos (digits2_pos (ma * my))) 53) as [Hlt|]; [|assumption].
  exfalso.
  assert (2 ^ Zpos (digits2_pos (ma * my)) <= 2 ^ 52)%Z
    by (apply Z.pow_le_mono_r; lia).
  assert (Zpos my <= Zpos ma * Zpos my)%Z by nia.
  lia.
Qed.

(** The product of two numbers of [0, 1] is in [0, 1] and is at most the
    first factor. *)
Lemma mul_unit_SF a y :
  in_unit a = true -> in_unit y = true ->
  unit_SF (Prim2SF (a * y)) /\ SFleb (Prim2SF (a * y)) (Prim2SF a) = true.
Proof.
  intros Ha Hy. pose proof (in_unit_SF a Ha) as Ua.
  pose proof (in_unit_SF y Hy) as Uy.
  pose proof (fun s m e => valid_canonical (a * y) m e s) as Hvalid.
  rewrite mul_spec in *. unfold SF64mul in *.
  destruct (Prim2SF a) as [sa|sa| |sa ma ea]; try contradiction;
    destruct (Prim2SF y) as [sy|sy| |sy my ey]; try contradiction.
  - cbn [SFmul unit_SF]. split; [trivial|]. reflexivity.
  - cbn [SFmul unit_SF]. split; [trivial|]. reflexivity.
  - destruct Ua as (-> & _). cbn [SFmul unit_SF]. split; [trivial|]. reflexivity.
  - destruct Ua as (-> & Hca & Hva). destruct Uy as (-> & Hcy & Hvy).
    destruct (canonical_facts ma ea Hca) as (Hea & Hma & _).
    destruct (canonical_facts my ey Hcy) as (Hey & Hmy & Hny).
    pose proof (unit_exponent ma ea ltac:(lia) Hva) as Hea0.
    pose proof (unit_exponent my ey ltac:(lia) Hvy) as Hey0.
    cbn [SFmul xorb] in *.
    assert (Hround := round_aux_le (ma * my) (ea + ey) ma ea).
    assert (Hpre :
      match binary_round_aux prec emax false (Zpos (ma * my)) (ea + ey) loc_Exact with
      | S754_zero s => s = false
      | S754_finite s mr er =>
          s = false /\ (ea + ey <= er)%Z /\ (V (Zpos mr) er <= V (Zpos ma) ea)%Z
      | _ => False
      end).
    { apply Hround; clear Hround Hvalid.
      - lia.
      - unfold fexp, emin, prec, emax.
        destruct (Z.eq_dec ey (-1074)) as [-> | Hne]; [lia|].
        pose proof (digits_mul_lower ma my (Hny ltac:(lia))). lia.
      - exact Hca.
      - assert (Hp : (0 < 2 ^ K)%Z) by (apply pow2_pos; lia).
        apply (Z.mul_le_mono_pos_r _ _ (2 ^ K)%Z Hp).
        rewrite Pos2Z.inj_mul, V_mul by lia.
        assert (H1 : (V 1 0 = 2 ^ K)%Z) by (unfold scaled; rewrite Z.mul_1_l; f_equal; lia).
        rewrite <- H1. apply Z.mul_le_mono_nonneg_l; [|exact Hvy].
        unfold scaled. apply Z.mul_nonneg_nonneg; [lia|].
        apply Z.lt_le_incl, pow2_pos. lia.
      - apply Z.le_trans with (V 1 0); [exact Hva|].
        apply V_le_exp; unfold emax, prec; lia. }
    clear Hround.
    destruct (binary_round_aux prec emax false (Zpos (ma * my)) (ea + ey) loc_Exact)
      as [s|s| |s mr er]; try contradiction.
    + subst s. split; [exact I | reflexivity].
    + destruct Hpre as (-> & Her & Hv).
      pose proof (Hvalid false mr er eq_refl) as Hcr.
      split.
      * cbn [unit_SF]. split; [reflexivity|]. split; [exact Hcr | lia].
      * now apply SFleb_of_value.
Qed.

(** [1 - b] for [b] in [0, 1] is in [0, 1]. *)
Lemma one_minus_unit_SF b :
  in_unit b = true -> unit_SF (Prim2SF (1 - b)).
Proof.
  intros Hb. pose proof (in_unit_SF b Hb) as Ub.
  pose proof (fun s m e => valid_canonical (1 - b) m e s) as Hvalid.
  rewrite sub_spec, one_SF in *. unfold SF64sub in *.
  destruct (Prim2SF b) as [sb|sb| |sb mb eb]; try contradiction.
  - cbn [SFsub unit_SF]. split; [reflexivity|]. split; [exact one_canonical|].
    rewrite one_value. lia.
  - destruct Ub as (-> & Hcb & Hvb).
    destruct (canonical_facts mb eb Hcb) as (Heb & Hmb & Hnb).
    assert (Heb52 : (eb <= -52)%Z).
    { destruct (Z_le_gt_dec eb (-52)) as [|Hgt]; [assumption|]. exfalso.
      specialize (Hnb ltac:(lia)).
      assert (V (2 ^ 52) eb <= V (Zpos mb) eb)%Z by (apply V_mono; lia).
      assert (V 1 0 < V (2 ^ 52) eb)%Z.
      { rewrite V_pow by lia. unfold scaled. rewrite !Z.mul_1_l.
        apply Z.pow_lt_mono_r; lia. }
      lia. }
    cbn [SFsub cond_Zopp] in *.
    replace (Z.min (-52) eb) with eb in * by lia.
    destruct (shl_align_spec 4503599627370496 (-52) eb) as (m1 & E1 & Hm1).
    destruct (shl_align_spec mb eb eb) as (m2 & E2 & Hm2).
    replace (Z.min (-52) eb) with eb in * by lia.
    replace (Z.min eb eb) with eb in * by lia.
    rewrite E1, E2 in *. cbn [fst] in *.
    rewrite Z.sub_diag in Hm2. change (2 ^ 0)%Z with 1%Z in Hm2.
    rewrite Z.mul_1_r in Hm2. rewrite Hm1, Hm2 in *.
    change (Zpos 4503599627370496) with (2 ^ 52)%Z in *.
    rewrite <- Z.pow_add_r in * by lia.
    replace (52 + (-52 - eb))%Z with (- eb)%Z in * by lia.
    assert (Hle : (Zpos mb <= 2 ^ (- eb))%Z).
    { assert (H1 : V (2 ^ (- eb)) eb = V 1 0).
      { rewrite V_pow by lia. f_equal. lia. }
      rewrite <- H1 in Hvb.
      destruct (Z_le_gt_dec (Zpos mb) (2 ^ (- eb))) as [|Hgt]; [assumption|].
      exfalso. apply Z.gt_lt in Hgt. apply (V_lt_mono _ _ eb) in Hgt; lia. }
    destruct (2 ^ (- eb) - Zpos mb)%Z as [|pd|pd] eqn:ED; [exact I | | lia].
    cbn [binary_normalize] in *. unfold binary_round in *.
    destruct (shl_align_spec pd eb
                (fexp prec emax (Zpos (digits2_pos pd) + eb))) as (mz & Ez & Hmz).
    rewrite Ez in *.
    set (f := fexp prec emax (Zpos (digits2_pos pd) + eb)) in *.
    assert (Hf : (-1074 <= f)%Z) by (unfold f, fexp, emin, prec, emax; lia).
    assert (Hround := round_aux_le mz (Z.min eb f) 4503599627370496 (-52)).
    assert (Hpre :
      match binary_round_aux prec emax false (Zpos mz) (Z.min eb f) loc_Exact with
      | S754_zero s => s = false
      | S754_finite s mr er =>
          s = false /\ (Z.min eb f <= er)%Z /\
          (V (Zpos mr) er <= V (Zpos 4503599627370496) (-52))%Z
      | _ => False
      end).
    { apply Hround; clear Hround Hvalid.
      - lia.
      - rewrite (digits_shift pd mz (eb - Z.min eb f)) by (lia || exact Hmz).
        replace (Zpos (digits2_pos pd) + (eb - Z.min eb f) + Z.min eb f)%Z
          with (Zpos (digits2_pos pd) + eb)%Z by lia.
        fold f. lia.
      - exact one_canonical.
      - rewrite Hmz, V_shift by lia.
        replace (Z.min eb f + (eb - Z.min eb f))%Z with eb by lia.
        rewrite one_value.
        assert (H1 : V (2 ^ (- eb)) eb = V 1 0).
        { rewrite V_pow by lia. f_equal. lia. }
        rewrite <- H1. apply V_mono; lia.
      - rewrite one_value. apply V_le_exp; unfold emax, prec; lia. }
    clear Hround.
    destruct (binary_round_aux prec emax false (Zpos mz) (Z.min eb f) loc_Exact)
      as [s|s| |s mr er]; try contradiction.
    + exact I.
    + destruct Hpre as (-> & Her & Hv).
      pose proof (Hvalid false mr er eq_refl) as Hcr.
      cbn [unit_SF]. split; [reflexivity|]. split; [exact Hcr|].
      rewrite <- one_value. exact Hv.
Qed.

End Scaled.

(** The two facts the schedules need, on floats. *)
Lemma one_minus_unit b : in_unit b = true -> in_unit (1 - b)%float = true.
Proof.
  intros Hb. apply (SF_in_unit 2200 (Z.le_refl _)).
  now apply one_minus_unit_SF.
Qed.

Lemma mul_unit a y :
  in_unit a = true -> in_unit y = true ->
  in_unit (a * y)%float = true /\ (a * y <=? a)%float = true.
Proof.
  intros Ha Hy.
  destruct (mul_unit_SF 2200 (Z.le_refl _) a y Ha Hy) as [H1 H2]. split.
  - now apply (SF_in_unit 2200 (Z.le_refl _)).
  - now rewrite leb_spec.
Qed.

End Rounding.

(** A running product of factors in [0, 1] stays in [0, 1] and never
    increases. *)
Lemma cumprod_unit (a : list float) :
  Forall (fun x => in_unit x = true) a ->
  (forall t, (t < length a)%nat -> in_unit (nth t (Np.cumprod a) 0%float) = true) /\
  (forall t, (S t < length a)%nat ->
     (nth (S t) (Np.cumprod a) 0 <=? nth t (Np.cumprod a) 0)%float = true).
Proof.
  intros Hall.
  assert (Hnth : forall t, (t < length a)%nat -> in_unit (nth t a 0%float) = true).
  { intros t Ht. rewrite Forall_forall in Hall. apply Hall. now apply nth_In. }
  assert (Hunit : forall t, (t < length a)%nat ->
                    in_unit (nth t (Np.cumprod a) 0%float) = true).
  { induction t as [|t IH]; intros Ht.
    - rewrite NpFacts.cumprod_nth_0 by lia. now apply Hnth.
    - rewrite NpFacts.cumprod_nth_S by assumption.
      apply Rounding.mul_unit; [apply IH; lia | now apply Hnth]. }
  split; [exact Hunit|].
  intros t Ht. rewrite NpFacts.cumprod_nth_S by assumption.
  apply Rounding.mul_unit; [apply Hunit; lia | now apply Hnth].
Qed.

(** * The schedule generators *)

Section ScheduleLengths.

Open Scope float_scope.

Variable pf : platform.

(** The lengths of the sequences are the ones [np.arange] computes. *)
Lemma compute_beta_alpha_lengths nsteps b0 b1 g0 g1 :
  schedule_lengths (compute_beta_alpha nsteps b0 b1 g0 g1) =
  match (s <- F64.py_div_int (b1 - b0) nsteps ;; Np.arange_length b0 b1 s),
        (s <- F64.py_div_int (g1 - g0) nsteps ;; Np.arange_length g0 g1 s)
  with
  | Ok lb, Ok lg => Some (Z.to_nat lb, Z.to_nat lb, Z.to_nat lg)
  | _, _ => None
  end.
Proof.
  unfold compute_beta_alpha, Np.arange, Py.bind.
  destruct (F64.py_div_int (b1 - b0) nsteps) as [bs|]; [|reflexivity].
  destruct (Np.arange_length b0 b1 bs) as [lb|]; [|reflexivity].
  destruct (F64.py_div_int (g1 - g0) nsteps) as [gs|]; [|reflexivity].
  destruct (Np.arange_length g0 g1 gs) as [lg|]; [|reflexivity].
  simpl. rewrite NpFacts.cumprod_length, length_map.
  now rewrite !NpFacts.arange_values_length.
Qed.

Lemma compute_beta_alpha2_lengths nsteps b0 b1 g0 g1 :
  schedule_lengths (compute_beta_alpha2 pf nsteps b0 b1 g0 g1) =
  match (s <- F64.py_div_int 1 nsteps ;; Np.arange_length 0 1 s),
        (s <- F64.py_div_int (g1 - g0) nsteps ;; Np.arange_length g0 g1 s)
  with
  | Ok lb, Ok lg => Some (Z.to_nat lb, Z.to_nat lb, Z.to_nat lg)
  | _, _ => None
  end.
Proof.
  unfold compute_beta_alpha2, Np.arange, Py.bind.
  destruct (F64.py_div_int 1 nsteps) as [us|]; [|reflexivity].
  destruct (Np.arange_length 0 1 us) as [lb|]; [|reflexivity].
  destruct (F64.py_div_int (g1 - g0) nsteps) as [gs|]; [|reflexivity].
  destruct (Np.arange_length g0 g1 gs) as [lg|]; [|reflexivity].
  simpl. rewrite NpFacts.cumprod_length, !length_map.
  now rewrite !NpFacts.arange_values_length.
Qed.

End ScheduleLengths.

(** C1.  The sequences do not always have [n_steps] elements: the length is
    [ceil((stop - start) / step)] in binary64, and the quotient can round
    above [n_steps].  With the parser's default endpoints the linear
    schedule for 99 steps returns 100 betas and alphas but 99 gammas, and
    the sine schedule for 49 steps returns 50 betas and alphas but 49 gammas,
    whatever the endpoints of beta and the platform's sine. *)
Theorem schedule_lengths_overshoot :
  schedule_lengths
    (compute_beta_alpha 99 0.0001 0.2 gamma_start_default gamma_end_default)
  = Some (100, 100, 99)%nat /\
  forall pf b0 b1,
    schedule_lengths
      (compute_beta_alpha2 pf 49 b0 b1 gamma_start_default gamma_end_default)
    = Some (50, 50, 49)%nat.
Proof.
  split.
  - rewrite compute_beta_alpha_lengths. vm_compute. reflexivity.
  - intros pf b0 b1. rewrite compute_beta_alpha2_lengths. vm_compute. reflexivity.
Qed.

(** C5.  The linear schedule for 27 steps from 0.0001 to 0.02 returns 28
    betas, and the last one is [beta_end] itself: the sequence does not stop
    strictly before [beta_end]. *)
Theorem linear_schedule_reaches_beta_end :
  exists beta alpha sigma,
    compute_beta_alpha 27 0.0001 0.02 gamma_start_default gamma_end_default
    = Ok (beta, alpha, sigma) /\
    length beta = 28%nat /\
    nth 0 beta 0%float = 0.0001%float /\
    nth 27 beta 0%float = 0.02%float.
Proof.
  set (r := compute_beta_alpha _ _ _ _ _). vm_compute in r. subst r.
  do 3 eexists. split; [reflexivity|]. repeat split.
Qed.

(** C6.  The sine schedule for 49 steps returns 50 betas, whatever the
    endpoints and the platform's sine: the samples are not [t = 0..48] only.
    The first beta is [sin(0) * (beta_end - beta_start) + beta_start]; the
    extra one, [beta[49]], is sampled at position 0.9999999999999999, at the
    angle one unit in the last place below the binary64 [pi/2].  Where the
    sine of that angle is 1, as a correctly rounded sine gives, the last beta
    for the endpoints 0.0001 and 0.2 is [beta_end] itself: sampling does not
    stop strictly before the endpoint. *)
Theorem sine_schedule_samples_endpoint pf b0 b1 :
  exists beta alpha sigma,
    compute_beta_alpha2 pf 49 b0 b1 gamma_start_default gamma_end_default
    = Ok (beta, alpha, sigma) /\
    length beta = 50%nat /\
    nth 0 beta 0%float = (np_sin pf 0 * (b1 - b0) + b0)%float /\
    nth 49 beta 0%float
    = (np_sin pf 0x1.921fb54442d17p+0 * (b1 - b0) + b0)%float /\
    (np_sin pf 0x1.921fb54442d17p+0 = 1%float ->
     b0 = 0.0001%float -> b1 = 0.2%float -> nth 49 beta 0%float = b1).
Proof.
  unfold compute_beta_alpha2.
  set (s := F64.py_div_int 1 49). vm_compute in s. subst s. cbn [Py.bind].
  set (u := Np.arange 0 1 _). vm_compute in u. subst u. cbn [Py.bind].
  set (s := F64.py_div_int _ 49). vm_compute in s. subst s. cbn [Py.bind].
  set (g := Np.arange _ _ _). vm_compute in g. subst g. cbn [Py.bind].
  do 3 eexists. split; [reflexivity|].
  split; [reflexivity|].
  split; [reflexivity|].
  split; [reflexivity|].
  intros Hs -> ->. cbn [map nth].
  change (F64.pi / 2 * 0x1.fffffffffffffp-1)%float
    with 0x1.921fb54442d17p+0%float.
  rewrite Hs. reflexivity.
Qed.

(** C7 (as stated, refuted).  With [n_steps = 0] neither generator returns
    three empty sequences. *)
Lemma zero_steps_not_empty :
  ~ (compute_beta_alpha 0 0.0001 0.2 gamma_start_default gamma_end_default
     = Ok ([], [], []) \/
     exists pf,
       compute_beta_alpha2 pf 0 0.0001 0.2 gamma_start_default gamma_end_default
       = Ok ([], [], [])).
Proof.
  intros [H | [pf H]]; vm_compute in H; discriminate H.
Qed.

(** C7 (amended).  With [n_steps = 0] both generators raise
    [ZeroDivisionError], from the division that computes the step. *)
Theorem zero_steps_raise pf b0 b1 g0 g1 :
  compute_beta_alpha 0 b0 b1 g0 g1 = Raise ZeroDivisionError /\
  compute_beta_alpha2 pf 0 b0 b1 g0 g1 = Raise ZeroDivisionError.
Proof.
  split; reflexivity.
Qed.

(** C2 (as stated, refuted).  Endpoints [0 < 2^-60 < 2^-59 < 1] and two
    steps: both [1 - beta[k]] round to 1, so [alpha] is [[1; 1]]: neither
    [alpha[0] < 1] nor a strict decrease. *)
Lemma alpha_not_strictly_decreasing :
  (0 <? 0x1p-60)%float = true /\
  (0x1p-60 <? 0x1p-59)%float = true /\
  (0x1p-59 <? 1)%float = true /\
  compute_beta_alpha 2 0x1p-60 0x1p-59 gamma_start_default gamma_end_default
  = Ok ([0x1p-60; 0x1.8p-60]%float, [1; 1]%float, [0; 0.05]%float).
Proof.
  repeat split; vm_compute; reflexivity.
Qed.

(** C2 (amended).  In both generators [alpha] has the length of [beta] and
    [alpha[t]] is the product of [1 - beta[k]] for [k = 0..t], multiplied
    left to right in binary64, at every index [t] of the returned sequence;
    and when every returned [beta[k]] lies in [[0, 1]], every [alpha[t]]
    lies in [[0, 1]] (so [alpha[0] <= 1]) and [alpha[t+1] <= alpha[t]]:
    [alpha] never increases. *)
Theorem alpha_running_product pf nsteps b0 b1 g0 g1 beta alpha sigma :
  compute_beta_alpha nsteps b0 b1 g0 g1 = Ok (beta, alpha, sigma) \/
  compute_beta_alpha2 pf nsteps b0 b1 g0 g1 = Ok (beta, alpha, sigma) ->
  length alpha = length beta /\
  (forall t, (t < length beta)%nat ->
     nth t alpha 0%float = retained_product beta t) /\
  (Forall (fun b => in_unit b = true) beta ->
   (forall t, (t < length beta)%nat -> in_unit (nth t alpha 0%float) = true) /\
   (forall t, (S t < length beta)%nat ->
      (nth (S t) alpha 0 <=? nth t alpha 0)%float = true)).
Proof.
  intros H. rewrite (alpha_is_cumprod pf _ _ _ _ _ _ _ _ H).
  split; [|split].
  - now rewrite NpFacts.cumprod_length, length_map.
  - intros t Ht. now apply retained_product_cumprod.
  - intros Hbeta.
    destruct (cumprod_unit (map (fun b => (1 - b)%float) beta)) as [Hunit Hmono].
    + apply Forall_map. revert Hbeta. apply Forall_impl.
      intros b. apply Rounding.one_minus_unit.
    + rewrite length_map in Hunit, Hmono. split; assumption.
Qed.

Lemma alpha_running_product_witness :
  exists beta alpha sigma,
    compute_beta_alpha 3 0.1 0.4 gamma_start_default gamma_end_default
    = Ok (beta, alpha, sigma) /\
    length alpha = length beta /\
    nth 2 alpha 0%float = retained_product beta 2 /\
    in_unit (nth 0 alpha 0%float) = true /\
    (nth 2 alpha 0 <=? nth 1 alpha 0)%float = true.
Proof.
  set (r := compute_beta_alpha 3 0.1 0.4 gamma_start_default gamma_end_default).
  assert (E : r = r) by reflexivity. unfold r at 2 in E. vm_compute in E.
  match type of E with
  | _ = Ok (?b, ?a, ?s) =>
      exists b, a, s; split; [exact E|];
      destruct (alpha_running_product taylor_platform 3 0.1 0.4
                  gamma_start_default gamma_end_default b a s (or_introl E))
        as (Hlen & Hprod & Hmono);
      destruct Hmono as [Hunit Hdec];
        [repeat constructor |];
      split; [exact Hlen|]; split; [apply Hprod; simpl; lia|];
      split; [apply Hunit; simpl; lia | apply Hdec; simpl; lia]
  end.
Defined.

(** * The position encoder *)

Module Np2Facts.

Lemma arange_int_length n : length (Np2.arange_int n) = Z.to_nat n.
Proof. unfold Np2.arange_int. now rewrite length_map, length_seq. Qed.

Lemma arange_int_nth n k d :
  (k < Z.to_nat n)%nat -> nth k (Np2.arange_int n) d = Z.of_nat k.
Proof.
  intros Hk. unfold Np2.arange_int.
  rewrite (nth_indep _ d (Z.of_nat 0)) by (now rewrite length_map, length_seq).
  rewrite (map_nth Z.of_nat), seq_nth by assumption. reflexivity.
Qed.

Lemma combine_map_same {A B C : Type} (f : A -> B) (g : A -> C) l :
  combine (map f l) (map g l) = map (fun x => (f x, g x)) l.
Proof. induction l as [|x l IH]; simpl; [reflexivity | now rewrite IH]. Qed.

(** An elementwise operation on the two grids of [np.meshgrid]. *)
Lemma map2_meshgrid {A B C : Type} (f : A -> B -> C) x y :
  Np2.map2 f (fst (Np2.meshgrid x y)) (snd (Np2.meshgrid x y)) =
  map (fun b => map (fun a => f a b) x) y.
Proof.
  unfold Np2.map2, Np2.meshgrid; simpl.
  rewrite combine_map_same, map_map. apply map_ext. intros b; simpl.
  rewrite <- (map_id x) at 1. rewrite combine_map_same, map_map.
  reflexivity.
Qed.

(** Transposing a grid whose rows are images of one list [x]. *)
Lemma transpose_grid {A B : Type} (g : B -> A -> float) (x : list A) (y : list B)
    (a0 : A) :
  Np2.transpose (length x) (map (fun b => map (g b) x) y) 0%float =
  map (fun j => map (fun b => g b (nth j x a0)) y) (seq 0 (length x)).
Proof.
  unfold Np2.transpose. apply map_ext_in. intros j Hj.
  apply in_seq in Hj. rewrite map_map. apply map_ext. intros b.
  rewrite (nth_indep _ 0%float (g b a0)) by (rewrite length_map; lia).
  apply (map_nth (g b)).
Qed.

Lemma assign_stride2_length {A : Type} skip (dst src : list A) :
  length (Np2.assign_stride2 skip dst src) = length dst.
Proof.
  revert skip src; induction dst as [|d dst IH]; intros skip src; simpl.
  - reflexivity.
  - destruct skip; simpl; [now rewrite IH|].
    destruct src; simpl; [reflexivity | now rewrite IH].
Qed.

(** [dst[::2] = src]: even slots come from [src], odd slots stay. *)
Lemma assign_even_nth {A : Type} (src : list A) :
  forall dst i d,
    (i < length src)%nat -> (2 * i < length dst)%nat ->
    nth (2 * i) (Np2.assign_stride2 false dst src) d = nth i src d.
Proof.
  induction src as [|s src IH]; intros dst i d Hi Hd; simpl in Hi; [lia|].
  destruct dst as [|d0 dst]; simpl in Hd; [lia|].
  destruct i as [|i]; [reflexivity|].
  replace (2 * S i)%nat with (S (S (2 * i))) by lia.
  destruct dst as [|d1 dst]; simpl in Hd; [lia|].
  cbn [Np2.assign_stride2 nth]. apply IH; lia.
Qed.

Lemma assign_even_nth_odd {A : Type} (src : list A) :
  forall dst i d,
    nth (2 * i + 1) (Np2.assign_stride2 false dst src) d = nth (2 * i + 1) dst d.
Proof.
  induction src as [|s src IH]; intros dst i d.
  - destruct dst; reflexivity.
  - destruct dst as [|d0 dst]; [reflexivity|].
    destruct dst as [|d1 dst].
    + replace (2 * i + 1)%nat with (S (2 * i)) by lia. simpl.
      now destruct (2 * i)%nat.
    + destruct i as [|i]; [reflexivity|].
      replace (2 * S i + 1)%nat with (S (S (2 * i + 1))) by lia.
      cbn [Np2.assign_stride2 nth]. apply IH.
Qed.

(** [dst[1::2] = src]: odd slots come from [src], even slots stay. *)
Lemma assign_odd_nth {A : Type} (src dst : list A) i d :
  (i < length src)%nat -> (2 * i + 1 < length dst)%nat ->
  nth (2 * i + 1) (Np2.assign_stride2 true dst src) d = nth i src d.
Proof.
  intros Hi Hd. destruct dst as [|d0 dst]; simpl in Hd; [lia|].
  replace (2 * i + 1)%nat with (S (2 * i)) by lia.
  cbn [Np2.assign_stride2 nth]. apply assign_even_nth; lia.
Qed.

Lemma assign_odd_nth_even {A : Type} (src dst : list A) i d :
  nth (2 * i) (Np2.assign_stride2 true dst src) d = nth (2 * i) dst d.
Proof.
  destruct dst as [|d0 dst]; [reflexivity|].
  destruct i as [|i]; [reflexivity|].
  replace (2 * S i)%nat with (S (2 * i + 1)) by lia.
  cbn [Np2.assign_stride2 nth]. apply assign_even_nth_odd.
Qed.

(** Row-major addressing of a concatenation of rows of one width. *)
Lemma nth_concat_uniform {A : Type} (rows : list (list A)) (w : nat) :
  Forall (fun row => length row = w) rows ->
  forall r c d, (c < w)%nat ->
    nth (r * w + c) (concat rows) d = nth c (nth r rows []) d.
Proof.
  induction 1 as [|row rows Hrow _ IH]; intros r c d Hc.
  - simpl. now destruct (r * w + c)%nat, r, c.
  - destruct r as [|r]; simpl.
    + apply app_nth1. lia.
    + rewrite app_nth2 by lia.
      replace (w + r * w + c - length row)%nat with (r * w + c)%nat by lia.
      now apply IH.
Qed.

Lemma length_concat_uniform {A : Type} (rows : list (list A)) (w : nat) :
  Forall (fun row => length row = w) rows ->
  length (concat rows) = (length rows * w)%nat.
Proof.
  induction 1 as [|row rows Hrow _ IH]; simpl; [reflexivity|].
  rewrite length_app, IH. lia.
Qed.

End Np2Facts.

Section EncoderFacts.

Open Scope float_scope.

Variable pf : platform.

Lemma stored_dims_code md :
  (if (md mod 2 =? 1)%Z then (md + 1)%Z else md) = stored_dims md.
Proof.
  unfold stored_dims. rewrite Zmod_even. now destruct (Z.even md).
Qed.

Lemma stored_dims_even md : Z.even (stored_dims md) = true.
Proof.
  unfold stored_dims. destruct (Z.even md) eqn:E; [assumption|].
  rewrite Z.even_add, E. reflexivity.
Qed.

Lemma stored_dims_positive md : (0 < md -> 0 < stored_dims md)%Z.
Proof. unfold stored_dims. destruct (Z.even md); lia. Qed.

Lemma assign_cols_map {A : Type} odd (F G : nat -> list A) l :
  Np2.assign_cols odd (map F l) (map G l) =
  map (fun r => Np2.assign_stride2 odd (F r) (G r)) l.
Proof.
  unfold Np2.assign_cols. rewrite Np2Facts.combine_map_same, map_map.
  reflexivity.
Qed.

Lemma transposed_rows (f : float -> float) D ms (y : list Z) :
  Np2.transpose (Z.to_nat ms)
    (map (map f)
         (map (fun b => map (fun a => angle pf D a b) (Np2.arange_int ms)) y)) 0 =
  map (fun r => map (fun b => f (angle pf D (Z.of_nat r) b)) y)
      (seq 0 (Z.to_nat ms)).
Proof.
  rewrite map_map.
  rewrite (map_ext _ (fun b => map (fun a => f (angle pf D a b)) (Np2.arange_int ms)))
    by (intros b; apply map_map).
  rewrite <- (Np2Facts.arange_int_length ms).
  rewrite (Np2Facts.transpose_grid (fun b a => f (angle pf D a b)) _ y 0%Z).
  apply map_ext_in. intros j Hj. apply in_seq in Hj.
  rewrite Np2Facts.arange_int_length in Hj.
  rewrite Np2Facts.arange_int_nth by lia. reflexivity.
Qed.

Lemma PositionEncoder_init_rows ms md dt :
  PositionEncoder_init pf ms md dt =
  if ((ms <? 0) || (stored_dims md <? 0))%Z then Raise ValueError
  else
    Ok {| positional_embedding :=
            Tensor.mk [Z.to_nat ms; Z.to_nat (stored_dims md)]
              (concat (map (fun r => map (Tf.astype dt)
                                         (encoding_row pf (stored_dims md) r))
                           (seq 0 (Z.to_nat ms))));
          max_steps := ms;
          max_dims := stored_dims md;
          dtype := dt |}.
Proof.
  unfold PositionEncoder_init. rewrite stored_dims_code.
  set (D := stored_dims md).
  destruct (Np2.meshgrid (Np2.arange_int ms) (Np2.arange_int (D / 2)))
    as [p i] eqn:E.
  assert (Ep : p = fst (Np2.meshgrid (Np2.arange_int ms) (Np2.arange_int (D / 2))))
    by now rewrite E.
  assert (Ei : i = snd (Np2.meshgrid (Np2.arange_int ms) (Np2.arange_int (D / 2))))
    by now rewrite E.
  rewrite Ep, Ei. clear E Ep Ei p i.
  destruct ((ms <? 0) || (D <? 0))%Z; [reflexivity|].
  rewrite Np2Facts.map2_meshgrid, !transposed_rows.
  unfold Np2.empty. rewrite !assign_cols_map.
  unfold Tf.constant2. rewrite map_map. reflexivity.
Qed.

Lemma PositionEncoder_init_inv ms md dt enc :
  PositionEncoder_init pf ms md dt = Ok enc ->
  embedding enc =
    Tensor.mk [Z.to_nat ms; Z.to_nat (stored_dims md)]
      (concat (map (fun r => map (Tf.astype dt)
                                 (encoding_row pf (stored_dims md) r))
                   (seq 0 (Z.to_nat ms)))) /\
  max_steps enc = ms /\ max_dims enc = stored_dims md /\ dtype enc = dt /\
  (0 <= ms)%Z.
Proof.
  intros H. rewrite PositionEncoder_init_rows in H.
  destruct (ms <? 0)%Z eqn:Hms; [discriminate|].
  destruct (stored_dims md <? 0)%Z; [discriminate|].
  injection H as <-. repeat split. now apply Z.ltb_ge.
Qed.

Lemma PositionEncoder_init_ok ms md dt :
  (0 < ms)%Z -> (0 < md)%Z ->
  exists enc, PositionEncoder_init pf ms md dt = Ok enc.
Proof.
  intros Hms Hmd. rewrite PositionEncoder_init_rows.
  assert (HD : (0 <= stored_dims md)%Z)
    by (unfold stored_dims; destruct (Z.even md); lia).
  replace ((ms <? 0) || (stored_dims md <? 0))%Z with false
    by (symmetry; apply orb_false_intro; apply Z.ltb_ge; lia).
  eexists. reflexivity.
Qed.

Lemma encoding_row_length D r :
  length (encoding_row pf D r) = Z.to_nat D.
Proof.
  unfold encoding_row.
  now rewrite !Np2Facts.assign_stride2_length, length_map, length_seq.
Qed.

Lemma pair_index_bound D i :
  Z.even D = true -> (0 <= i < D / 2)%Z ->
  (Z.to_nat i < Z.to_nat (D / 2))%nat /\
  (2 * Z.to_nat i + 1 < Z.to_nat D)%nat.
Proof.
  intros HD Hi. apply Z.even_spec in HD. destruct HD as [k ->].
  rewrite Z.mul_comm, Z.div_mul in * by lia. split; lia.
Qed.

Lemma encoding_row_sin D r i :
  Z.even D = true -> (0 <= i < D / 2)%Z ->
  nth (Z.to_nat (2 * i)) (encoding_row pf D r) 0 =
  np_sin pf (angle pf D (Z.of_nat r) i).
Proof.
  intros HD Hi. destruct (pair_index_bound D i HD Hi) as [H1 H2].
  replace (Z.to_nat (2 * i)) with (2 * Z.to_nat i)%nat by lia.
  unfold encoding_row. rewrite Np2Facts.assign_odd_nth_even.
  rewrite Np2Facts.assign_even_nth
    by (rewrite ?length_map, ?length_seq, ?Np2Facts.arange_int_length; lia).
  rewrite (nth_indep _ 0 (np_sin pf (angle pf D (Z.of_nat r) 0%Z)))
    by (rewrite length_map, Np2Facts.arange_int_length; lia).
  rewrite (map_nth (fun j => np_sin pf (angle pf D (Z.of_nat r) j))).
  rewrite Np2Facts.arange_int_nth by lia. now rewrite Z2Nat.id by lia.
Qed.

Lemma encoding_row_cos D r i :
  Z.even D = true -> (0 <= i < D / 2)%Z ->
  nth (Z.to_nat (2 * i + 1)) (encoding_row pf D r) 0 =
  np_cos pf (angle pf D (Z.of_nat r) i).
Proof.
  intros HD Hi. destruct (pair_index_bound D i HD Hi) as [H1 H2].
  replace (Z.to_nat (2 * i + 1)) with (2 * Z.to_nat i + 1)%nat by lia.
  unfold encoding_row. rewrite Np2Facts.assign_odd_nth
    by (rewrite ?Np2Facts.assign_stride2_length, ?length_map, ?length_seq,
          ?Np2Facts.arange_int_length; lia).
  rewrite (nth_indep _ 0 (np_cos pf (angle pf D (Z.of_nat r) 0%Z)))
    by (rewrite length_map, Np2Facts.arange_int_length; lia).
  rewrite (map_nth (fun j => np_cos pf (angle pf D (Z.of_nat r) j))).
  rewrite Np2Facts.arange_int_nth by lia. now rewrite Z2Nat.id by lia.
Qed.

(** Element [(t, c)] of the stored table is the cast of element [c] of
    row [t] of [pos_emb]. *)
Lemma table_get2 ms D dt t c :
  (t < ms)%nat -> (c < Z.to_nat D)%nat ->
  Tensor.get2
    (Tensor.mk [ms; Z.to_nat D]
       (concat (map (fun r => map (Tf.astype dt) (encoding_row pf D r))
                    (seq 0 ms)))) t c 0 =
  Tf.astype dt (nth c (encoding_row pf D t) 0).
Proof.
  intros Ht Hc. unfold Tensor.get2. cbn [Tensor.shape Tensor.data nth].
  rewrite (Np2Facts.nth_concat_uniform _ (Z.to_nat D)); [|
    apply Forall_forall; intros row Hrow; apply in_map_iff in Hrow;
    destruct Hrow as (r & <- & _);
    now rewrite length_map, encoding_row_length | assumption].
  rewrite (nth_indep _ [] ((fun r => map (Tf.astype dt) (encoding_row pf D r)) 0%nat))
    by (now rewrite length_map, length_seq).
  rewrite (map_nth (fun r => map (Tf.astype dt) (encoding_row pf D r))).
  rewrite seq_nth by assumption. simpl.
  rewrite <- (F64Facts.astype_zero dt) at 1. apply map_nth.
Qed.

End EncoderFacts.

Module TfFacts.

Open Scope float_scope.

Lemma collect_all_ok {A B : Type} (g : A -> result B) (h : A -> B) l :
  (forall x, In x l -> g x = Ok (h x)) ->
  Tf.collect (map g l) = Ok (map h l).
Proof.
  induction l as [|x l IH]; intros H; simpl; [reflexivity|].
  rewrite (H x) by now left. simpl.
  rewrite IH by (intros y Hy; apply H; now right). reflexivity.
Qed.

Lemma collect_raise {A B : Type} (g : A -> result B) e l :
  (forall x, In x l -> g x = Raise e \/ exists b, g x = Ok b) ->
  Exists (fun x => g x = Raise e) l ->
  Tf.collect (map g l) = Raise e.
Proof.
  induction l as [|x l IH]; intros H Hex; [inversion Hex|].
  simpl. destruct (H x (or_introl eq_refl)) as [Hx | [b Hx]]; rewrite Hx; simpl.
  - reflexivity.
  - inversion Hex as [? ? Hhd | ? ? Htl]; subst; [congruence|].
    rewrite IH; [reflexivity | intros y Hy; apply H; now right | assumption].
Qed.

Lemma collect_map_result {A B C : Type} (g : A -> result B) (h : B -> C) l :
  Tf.collect (map (fun x => y <- g x ;; Ok (h y)) l) =
  (ys <- Tf.collect (map g l) ;; Ok (map h ys)).
Proof.
  induction l as [|x l IH]; simpl; [reflexivity|].
  destruct (g x) as [b|e]; simpl; [|reflexivity].
  rewrite IH. now destruct (Tf.collect (map g l)).
Qed.

(** The index tuples of a tensor whose last axis has length 1. *)
Lemma singleton_tuples {A B : Type} (F : list A -> B) (l : list A) :
  map (fun j => F (firstn 1 (skipn (j * 1) l))) (seq 0 (length l)) =
  map (fun x => F [x]) l.
Proof.
  induction l as [|x l IH]; [reflexivity|].
  cbn [length seq map]. f_equal.
  rewrite <- seq_shift, map_map. rewrite <- IH.
  apply map_ext. intros j. reflexivity.
Qed.

(** [tf.gather_nd] on a rank-2 table that is not empty, or for no index
    at all, and indices of shape [outer ++ [1]]: one row of the table for
    each index. *)
Lemma gather_nd_rows dev (params : Tensor.t float) R W outer idx :
  Tensor.shape params = [R; W] ->
  length idx = Tensor.numel outer ->
  idx = [] \/ (0 < R * W)%nat ->
  Tf.gather_nd dev params (Tensor.mk (outer ++ [1%nat]) idx) =
  (slices <- Tf.collect
     (map (fun i =>
             if ((0 <=? i) && (i <? Z.of_nat R))%Z
             then Ok (firstn W (skipn (Z.to_nat i * W) (Tensor.data params)))
             else match dev with
                  | Tf.CPU => Raise InvalidArgumentError
                  | Tf.GPU => Ok (repeat 0 W)
                  end) idx) ;;
   Ok (Tensor.mk (outer ++ [W]) (concat slices))).
Proof.
  intros Hshape Hlen Hsome. unfold Tf.gather_nd. cbn [Tensor.shape Tensor.data].
  rewrite rev_unit, rev_involutive, Hshape, <- Hlen.
  change (skipn 1 [R; W]) with [W]. change (firstn 1 [R; W]) with [R].
  change (Tensor.numel [W]) with (W * 1)%nat.
  change (Tensor.numel [R; W]) with (R * (W * 1))%nat. rewrite Nat.mul_1_r.
  replace ((0 <? length idx) && (R * W =? 0))%nat with false.
  2:{ symmetry. destruct Hsome as [-> | Hpos]; [reflexivity|].
      apply andb_false_intro2. apply Nat.eqb_neq. lia. }
  cbn [length Nat.eqb Nat.ltb Nat.leb orb].
  rewrite (singleton_tuples
             (fun ix => match Tf.flat_offset [R] ix 0 with
                        | Some off =>
                            Ok (firstn W (skipn (off * W) (Tensor.data params)))
                        | None =>
                            match dev with
                            | Tf.CPU => Raise InvalidArgumentError
                            | Tf.GPU => Ok (repeat 0 W)
                            end
                        end) idx).
  f_equal. f_equal. apply map_ext. intros i. cbn [Tf.flat_offset].
  now destruct ((0 <=? i) && (i <? Z.of_nat R))%Z.
Qed.

(** An elementwise map that fixes 0 commutes with [tf.gather_nd]. *)
Lemma gather_nd_map (f : float -> float) dev params idx :
  f 0 = 0 ->
  Tf.gather_nd dev (Tensor.mk (Tensor.shape params) (map f (Tensor.data params))) idx =
  (out <- Tf.gather_nd dev params idx ;;
   Ok (Tensor.mk (Tensor.shape out) (map f (Tensor.data out)))).
Proof.
  intros Hf. unfold Tf.gather_nd. cbn [Tensor.shape Tensor.data].
  destruct (rev (Tensor.shape idx)) as [|K outer_rev]; [reflexivity|].
  destruct ((length (Tensor.shape params) =? 0) ||
            (length (Tensor.shape params) <? K))%nat; [reflexivity|].
  destruct ((0 <? Tensor.numel (rev outer_rev)) &&
            (Tensor.numel (Tensor.shape params) =? 0))%nat; [reflexivity|].
  match goal with
  | |- Py.bind (Tf.collect (map ?g' ?l)) _ =
       Py.bind (Py.bind (Tf.collect (map ?g ?l)) _) _ =>
      rewrite (map_ext g' (fun j => y <- g j ;; Ok (map f y)))
  end.
  - rewrite collect_map_result.
    match goal with
    | |- context [Tf.collect ?c] => destruct (Tf.collect c) as [slices|e]
    end; [|reflexivity].
    simpl. now rewrite concat_map.
  - intros j. cbn beta.
    destruct (Tf.flat_offset _ _ 0) as [off|].
    + simpl. now rewrite skipn_map, firstn_map.
    + destruct dev; simpl; [reflexivity|]. now rewrite map_repeat, Hf.
Qed.

End TfFacts.

(** C3 (as stated, refuted).  On a platform whose [sin(1.0)] is the
    correctly rounded double and whose [pow(10000, 0)] is 1, the default
    encoder for two steps and two dimensions does not hold [sin(1 / 10000^0)]
    at row 1, column 0: it holds that double rounded to binary32. *)
Lemma default_table_entry_is_rounded :
  ~ exists pf enc,
      np_sin pf 1 = 0x1.aed548f090ceep-1%float /\
      np_power pf (F64.of_Z 10000) 0 = 1%float /\
      PositionEncoder_init pf 2 2 default_dtype = Ok enc /\
      Tensor.get2 (embedding enc) 1 0 0%float = np_sin pf (angle pf 2 1 0).
Proof.
  intros (pf & enc & Hsin & Hpow & Hinit & Hget).
  apply PositionEncoder_init_inv in Hinit.
  destruct Hinit as (Hemb & _). rewrite Hemb in Hget.
  change (stored_dims 2) with 2%Z in Hget.
  change (Z.to_nat 2) with 2%nat in Hget at 1.
  rewrite table_get2 in Hget by (simpl; lia).
  assert (E : nth 0 (encoding_row pf 2 1) 0%float =
              np_sin pf (angle pf 2 (Z.of_nat 1) 0))
    by (apply (encoding_row_sin pf 2 1 0 eq_refl); split; [lia | reflexivity]).
  rewrite E in Hget. unfold angle in Hget.
  change (F64.of_Z (2 * 0) / F64.of_Z 2)%float with 0%float in Hget.
  rewrite Hpow in Hget.
  change (F64.of_Z (Z.of_nat 1) / 1)%float with 1%float in Hget.
  change (F64.of_Z 1 / 1)%float with 1%float in Hget.
  rewrite Hsin in Hget. apply (f_equal Prim2SF) in Hget.
  vm_compute in Hget. discriminate Hget.
Qed.

(** C3 (amended).  For positive [max_steps] and [max_dims] the constructor
    succeeds; the table has shape [(max_steps, D)] with [D = max_dims] when
    even and [max_dims + 1] when odd; the recorded dimensionality is [D];
    and at row [t], pair [i], column [2i] holds the platform's sine of
    [t / 10000^(2i / D)] and column [2i + 1] its cosine, each cast to the
    layer's dtype. *)
Theorem position_encoder_table pf ms md dt :
  (0 < ms)%Z -> (0 < md)%Z ->
  exists enc,
    PositionEncoder_init pf ms md dt = Ok enc /\
    Tensor.shape (embedding enc) = [Z.to_nat ms; Z.to_nat (stored_dims md)] /\
    length (Tensor.data (embedding enc)) =
      (Z.to_nat ms * Z.to_nat (stored_dims md))%nat /\
    max_dims enc = stored_dims md /\
    forall t i, (0 <= t < ms)%Z -> (0 <= i < stored_dims md / 2)%Z ->
      Tensor.get2 (embedding enc) (Z.to_nat t) (Z.to_nat (2 * i)) 0%float =
        Tf.astype dt (np_sin pf (angle pf (stored_dims md) t i)) /\
      Tensor.get2 (embedding enc) (Z.to_nat t) (Z.to_nat (2 * i + 1)) 0%float =
        Tf.astype dt (np_cos pf (angle pf (stored_dims md) t i)).
Proof.
  intros Hms Hmd.
  destruct (PositionEncoder_init_ok pf ms md dt Hms Hmd) as [enc Hinit].
  exists enc. split; [assumption|].
  destruct (PositionEncoder_init_inv pf ms md dt enc Hinit) as (Hemb & _ & Hdims & _).
  rewrite Hemb. cbn [Tensor.shape Tensor.data].
  split; [reflexivity|]. split; [|split; [assumption|]].
  - rewrite (Np2Facts.length_concat_uniform _ (Z.to_nat (stored_dims md))).
    + now rewrite length_map, length_seq.
    + apply Forall_forall. intros row Hrow. apply in_map_iff in Hrow.
      destruct Hrow as (r & <- & _).
      now rewrite length_map, encoding_row_length.
  - intros t i Ht Hi.
    destruct (pair_index_bound _ i (stored_dims_even md) Hi) as [_ Hc].
    split; rewrite table_get2 by lia.
    + rewrite encoding_row_sin by (assumption || apply stored_dims_even).
      now rewrite Z2Nat.id by lia.
    + rewrite encoding_row_cos by (assumption || apply stored_dims_even).
      now rewrite Z2Nat.id by lia.
Qed.

Lemma position_encoder_table_witness :
  exists enc,
    PositionEncoder_init taylor_platform 3 5 default_dtype = Ok enc /\
    Tensor.shape (embedding enc) = [3; 6]%nat /\
    max_dims enc = 6%Z /\
    Tensor.get2 (embedding enc) 2 4 0%float =
      Tf.astype default_dtype (np_sin taylor_platform (angle taylor_platform 6 2 2)).
Proof.
  destruct (position_encoder_table taylor_platform 3 5 default_dtype)
    as (enc & Hinit & Hshape & _ & Hdims & Hentry); [lia | lia |].
  exists enc. repeat split; try assumption.
  apply (Hentry 2%Z 2%Z); [lia | vm_compute; split; [discriminate | reflexivity]].
Defined.

(** * Lookups *)

Section Lookup.

Open Scope float_scope.

Variable pf : platform.

(** A lookup in a table that is not empty, or of no index at all, with
    indices of shape [outer ++ [1]], gathers one row per index; the device
    decides what an out-of-range index does. *)
Lemma call_rows ms md dt dev enc outer idx :
  PositionEncoder_init pf ms md dt = Ok enc ->
  length idx = Tensor.numel outer ->
  idx = [] \/ (0 < ms /\ 0 < md)%Z ->
  call dev enc (Tensor.mk (outer ++ [1%nat]) idx) =
  (slices <- Tf.collect
     (map (fun i =>
             if ((0 <=? i) && (i <? max_steps enc))%Z
             then Ok (table_row enc i)
             else match dev with
                  | Tf.CPU => Raise InvalidArgumentError
                  | Tf.GPU => Ok (repeat 0 (Z.to_nat (max_dims enc)))
                  end) idx) ;;
   Ok (Tensor.mk (outer ++ [Z.to_nat (max_dims enc)]) (concat slices))).
Proof.
  intros Hinit Hlen Hsome.
  destruct (PositionEncoder_init_inv pf ms md dt enc Hinit)
    as (Hemb & Hsteps & Hdims & _ & Hms).
  unfold call, table_row. fold (embedding enc).
  rewrite (TfFacts.gather_nd_rows dev (embedding enc) (Z.to_nat ms)
             (Z.to_nat (max_dims enc)) outer idx).
  - rewrite Z2Nat.id, Hsteps by assumption. reflexivity.
  - rewrite Hemb, Hdims. reflexivity.
  - exact Hlen.
  - destruct Hsome as [-> | [Hp Hd]]; [now left | right].
    rewrite Hdims. pose proof (stored_dims_positive md Hd). nia.
Qed.

Lemma call_in_range ms md dt dev enc outer idx :
  (0 < md)%Z ->
  PositionEncoder_init pf ms md dt = Ok enc ->
  length idx = Tensor.numel outer ->
  Forall (fun i => (0 <= i < ms)%Z) idx ->
  call dev enc (Tensor.mk (outer ++ [1%nat]) idx) =
  Ok (Tensor.mk (outer ++ [Z.to_nat (max_dims enc)])
                (concat (map (table_row enc) idx))).
Proof.
  intros Hmd Hinit Hlen Hin.
  rewrite (call_rows ms md dt); [| assumption | assumption |].
  2:{ destruct idx as [|i idx]; [now left | right].
      inversion Hin; subst. split; [lia | assumption]. }
  destruct (PositionEncoder_init_inv pf ms md dt enc Hinit)
    as (_ & Hsteps & _).
  rewrite (TfFacts.collect_all_ok _ (table_row enc)); [reflexivity|].
  intros i Hi. rewrite Forall_forall in Hin. specialize (Hin i Hi).
  rewrite Hsteps.
  replace ((0 <=? i) && (i <? ms))%Z with true; [reflexivity|].
  symmetry. apply andb_true_intro. split; [apply Z.leb_le | apply Z.ltb_lt]; lia.
Qed.

Lemma list4 {A : Type} (l : list A) d :
  length l = 4%nat -> l = [nth 0 l d; nth 1 l d; nth 2 l d; nth 3 l d].
Proof.
  destruct l as [|a [|b [|c [|e [|? ?]]]]]; simpl; intros H;
    try discriminate; reflexivity.
Qed.

(** The angle at step 0 is [+0] whenever the power is positive. *)
Lemma angle_step_zero D i :
  (0 <? np_power pf (F64.of_Z 10000) (F64.of_Z (2 * i) / F64.of_Z D)) = true ->
  angle pf D 0 i = 0.
Proof.
  intros H. unfold angle. change (F64.of_Z 0) with 0%float.
  now apply F64Facts.zero_div_pos.
Qed.

(** Row 0 of the table for four dimensions. *)
Lemma table_row_zero_4 ms dt enc :
  np_sin pf 0 = 0 -> np_cos pf 0 = 1 ->
  (forall i, (0 <= i < 2)%Z ->
     (0 <? np_power pf (F64.of_Z 10000) (F64.of_Z (2 * i) / F64.of_Z 4)) = true) ->
  (0 < ms)%Z ->
  PositionEncoder_init pf ms 4 dt = Ok enc ->
  table_row enc 0 = [0; 1; 0; 1].
Proof.
  intros Hsin Hcos Hpow Hms Hinit.
  destruct (PositionEncoder_init_inv pf ms 4 dt enc Hinit)
    as (Hemb & _ & Hdims & _).
  unfold table_row. rewrite Hemb, Hdims.
  change (stored_dims 4) with 4%Z. cbn [Tensor.data].
  destruct (Z.to_nat ms) as [|rows] eqn:Hrows; [lia|].
  cbn [seq map concat].
  change (skipn (Z.to_nat 0 * Z.to_nat 4)) with (@skipn float 0). cbn [skipn].
  rewrite firstn_app, firstn_all2
    by (rewrite length_map, encoding_row_length; reflexivity).
  rewrite length_map, encoding_row_length.
  change (Z.to_nat 4 - Z.to_nat 4)%nat with 0%nat. cbn [firstn].
  rewrite app_nil_r.
  rewrite (list4 (encoding_row pf 4 0) 0) by apply encoding_row_length.
  pose proof (encoding_row_sin pf 4 0 0 eq_refl) as S0.
  pose proof (encoding_row_cos pf 4 0 0 eq_refl) as C0.
  pose proof (encoding_row_sin pf 4 0 1 eq_refl) as S1.
  pose proof (encoding_row_cos pf 4 0 1 eq_refl) as C1.
  change (Z.to_nat (2 * 0)) with 0%nat in S0.
  change (Z.to_nat (2 * 0 + 1)) with 1%nat in C0.
  change (Z.to_nat (2 * 1)) with 2%nat in S1.
  change (Z.to_nat (2 * 1 + 1)) with 3%nat in C1.
  change (Z.of_nat 0) with 0%Z in S0, C0, S1, C1.
  rewrite S0, C0, S1, C1 by (split; [lia | reflexivity]).
  rewrite !angle_step_zero by (apply Hpow; lia).
  rewrite Hsin, Hcos. cbn [map].
  now rewrite F64Facts.astype_zero, F64Facts.astype_one.
Qed.

End Lookup.

(** C4 (as stated, refuted).  For ten steps and four dimensions, on no
    platform and no device does [embed([0])] have shape [(1, 4)], nor does
    [embed([1, 2])] have shape [(2, 4)]: a flat list of [n] indices is one
    index tuple of depth [n]. *)
Lemma call_on_flat_indices_drops_axis :
  ~ exists pf dev enc out,
      PositionEncoder_init pf 10 4 default_dtype = Ok enc /\
      ((call dev enc (Tensor.vector [0%Z]) = Ok out /\
        Tensor.shape out = [1; 4]%nat) \/
       (call dev enc (Tensor.vector [1%Z; 2%Z]) = Ok out /\
        Tensor.shape out = [2; 4]%nat)).
Proof.
  intros (pf & dev & enc & out & Hinit & [[Hcall Hshape] | [Hcall Hshape]]).
  - change (Tensor.vector [0%Z]) with (Tensor.mk ([] ++ [1%nat]) [0%Z]) in Hcall.
    rewrite (call_in_range pf 10 4 default_dtype) in Hcall;
      [| lia | assumption | reflexivity | repeat constructor; lia].
    destruct (PositionEncoder_init_inv pf _ _ _ _ Hinit) as (_ & _ & Hdims & _).
    rewrite Hdims in Hcall. injection Hcall as <-. discriminate Hshape.
  - destruct (PositionEncoder_init_inv pf _ _ _ _ Hinit) as (Hemb & _).
    unfold call, Tf.gather_nd in Hcall. fold (embedding enc) in Hcall.
    rewrite Hemb in Hcall. simpl in Hcall.
    injection Hcall as <-. discriminate Hshape.
Qed.

(** C4 (amended).  For an index tensor whose last axis has length 1 (shape
    [outer ++ [1]]) and whose entries all lie in [[0, max_steps)], the lookup
    returns the rows of the table at those indices, in order, with shape
    [outer ++ [D]].  For ten steps and four dimensions, on a platform with
    [sin 0 = 0], [cos 0 = 1] and positive powers of 10000, [embed([[0]])]
    is [[[0, 1, 0, 1]]] and [embed([0])] is the single row [[0, 1, 0, 1]]. *)
Theorem call_gathers_rows pf dt dev :
  (forall ms md enc outer idx,
     (0 < ms)%Z -> (0 < md)%Z ->
     PositionEncoder_init pf ms md dt = Ok enc ->
     length idx = Tensor.numel outer ->
     Forall (fun i => (0 <= i < ms)%Z) idx ->
     call dev enc (Tensor.mk (outer ++ [1%nat]) idx) =
     Ok (Tensor.mk (outer ++ [Z.to_nat (max_dims enc)])
                   (concat (map (table_row enc) idx)))) /\
  (np_sin pf 0 = 0%float -> np_cos pf 0 = 1%float ->
   (forall i, (0 <= i < 2)%Z ->
      (0 <? np_power pf (F64.of_Z 10000) (F64.of_Z (2 * i) / F64.of_Z 4))%float
      = true) ->
   forall enc,
     PositionEncoder_init pf 10 4 dt = Ok enc ->
     call dev enc (Tensor.matrix [[0%Z]]) = Ok (Tensor.matrix [[0; 1; 0; 1]%float]) /\
     call dev enc (Tensor.vector [0%Z]) = Ok (Tensor.vector [0; 1; 0; 1]%float)).
Proof.
  split.
  - intros ms md enc outer idx _ Hmd. now apply call_in_range.
  - intros Hsin Hcos Hpow enc Hinit.
    destruct (PositionEncoder_init_inv pf _ _ _ _ Hinit) as (_ & _ & Hdims & _).
    pose proof (table_row_zero_4 pf 10 dt enc Hsin Hcos Hpow eq_refl Hinit) as Hrow.
    split.
    + change (Tensor.matrix [[0%Z]]) with (Tensor.mk ([1%nat] ++ [1%nat]) [0%Z]).
      rewrite (call_in_range pf 10 4 dt);
        [| lia | assumption | reflexivity | repeat constructor; lia].
      rewrite Hdims. cbn [map concat]. rewrite Hrow. reflexivity.
    + change (Tensor.vector [0%Z]) with (Tensor.mk ([] ++ [1%nat]) [0%Z]).
      rewrite (call_in_range pf 10 4 dt);
        [| lia | assumption | reflexivity | repeat constructor; lia].
      rewrite Hdims. cbn [map concat]. rewrite Hrow. reflexivity.
Qed.

Lemma call_gathers_rows_witness :
  exists enc,
    PositionEncoder_init taylor_platform 10 4 default_dtype = Ok enc /\
    call Tf.CPU enc (Tensor.matrix [[0%Z]]) = Ok (Tensor.matrix [[0; 1; 0; 1]%float]) /\
    call Tf.CPU enc (Tensor.vector [0%Z]) = Ok (Tensor.vector [0; 1; 0; 1]%float) /\
    call Tf.CPU enc (Tensor.matrix [[3%Z]; [0%Z]]) =
      Ok (Tensor.mk [2; 4]%nat (table_row enc 3 ++ table_row enc 0 ++ [])).
Proof.
  destruct (PositionEncoder_init_ok taylor_platform 10 4 default_dtype)
    as [enc Hinit]; [lia | lia |].
  exists enc. split; [exact Hinit|].
  destruct (call_gathers_rows taylor_platform default_dtype Tf.CPU)
    as [Hrows Hexample].
  destruct (Hexample eq_refl eq_refl) with (enc := enc) as [H1 H2].
  - intros i Hi. assert (Hcases : i = 0%Z \/ i = 1%Z) by lia.
    destruct Hcases as [-> | ->]; reflexivity.
  - exact Hinit.
  - split; [exact H1|]. split; [exact H2|].
    pose proof (Hrows 10%Z 4%Z enc [2%nat] [3%Z; 0%Z]) as H3.
    destruct (PositionEncoder_init_inv taylor_platform _ _ _ _ Hinit)
      as (_ & _ & Hdims & _).
    rewrite Hdims in H3. apply H3; try lia; try reflexivity; try exact Hinit.
    repeat constructor; lia.
Defined.

(** C8 (as stated, refuted).  On GPU, for ten steps and four dimensions,
    [embed([10])] raises on no platform. *)
Lemma gpu_lookup_out_of_range_is_silent :
  ~ exists pf enc,
      PositionEncoder_init pf 10 4 default_dtype = Ok enc /\
      Py.raises (call Tf.GPU enc (Tensor.vector [10%Z])) = true.
Proof.
  intros (pf & enc & Hinit & Hraise).
  change (Tensor.vector [10%Z]) with (Tensor.mk ([] ++ [1%nat]) [10%Z]) in Hraise.
  rewrite (call_rows pf 10 4 default_dtype) in Hraise;
    [| assumption | reflexivity | right; lia].
  destruct (PositionEncoder_init_inv pf _ _ _ _ Hinit) as (_ & Hsteps & _).
  rewrite Hsteps in Hraise. simpl in Hraise. discriminate Hraise.
Qed.

(** C8 (amended).  When an index tensor of shape [outer ++ [1]] holds a
    value outside [[0, max_steps)], the lookup raises
    [InvalidArgumentError] on CPU; on GPU it returns normally, with a row of
    zeros in place of each row that is out of range. *)
Theorem out_of_range_lookup pf ms md dt enc outer idx :
  (0 < ms)%Z -> (0 < md)%Z ->
  PositionEncoder_init pf ms md dt = Ok enc ->
  length idx = Tensor.numel outer ->
  Exists (fun i => (i < 0 \/ ms <= i)%Z) idx ->
  call Tf.CPU enc (Tensor.mk (outer ++ [1%nat]) idx) = Raise InvalidArgumentError /\
  call Tf.GPU enc (Tensor.mk (outer ++ [1%nat]) idx) =
    Ok (Tensor.mk (outer ++ [Z.to_nat (max_dims enc)])
                  (concat (map (table_row_or_zeros enc) idx))).
Proof.
  intros Hms Hmd Hinit Hlen Hout.
  destruct (PositionEncoder_init_inv pf _ _ _ _ Hinit) as (_ & Hsteps & _).
  rewrite !(call_rows pf ms md dt) by (assumption || (right; split; assumption)).
  split.
  - rewrite (TfFacts.collect_raise _ InvalidArgumentError); [reflexivity | |].
    + intros i _. destruct ((0 <=? i) && (i <? max_steps enc))%Z;
        [right; eexists; reflexivity | now left].
    + apply Exists_exists. apply Exists_exists in Hout.
      destruct Hout as (i & Hi & Hrange). exists i. split; [assumption|].
      rewrite Hsteps.
      replace ((0 <=? i) && (i <? ms))%Z with false; [reflexivity|].
      symmetry. apply andb_false_iff.
      destruct Hrange; [left; apply Z.leb_gt | right; apply Z.ltb_ge]; lia.
  - rewrite (TfFacts.collect_all_ok _ (table_row_or_zeros enc)); [reflexivity|].
    intros i _. unfold table_row_or_zeros.
    now destruct ((0 <=? i) && (i <? max_steps enc))%Z.
Qed.

Lemma out_of_range_lookup_witness :
  exists enc,
    PositionEncoder_init taylor_platform 10 4 default_dtype = Ok enc /\
    call Tf.CPU enc (Tensor.vector [10%Z]) = Raise InvalidArgumentError /\
    call Tf.GPU enc (Tensor.vector [10%Z]) = Ok (Tensor.vector [0; 0; 0; 0]%float).
Proof.
  destruct (PositionEncoder_init_ok taylor_platform 10 4 default_dtype)
    as [enc Hinit]; [lia | lia |].
  exists enc. split; [exact Hinit|].
  destruct (out_of_range_lookup taylor_platform 10 4 default_dtype enc [] [10%Z])
    as [Hcpu Hgpu]; try lia; try reflexivity; try exact Hinit.
  - constructor. lia.
  - split; [exact Hcpu|].
    destruct (PositionEncoder_init_inv taylor_platform _ _ _ _ Hinit)
      as (_ & Hsteps & Hdims & _).
    unfold table_row_or_zeros in Hgpu. cbn [map] in Hgpu.
    rewrite Hsteps, Hdims in Hgpu. exact Hgpu.
Defined.

(** * The range converter *)

Module HeapFacts.

Open Scope float_scope.

Lemma read_new h a : Heap.read (length h) (h ++ [a]) = a.
Proof. unfold Heap.read. now rewrite nth_middle. Qed.

Lemma operand_rebuild b l : Heap.operand (Heap.rebuild b l) = l.
Proof. now destruct b. Qed.

Lemma rounding_rebuild b l : Heap.rounding (Heap.rebuild b l) = Heap.rounding b.
Proof. now destruct b. Qed.

Lemma rebuild_rebuild b l l' :
  Heap.rebuild (Heap.rebuild b l) l' = Heap.rebuild b l'.
Proof. now destruct b. Qed.

(** The converter allocates four arrays and returns the last one, which
    has the shape of the input and the specification's value in every
    slot; the heap it was given is a prefix of the heap it leaves. *)
Lemma convert_image_eval I h :
  exists a1 a2 a3,
    convert_image I h =
    ((length h + 3)%nat,
     h ++ [a1; a2; a3;
           {| Heap.nd_shape := Heap.nd_shape (Heap.read I h);
              Heap.nd_buffer :=
                Heap.rebuild (Heap.nd_buffer (Heap.read I h))
                  (map (to_unit_range (Heap.rounding (Heap.nd_buffer (Heap.read I h))))
                       (Heap.operand (Heap.nd_buffer (Heap.read I h)))) |}]).
Proof.
  unfold convert_image, Heap.bind, Heap.ret, Heap.true_divide, Heap.add,
    Heap.maximum, Heap.minimum, Heap.elementwise, Heap.elementwise_select.
  rewrite !read_new. cbn [Heap.nd_shape Heap.nd_buffer].
  rewrite !operand_rebuild, !rounding_rebuild, !rebuild_rebuild.
  do 3 eexists. f_equal.
  - rewrite !length_app. simpl. lia.
  - rewrite <- !app_assoc. cbn [app]. rewrite !map_map.
    set (rnd := Heap.rounding (Heap.nd_buffer (Heap.read I h))).
    rewrite (map_ext
               (fun x => Heap.scalar_min (Heap.scalar_max (rnd (rnd (x / 2) + 0.5)) 0) 1)
               (to_unit_range rnd))
      by (intros x; unfold to_unit_range;
          now rewrite F64Facts.scalar_min_max_clamp).
    reflexivity.
Qed.

End HeapFacts.

(** C9.  The converter returns a new array of the input's shape whose
    elements are [clamp(x/2 + 0.5, 0, 1)] of the input's, computed in
    [float64] for an integer or [float64] array and in [float32] for a
    [float32] array; every array that was in the heap, the input among them,
    is still there unchanged; [[-1, 0, 1]] maps to [[0, 0.5, 1]] and
    [[-3, 3]] to [[0, 1]]. *)
Theorem convert_image_clamps :
  (forall (h : Heap.heap) (I : Heap.ref) (a : Heap.ndarray),
     nth_error h I = Some a ->
     exists out,
       nth_error (snd (convert_image I h)) (fst (convert_image I h)) = Some out /\
       Heap.nd_shape out = Heap.nd_shape a /\
       Heap.nd_buffer out =
         Heap.rebuild (Heap.nd_buffer a)
           (map (to_unit_range (Heap.rounding (Heap.nd_buffer a)))
                (Heap.operand (Heap.nd_buffer a))) /\
       forall q b, nth_error h q = Some b ->
                   nth_error (snd (convert_image I h)) q = Some b) /\
  run_convert_image
    {| Heap.nd_shape := [3%nat]; Heap.nd_buffer := Heap.Int64 [-1; 0; 1]%Z |}
  = {| Heap.nd_shape := [3%nat]; Heap.nd_buffer := Heap.Float64 [0; 0.5; 1]%float |} /\
  run_convert_image
    {| Heap.nd_shape := [2%nat]; Heap.nd_buffer := Heap.Float64 [-3; 3]%float |}
  = {| Heap.nd_shape := [2%nat]; Heap.nd_buffer := Heap.Float64 [0; 1]%float |} /\
  run_convert_image
    {| Heap.nd_shape := [2%nat]; Heap.nd_buffer := Heap.Float32 [-3; 3]%float |}
  = {| Heap.nd_shape := [2%nat]; Heap.nd_buffer := Heap.Float32 [0; 1]%float |}.
Proof.
  split; [|repeat split; vm_compute; reflexivity].
  intros h I a Ha.
  destruct (HeapFacts.convert_image_eval I h) as (a1 & a2 & a3 & E).
  rewrite E. cbn [fst snd].
  assert (Hread : Heap.read I h = a)
    by (unfold Heap.read; now apply nth_error_nth).
  rewrite Hread. eexists. split.
  { rewrite nth_error_app2 by lia.
    replace (length h + 3 - length h)%nat with 3%nat by lia. reflexivity. }
  split; [reflexivity|]. split; [reflexivity|].
  intros q b Hq. rewrite nth_error_app1; [assumption|].
  apply nth_error_Some. congruence.
Qed.

Lemma convert_image_clamps_witness :
  exists out,
    nth_error (snd (convert_image 1 sample_heap)) (fst (convert_image 1 sample_heap))
    = Some out /\
    Heap.nd_shape out = [2; 2]%nat /\
    Heap.nd_buffer out = Heap.Float32 [0; 0.25; 0.625; nan]%float /\
    nth_error (snd (convert_image 1 sample_heap)) 1 = Some sample_image.
Proof.
  destruct (proj1 convert_image_clamps sample_heap 1%nat sample_image eq_refl)
    as (out & Hout & Hshape & Hbuf & Hframe).
  exists out. split; [exact Hout|]. split; [exact Hshape|].
  split; [exact Hbuf|]. apply Hframe. reflexivity.
Defined.

(** * Edge cases of the schedule generators *)

Module SF.

Open Scope Z_scope.

Lemma shr_1_nonneg mrs : 0 <= shr_m mrs -> 0 <= shr_m (shr_1 mrs).
Proof.
  destruct mrs as [[|[p|p|]|p] r s]; cbn [shr_1 shr_m]; lia.
Qed.

Lemma iter_shr_1_nonneg k mrs :
  0 <= shr_m mrs -> 0 <= shr_m (Nat.iter k shr_1 mrs).
Proof.
  intros H. induction k as [|k IH]; [exact H|]. simpl. now apply shr_1_nonneg.
Qed.

Lemma shr_nonneg mrs e n : 0 <= shr_m mrs -> 0 <= shr_m (fst (shr mrs e n)).
Proof.
  intros H. destruct n as [|p|p]; cbn [shr fst]; try exact H.
  rewrite Rounding.iter_pos_nat. now apply iter_shr_1_nonneg.
Qed.

Lemma shr_record_of_loc_m m l : shr_m (shr_record_of_loc m l) = m.
Proof. destruct l as [|[]]; reflexivity. Qed.

Lemma shr_fexp_nonneg p E m e l :
  0 <= m -> 0 <= shr_m (fst (shr_fexp p E m e l)).
Proof.
  intros H. unfold shr_fexp. apply shr_nonneg. now rewrite shr_record_of_loc_m.
Qed.

Lemma round_nearest_even_nonneg m l : 0 <= m -> 0 <= round_nearest_even m l.
Proof.
  intros H. destruct l as [|[]]; cbn [round_nearest_even]; try lia.
  destruct (Z.even m); lia.
Qed.

(** Rounding keeps the sign it is given and never makes a NaN. *)
Lemma binary_round_aux_sign p E s m e l :
  0 <= m -> sign_of (binary_round_aux p E s m e l) = Some s.
Proof.
  intros H. unfold binary_round_aux.
  pose proof (shr_fexp_nonneg p E m e l H) as H1.
  destruct (shr_fexp p E m e l) as [mrs1 e1]. cbn [fst] in H1.
  pose proof (shr_fexp_nonneg p E
                (round_nearest_even (shr_m mrs1) (loc_of_shr_record mrs1)) e1 loc_Exact
                (round_nearest_even_nonneg _ _ H1)) as H2.
  destruct (shr_fexp p E _ e1 loc_Exact) as [mrs2 e2]. cbn [fst] in H2.
  destruct (shr_m mrs2) as [|q|q]; [reflexivity | | lia].
  now destruct (e2 <=? E - p).
Qed.

Lemma binary_round_sign p E s m e :
  sign_of (binary_round p E s m e) = Some s.
Proof.
  unfold binary_round. destruct (shl_align m e _) as [mz ez].
  apply binary_round_aux_sign. lia.
Qed.

(** What [binary_round_aux] returns on a mantissa that is already aligned:
    the sign it was given, a canonical mantissa, and an exponent that is the
    format's exponent [f] for the input or one more. *)
Lemma binary_round_aux_cases s (m : positive) e :
  e <= fexp prec emax (Zpos (digits2_pos m) + e) ->
  let f := fexp prec emax (Zpos (digits2_pos m) + e) in
  match binary_round_aux prec emax s (Zpos m) e loc_Exact with
  | S754_zero s' => s' = s /\ f = -1074
  | S754_finite s' m' e' => s' = s /\ bounded prec emax m' e' = true /\ f <= e'
  | S754_infinity s' => s' = s /\ emax - prec <= f
  | S754_nan => False
  end.
Proof.
  intros Hpre.
  pose proof (Rounding.digits2_bounds m) as [Hdlo Hdhi].
  unfold binary_round_aux, shr_fexp. cbn [Zdigits2 shr_record_of_loc].
  set (d := Zpos (digits2_pos m)) in *.
  set (f := fexp prec emax (d + e)) in *. cbv zeta.
  destruct (Rounding.shr_exact_spec (Zpos m) e (f - e))
    as (mrs1 & E1 & H0 & [Hlo Hhi] & _); [lia | lia |].
  rewrite E1. replace (e + (f - e)) with f by lia.
  rewrite Z2Nat.id in Hlo, Hhi by lia.
  set (m1 := shr_m mrs1) in *.
  assert (Hf : -1074 <= f /\ d + e - 53 <= f /\ (f = -1074 \/ f = d + e - 53))
    by (unfold f, fexp, emin, prec, emax; lia).
  destruct Hf as (Hf1 & Hf2 & Hf3).
  assert (Hp : 0 < 2 ^ (f - e)) by (apply Z.pow_pos_nonneg; lia).
  assert (Hm1 : m1 < 2 ^ 53).
  { assert (Hd : 2 ^ d <= 2 ^ 53 * 2 ^ (f - e)).
    { rewrite <- Z.pow_add_r by lia. apply Z.pow_le_mono_r; lia. }
    assert (m1 * 2 ^ (f - e) < 2 ^ 53 * 2 ^ (f - e)) by lia.
    apply Z.mul_lt_mono_pos_r in H; assumption. }
  assert (Hm1lo : -1074 < f -> 2 ^ 52 <= m1).
  { intros Hn. assert (Hfe : f = d + e - 53) by lia.
    assert (Hd : 2 ^ (d - 1) = 2 ^ 52 * 2 ^ (f - e)).
    { rewrite <- Z.pow_add_r by lia. f_equal. lia. }
    rewrite Hd in Hdlo.
    assert (2 ^ 52 * 2 ^ (f - e) < (m1 + 1) * 2 ^ (f - e)) by lia.
    apply Z.mul_lt_mono_pos_r in H; [lia | assumption]. }
  set (m2 := round_nearest_even m1 (loc_of_shr_record mrs1)).
  assert (Hm2 : m2 = m1 \/ m2 = m1 + 1).
  { destruct (Rounding.round_nearest_even_bounds mrs1) as [H | [H _]]; auto. }
  assert (Hm2r : 0 <= m2 <= 2 ^ 53) by lia.
  destruct (Z.eq_dec m2 (2 ^ 53)) as [Htop | Htop].
  - rewrite Htop. change (Zdigits2 (2 ^ 53)) with 54.
    replace (fexp prec emax (54 + f) - f) with 1
      by (unfold fexp, emin, prec, emax; lia).
    cbn [shr iter_pos]. change (shr_m (shr_1 _)) with (2 ^ 52).
    change (2 ^ 52) with (Zpos 4503599627370496). cbv iota beta.
    destruct (f + 1 <=? emax - prec) eqn:Hov.
    + split; [reflexivity|]. split; [|lia].
      unfold bounded, canonical_mantissa. rewrite Hov.
      change (Zpos (digits2_pos 4503599627370496)) with 53.
      replace (fexp prec emax (53 + (f + 1))) with (f + 1)
        by (unfold fexp, emin, prec, emax; lia).
      now rewrite Z.eqb_refl.
    + apply Z.leb_gt in Hov. split; [reflexivity | lia].
  - destruct m2 as [|p2|p2] eqn:Em2; [| | lia].
    + cbn [Zdigits2].
      assert (Hz : f = -1074) by lia.
      destruct (fexp prec emax (0 + f) - f) as [|q|q] eqn:Eq;
        try (split; [reflexivity | exact Hz]).
      unfold fexp, emin, prec, emax in Eq. lia.
    + cbn [Zdigits2].
      pose proof (Rounding.digits2_bounds p2) as [Hlo2 Hhi2].
      set (d2 := Zpos (digits2_pos p2)) in *.
      assert (Hd2 : d2 <= 53).
      { destruct (Z_le_gt_dec d2 53) as [|Hgt]; [assumption|]. exfalso.
        assert (2 ^ 53 <= 2 ^ (d2 - 1)) by (apply Z.pow_le_mono_r; lia). lia. }
      assert (Hd2n : -1074 < f -> d2 = 53).
      { intros Hn. specialize (Hm1lo Hn).
        destruct (Z_le_gt_dec 53 d2) as [|Hlt]; [lia|]. exfalso.
        assert (2 ^ d2 <= 2 ^ 52) by (apply Z.pow_le_mono_r; lia). lia. }
      assert (Hfix : fexp prec emax (d2 + f) = f)
        by (unfold fexp, emin, prec, emax; lia).
      rewrite Hfix, Z.sub_diag. cbn [shr shr_m].
      destruct (f <=? emax - prec) eqn:Hov.
      * split; [reflexivity|]. split; [|lia].
        unfold bounded, canonical_mantissa. rewrite Hov.
        fold d2. rewrite Hfix. now rewrite Z.eqb_refl.
      * apply Z.leb_gt in Hov. split; [reflexivity | lia].
Qed.

(** The same for [binary_round], which aligns the mantissa first. *)
Lemma binary_round_cases s (m : positive) e :
  let f := fexp prec emax (Zpos (digits2_pos m) + e) in
  match binary_round prec emax s m e with
  | S754_zero s' => s' = s /\ f = -1074
  | S754_finite s' m' e' => s' = s /\ bounded prec emax m' e' = true /\ f <= e'
  | S754_infinity s' => s' = s /\ emax - prec <= f
  | S754_nan => False
  end.
Proof.
  unfold binary_round.
  destruct (Rounding.shl_align_spec m e (fexp prec emax (Zpos (digits2_pos m) + e)))
    as (mz & E & Hmz).
  rewrite E. set (f := fexp prec emax (Zpos (digits2_pos m) + e)) in *. cbv zeta.
  assert (Hd : Zpos (digits2_pos mz) + Z.min e f = Zpos (digits2_pos m) + e).
  { rewrite (Rounding.digits_shift m mz (e - Z.min e f)) by (lia || exact Hmz). lia. }
  pose proof (binary_round_aux_cases s mz (Z.min e f)) as H.
  rewrite Hd in H. fold f in H. apply H. lia.
Qed.

Lemma binary_round_valid s m e :
  valid_binary (binary_round prec emax s m e) = true.
Proof.
  pose proof (binary_round_cases s m e) as H. cbv zeta in H.
  destruct (binary_round prec emax s m e); try reflexivity.
  now destruct H as (_ & H & _).
Qed.

Lemma binary_normalize_valid n e sz :
  valid_binary (binary_normalize prec emax n e sz) = true.
Proof.
  destruct n; cbn [binary_normalize]; [reflexivity | |]; apply binary_round_valid.
Qed.

End SF.

(** * Facts on binary64 numbers: conversions, signs, tests *)

Module F64Signs.

Open Scope float_scope.

Lemma Prim2SF_of_Z n :
  Prim2SF (F64.of_Z n) = binary_normalize prec emax n 0 false.
Proof.
  unfold F64.of_Z. apply Prim2SF_SF2Prim, SF.binary_normalize_valid.
Qed.

(** [float(n)] is zero only for [n = 0], has the sign of [n], is never a
    NaN, and is infinite only for integers of 1024 bits or more. *)
Lemma of_Z_cases n :
  match Prim2SF (F64.of_Z n) with
  | S754_zero s => n = 0%Z /\ s = false
  | S754_finite s _ _ => n <> 0%Z /\ s = (n <? 0)%Z
  | S754_infinity s => s = (n <? 0)%Z /\ (2 ^ 1023 <= Z.abs n)%Z
  | S754_nan => False
  end.
Proof.
  rewrite Prim2SF_of_Z.
  destruct n as [|p|p]; cbn [binary_normalize]; [now split | |].
  - pose proof (SF.binary_round_cases false p 0) as H. cbv zeta in H.
    pose proof (Rounding.digits2_bounds p) as [Hlo _].
    destruct (binary_round prec emax false p 0) as [s|s| |s m e].
    + exfalso. destruct H as [_ H]. unfold fexp, emin, prec, emax in H. lia.
    + destruct H as [-> H]. split; [reflexivity|].
      assert (Hd : (1024 <= Zpos (digits2_pos p))%Z)
        by (unfold fexp, emin, prec, emax in H; lia).
      eapply Z.le_trans; [|exact Hlo]. apply Z.pow_le_mono_r; lia.
    + exact H.
    + destruct H as [-> _]. split; [discriminate | reflexivity].
  - pose proof (SF.binary_round_cases true p 0) as H. cbv zeta in H.
    pose proof (Rounding.digits2_bounds p) as [Hlo _].
    destruct (binary_round prec emax true p 0) as [s|s| |s m e].
    + exfalso. destruct H as [_ H]. unfold fexp, emin, prec, emax in H. lia.
    + destruct H as [-> H]. split; [reflexivity|].
      assert (Hd : (1024 <= Zpos (digits2_pos p))%Z)
        by (unfold fexp, emin, prec, emax in H; lia).
      eapply Z.le_trans; [|exact Hlo]. apply Z.pow_le_mono_r; lia.
    + exact H.
    + destruct H as [-> _]. split; [discriminate | reflexivity].
Qed.

Lemma eqb_zero_spec x :
  (x =? 0) = match Prim2SF x with S754_zero _ => true | _ => false end.
Proof.
  rewrite eqb_spec. change (Prim2SF 0) with (S754_zero false).
  destruct (Prim2SF x) as [s|s| |s m e]; try reflexivity; now destruct s.
Qed.

Lemma is_infinity_spec x :
  is_infinity x = match Prim2SF x with S754_infinity _ => true | _ => false end.
Proof.
  unfold is_infinity. rewrite eqb_spec, abs_spec.
  change (Prim2SF infinity) with (S754_infinity false).
  destruct (Prim2SF x) as [s|s| |s m e]; reflexivity.
Qed.

Lemma is_finite_spec x :
  is_finite x = match Prim2SF x with
                | S754_zero _ | S754_finite _ _ _ => true
                | _ => false
                end.
Proof.
  unfold is_finite. rewrite F64Facts.is_nan_spec, is_infinity_spec.
  now destruct (Prim2SF x).
Qed.

Lemma get_sign_spec x :
  get_sign x = match sign_of (Prim2SF x) with Some s => s | None => false end.
Proof.
  unfold get_sign, is_zero. rewrite ltb_spec.
  change zero with 0%float. rewrite eqb_zero_spec.
  change (Prim2SF 0) with (S754_zero false).
  destruct (Prim2SF x) as [s|s| |s m e] eqn:E; cbn [sign_of].
  - rewrite div_spec, E. change (Prim2SF 1) with (S754_finite false 4503599627370496 (-52)).
    now destruct s.
  - rewrite E. now destruct s.
  - rewrite E. reflexivity.
  - rewrite E. now destruct s.
Qed.

(** A quotient is a NaN or has the product of the signs. *)
Lemma SFdiv_sign x y sx sy :
  sign_of x = Some sx -> sign_of y = Some sy ->
  SF64div x y = S754_nan \/ sign_of (SF64div x y) = Some (xorb sx sy).
Proof.
  unfold SF64div.
  destruct x as [s1|s1| |s1 m1 e1], y as [s2|s2| |s2 m2 e2]; cbn [sign_of SFdiv];
    intros H1 H2; try discriminate;
    injection H1 as <-; injection H2 as <-; auto.
  right. unfold SFdiv_core_binary.
  set (m' := match (e1 - e2 - _)%Z with Zpos _ => _ | Z0 => _ | Zneg _ => _ end).
  assert (Hm' : (0 <= m')%Z).
  { subst m'. destruct (e1 - e2 - _)%Z; [lia | | lia].
    apply Z.shiftl_nonneg. lia. }
  destruct (Z.div_eucl m' (Zpos m2)) as [q r] eqn:E.
  apply SF.binary_round_aux_sign.
  assert (Hq : q = (m' / Zpos m2)%Z) by (unfold Z.div; now rewrite E).
  rewrite Hq. apply Z.div_pos; lia.
Qed.

(** A quotient of two finite numbers is never a NaN. *)
Lemma SFdiv_finite_sign s1 m1 e1 s2 m2 e2 :
  sign_of (SF64div (S754_finite s1 m1 e1) (S754_finite s2 m2 e2))
  = Some (xorb s1 s2).
Proof.
  destruct (SFdiv_sign (S754_finite s1 m1 e1) (S754_finite s2 m2 e2) s1 s2
              eq_refl eq_refl) as [H | H]; [|exact H].
  exfalso. revert H. unfold SF64div. cbn [SFdiv]. unfold SFdiv_core_binary.
  set (m' := match (e1 - e2 - _)%Z with Zpos _ => _ | Z0 => _ | Zneg _ => _ end).
  assert (Hm' : (0 <= m')%Z).
  { subst m'. destruct (e1 - e2 - _)%Z; [lia | | lia].
    apply Z.shiftl_nonneg. lia. }
  destruct (Z.div_eucl m' (Zpos m2)) as [q r] eqn:E.
  assert (Hq : q = (m' / Zpos m2)%Z) by (unfold Z.div; now rewrite E).
  assert (H0 : (0 <= q)%Z) by (rewrite Hq; apply Z.div_pos; lia).
  pose proof (SF.binary_round_aux_sign prec emax (xorb s1 s2) q
                (Z.min (fexp prec emax (Zdigits2 (Zpos m1) + e1 - (Zdigits2 (Zpos m2) + e2)))
                       (e1 - e2))
                (new_location (Zpos m2) r) H0) as Hs.
  intros Hn. rewrite Hn in Hs. discriminate Hs.
Qed.

Lemma div_sign x y sx sy :
  sign_of (Prim2SF x) = Some sx -> sign_of (Prim2SF y) = Some sy ->
  is_nan (x / y) = true \/ sign_of (Prim2SF (x / y)) = Some (xorb sx sy).
Proof.
  intros Hx Hy. rewrite F64Facts.is_nan_spec, div_spec.
  destruct (SFdiv_sign _ _ _ _ Hx Hy) as [H | H]; [left; now rewrite H | now right].
Qed.

Lemma div_nan_l x y : is_nan x = true -> is_nan (x / y) = true.
Proof.
  rewrite !F64Facts.is_nan_spec, div_spec.
  destruct (Prim2SF x); try discriminate. reflexivity.
Qed.

Lemma div_nan_r x y : is_nan y = true -> is_nan (x / y) = true.
Proof.
  rewrite !F64Facts.is_nan_spec, div_spec.
  destruct (Prim2SF y); try discriminate. now destruct (Prim2SF x).
Qed.

Lemma sign_or_nan x :
  is_nan x = true \/ exists s, sign_of (Prim2SF x) = Some s.
Proof.
  rewrite F64Facts.is_nan_spec.
  destruct (Prim2SF x) as [s|s| |s m e]; cbn [sign_of]; eauto.
Qed.

(** [ceil] of a number with the sign bit set is at most 0; of a positive
    finite number it is at least 1. *)
Lemma ceil_negative v :
  sign_of (Prim2SF v) = Some true ->
  match F64.ceil v with Some k => (k <= 0)%Z | None => True end.
Proof.
  unfold F64.ceil.
  destruct (Prim2SF v) as [s|s| |s m e]; cbn [sign_of]; intros H;
    try exact I; [lia|].
  injection H as ->. cbn [cond_Zopp].
  destruct e as [|p|p].
  - lia.
  - assert (0 < 2 ^ Zpos p)%Z by (apply Z.pow_pos_nonneg; lia).
    apply Z.mul_nonpos_nonneg; lia.
  - rewrite Z.opp_involutive.
    assert (H : (0 < 2 ^ Zpos p)%Z) by (apply Z.pow_pos_nonneg; lia).
    assert (0 <= Zpos m / 2 ^ Zpos p)%Z by (apply Z.div_pos; lia). lia.
Qed.

Lemma ceil_positive v m e :
  Prim2SF v = S754_finite false m e ->
  exists k, F64.ceil v = Some k /\ (1 <= k)%Z.
Proof.
  intros E. unfold F64.ceil. rewrite E. cbn [cond_Zopp].
  eexists. split; [reflexivity|].
  destruct e as [|p|p].
  - lia.
  - assert (0 < 2 ^ Zpos p)%Z by (apply Z.pow_pos_nonneg; lia).
    change 1%Z with (1 * 1)%Z. apply Z.mul_le_mono_nonneg; lia.
  - assert (H : (0 < 2 ^ Zpos p)%Z) by (apply Z.pow_pos_nonneg; lia).
    assert (- Zpos m / 2 ^ Zpos p < 0)%Z
      by (apply Z.div_lt_upper_bound; lia).
    lia.
Qed.

End F64Signs.

Module ArangeFacts.

Open Scope float_scope.

(** The cast to [npy_intp] changes one value only among those that pass
    the range test. *)
Lemma to_intp_in_range k : (- 2 ^ 63 <= k < 2 ^ 63)%Z -> Np.to_intp k = k.
Proof.
  intros H. unfold Np.to_intp. rewrite Z.mod_small; lia.
Qed.

Lemma to_intp_top : Np.to_intp (2 ^ 63) = (- 2 ^ 63)%Z.
Proof. reflexivity. Qed.

(** A quotient [(stop - start) / step] that is a NaN or has its sign bit
    set gives no element. *)
Lemma arange_backwards start stop step :
  is_nan ((stop - start) / step) = true \/
  sign_of (Prim2SF ((stop - start) / step)) = Some true ->
  Py.raises (Np.arange start stop step) = true \/ Np.arange start stop step = Ok [].
Proof.
  intros H. unfold Np.arange, Np.arange_length, F64.py_div.
  destruct (step =? 0); [left; reflexivity|]. cbn [Py.bind].
  set (v := (stop - start) / step) in *.
  destruct H as [H | H].
  - rewrite F64Facts.is_nan_spec in H. unfold F64.ceil.
    destruct (Prim2SF v); try discriminate. left; reflexivity.
  - pose proof (F64Signs.ceil_negative v H) as Hc.
    destruct (F64.ceil v) as [k|]; [|left; reflexivity].
    destruct ((Np.intp_min <=? k)%Z && (k <=? Np.intp_max_as_double)%Z) eqn:Er;
      [|left; reflexivity].
    apply andb_prop in Er. destruct Er as [Er _]. apply Z.leb_le in Er.
    unfold Np.intp_min in Er.
    destruct ((v =? 0) && negb (stop - start =? 0)).
    + rewrite F64Signs.get_sign_spec, H. right. reflexivity.
    + right. cbn [Py.bind]. rewrite to_intp_in_range by lia.
      replace (Z.to_nat k) with 0%nat by lia. reflexivity.
Qed.

(** A quotient that is a NaN or has its sign bit clear, for distinct
    endpoints, gives at least the element [start], unless its ceiling is
    the one value that the cast to [npy_intp] turns negative. *)
Lemma arange_forwards start stop step l :
  is_nan ((stop - start) / step) = true \/
  sign_of (Prim2SF ((stop - start) / step)) = Some false ->
  (stop - start =? 0) = false ->
  F64.ceil ((stop - start) / step) <> Some (2 ^ 63)%Z ->
  Np.arange start stop step = Ok l ->
  exists rest, l = start :: rest.
Proof.
  intros H Hd Htop. revert Htop. unfold Np.arange, Np.arange_length, F64.py_div.
  destruct (step =? 0); [discriminate|]. cbn [Py.bind].
  set (v := (stop - start) / step) in *. rewrite Hd.
  rewrite F64Signs.get_sign_spec, F64Signs.eqb_zero_spec.
  rewrite F64Facts.is_nan_spec in H.
  destruct (Prim2SF v) as [s|s| |s m e] eqn:Ev; cbn [sign_of] in *.
  - destruct H as [H | H]; [discriminate|]. injection H as ->.
    unfold F64.ceil. rewrite Ev. cbn. intros _ E. injection E as <-. eauto.
  - unfold F64.ceil. rewrite Ev. discriminate.
  - unfold F64.ceil. rewrite Ev. discriminate.
  - destruct H as [H | H]; [discriminate|]. injection H as ->.
    destruct (F64Signs.ceil_positive v m e Ev) as (k & -> & Hk).
    intros Htop.
    destruct ((Np.intp_min <=? k)%Z && (k <=? Np.intp_max_as_double)%Z) eqn:Er;
      [|discriminate].
    apply andb_prop in Er. destruct Er as [_ Er]. apply Z.leb_le in Er.
    unfold Np.intp_max_as_double in Er.
    assert (Hk63 : k <> (2 ^ 63)%Z) by (intros ->; now apply Htop).
    cbn [andb negb Py.bind]. rewrite to_intp_in_range by lia.
    intros E. injection E as <-.
    destruct (Z.to_nat k) as [|[|c]] eqn:Ek; [lia | |]; cbn; eauto.
Qed.

(** The quotient [delta / (delta / d)] of [np.arange] called with the step
    [delta / d]: its sign is the sign of [d]. *)
Lemma quotient_sign delta d s :
  sign_of (Prim2SF d) = Some s ->
  is_nan (delta / (delta / d)) = true \/
  sign_of (Prim2SF (delta / (delta / d))) = Some s.
Proof.
  intros Hd.
  destruct (F64Signs.sign_or_nan delta) as [Hn | [sd Hs]].
  - left. now apply F64Signs.div_nan_l.
  - destruct (F64Signs.div_sign delta d sd s Hs Hd) as [Hn | Hstep].
    + left. now apply F64Signs.div_nan_r.
    + destruct (F64Signs.div_sign delta (delta / d) sd (xorb sd s) Hs Hstep)
        as [Hn | Hv]; [now left | right].
      rewrite Hv. now destruct sd, s.
Qed.

(** With a negative number of steps a range from [start] to [stop] with
    step [(stop - start) / n] has no element. *)
Lemma arange_negative_steps start stop delta n step :
  (n < 0)%Z -> delta = stop - start ->
  F64.py_div_int delta n = Ok step ->
  Py.raises (Np.arange start stop step) = true \/ Np.arange start stop step = Ok [].
Proof.
  intros Hn -> E. unfold F64.py_div_int in E.
  destruct (is_infinity _); [discriminate|].
  destruct (_ =? 0); [discriminate|]. injection E as <-.
  apply arange_backwards, quotient_sign.
  pose proof (F64Signs.of_Z_cases n) as H.
  destruct (Prim2SF (F64.of_Z n)) as [s|s| |s m e]; cbn [sign_of].
  - lia.
  - destruct H as [-> _]. f_equal. now apply Z.ltb_lt.
  - contradiction.
  - destruct H as [_ ->]. f_equal. now apply Z.ltb_lt.
Qed.

End ArangeFacts.

Module ScheduleEdges.

Open Scope float_scope.

Lemma sub_self b : is_finite b = true -> b - b = 0.
Proof.
  rewrite F64Signs.is_finite_spec. intros H. apply Prim2SF_inj.
  rewrite sub_spec. change (Prim2SF 0) with (S754_zero false).
  destruct (Prim2SF b) as [s|s| |s m e]; try discriminate.
  - now destruct s.
  - unfold SF64sub. cbn [SFsub]. rewrite Z.sub_diag. reflexivity.
Qed.

(** A zero dividend over a number that is neither zero nor a NaN is a zero. *)
Lemma zero_div x d :
  (x =? 0) = true -> (d =? 0) = false -> is_nan d = false ->
  (x / d =? 0) = true.
Proof.
  rewrite !F64Signs.eqb_zero_spec, F64Facts.is_nan_spec, div_spec.
  destruct (Prim2SF x); try discriminate.
  destruct (Prim2SF d); try discriminate; reflexivity.
Qed.

Lemma of_Z_not_nan n : is_nan (F64.of_Z n) = false.
Proof.
  rewrite F64Facts.is_nan_spec. pose proof (F64Signs.of_Z_cases n) as H.
  destruct (Prim2SF (F64.of_Z n)); try reflexivity. contradiction.
Qed.

Lemma of_Z_finite n : (Z.abs n < 2 ^ 1023)%Z -> is_infinity (F64.of_Z n) = false.
Proof.
  intros Hn. rewrite F64Signs.is_infinity_spec.
  pose proof (F64Signs.of_Z_cases n) as H.
  destruct (Prim2SF (F64.of_Z n)); try reflexivity. lia.
Qed.

Lemma of_Z_nonzero n : n <> 0%Z -> (F64.of_Z n =? 0) = false.
Proof.
  intros Hn. rewrite F64Signs.eqb_zero_spec.
  pose proof (F64Signs.of_Z_cases n) as H.
  destruct (Prim2SF (F64.of_Z n)); try reflexivity. lia.
Qed.

(** The step of a range between equal endpoints is a zero, and NumPy's
    length computation divides by it. *)
Lemma arange_equal_endpoints b n :
  is_finite b = true -> (Z.abs n < 2 ^ 1023)%Z ->
  (step <- F64.py_div_int (b - b) n ;; Np.arange b b step)
  = Raise ZeroDivisionError.
Proof.
  intros Hb Hn. unfold F64.py_div_int. rewrite of_Z_finite by assumption.
  destruct (F64.of_Z n =? 0) eqn:Ed; [reflexivity|]. cbn [Py.bind].
  unfold Np.arange, Np.arange_length, F64.py_div.
  rewrite (zero_div (b - b) (F64.of_Z n)); [reflexivity | | exact Ed | apply of_Z_not_nan].
  now rewrite sub_self.
Qed.

Lemma sub_not_finite x y :
  is_finite x && is_finite y = false -> is_finite (x - y) = false.
Proof.
  rewrite !F64Signs.is_finite_spec, sub_spec. unfold SF64sub.
  destruct (Prim2SF x) as [sx|sx| |sx mx ex], (Prim2SF y) as [sy|sy| |sy my ey];
    cbn [SFsub andb]; intros H; try discriminate; try reflexivity;
    try (now destruct sx, sy).
Qed.

(** A difference that is not finite, stepped by a finite fraction of
    itself, has no length. *)
Lemma arange_not_finite start stop n :
  is_finite (stop - start) = false -> n <> 0%Z -> (Z.abs n < 2 ^ 1023)%Z ->
  (step <- F64.py_div_int (stop - start) n ;; Np.arange start stop step)
  = Raise ValueError.
Proof.
  intros Hd Hn Hb. unfold F64.py_div_int.
  rewrite of_Z_finite, of_Z_nonzero by assumption. cbn [Py.bind].
  set (delta := stop - start) in *. set (step := delta / F64.of_Z n).
  assert (Hstep : is_finite step = false /\ is_nan (delta / step) = true).
  { rewrite F64Signs.is_finite_spec, F64Facts.is_nan_spec, div_spec.
    unfold step. rewrite div_spec.
    rewrite F64Signs.is_finite_spec in Hd.
    pose proof (F64Signs.of_Z_cases n) as H.
    pose proof (of_Z_finite n Hb) as Hi. rewrite F64Signs.is_infinity_spec in Hi.
    destruct (Prim2SF delta) as [s|s| |s m e]; try discriminate;
      destruct (Prim2SF (F64.of_Z n)) as [s'|s'| |s' m' e']; try discriminate;
      try contradiction; try lia; split; reflexivity. }
  destruct Hstep as [Hfin Hnan].
  unfold Np.arange, Np.arange_length, F64.py_div. fold delta.
  assert (Hz : (step =? 0) = false).
  { rewrite F64Signs.eqb_zero_spec. rewrite F64Signs.is_finite_spec in Hfin.
    now destruct (Prim2SF step). }
  rewrite Hz. cbn [Py.bind]. unfold F64.ceil.
  rewrite F64Facts.is_nan_spec in Hnan.
  destruct (Prim2SF (delta / step)); try discriminate. reflexivity.
Qed.

Lemma mul_nan_l x y : is_nan x = true -> is_nan (x * y) = true.
Proof.
  rewrite !F64Facts.is_nan_spec, mul_spec.
  destruct (Prim2SF x); try discriminate. reflexivity.
Qed.

Lemma mul_nan_r x y : is_nan y = true -> is_nan (x * y) = true.
Proof.
  rewrite !F64Facts.is_nan_spec, mul_spec.
  destruct (Prim2SF y); try discriminate. now destruct (Prim2SF x).
Qed.

Lemma add_nan_l x y : is_nan x = true -> is_nan (x + y) = true.
Proof.
  rewrite !F64Facts.is_nan_spec, add_spec.
  destruct (Prim2SF x); try discriminate. reflexivity.
Qed.

Lemma add_nan_r x y : is_nan y = true -> is_nan (x + y) = true.
Proof.
  rewrite !F64Facts.is_nan_spec, add_spec.
  destruct (Prim2SF y); try discriminate. now destruct (Prim2SF x).
Qed.

Lemma sub_nan_l x y : is_nan x = true -> is_nan (x - y) = true.
Proof.
  rewrite !F64Facts.is_nan_spec, sub_spec.
  destruct (Prim2SF x); try discriminate. reflexivity.
Qed.

Lemma sub_nan_r x y : is_nan y = true -> is_nan (x - y) = true.
Proof.
  rewrite !F64Facts.is_nan_spec, sub_spec.
  destruct (Prim2SF y); try discriminate. now destruct (Prim2SF x).
Qed.

Lemma cumprod_from_nan acc a :
  is_nan acc = true -> Forall (fun x => is_nan x = true) (Np.cumprod_from acc a).
Proof.
  revert acc. induction a as [|x a IH]; intros acc H; cbn [Np.cumprod_from].
  - constructor.
  - constructor; [now apply mul_nan_l | apply IH; now apply mul_nan_l].
Qed.

Lemma cumprod_nan a :
  Forall (fun x => is_nan x = true) a ->
  Forall (fun x => is_nan x = true) (Np.cumprod a).
Proof.
  intros H. destruct a as [|x a]; [constructor|].
  inversion H as [|? ? Hx _]; subst. cbn [Np.cumprod].
  constructor; [exact Hx | now apply cumprod_from_nan].
Qed.

(** The sum [0 * d + b] is [b] up to the sign of a zero. *)
Lemma zero_mul_add d b :
  is_finite d = true -> is_finite b = true -> (0 * d + b =? b) = true.
Proof.
  rewrite !F64Signs.is_finite_spec, eqb_spec, add_spec, mul_spec.
  change (Prim2SF 0) with (S754_zero false).
  destruct (Prim2SF d) as [sd|sd| |sd md ed]; try discriminate; intros _;
    destruct (Prim2SF b) as [sb|sb| |sb mb eb]; try discriminate; intros _;
    cbn [SF64mul SFmul SF64add SFadd xorb]; unfold SFeqb;
    try (now destruct sd, sb);
    rewrite F64Facts.SFcompare_refl by discriminate; reflexivity.
Qed.

End ScheduleEdges.

Section ScheduleInversion.

Open Scope float_scope.

Variable pf : platform.

Lemma compute_beta_alpha_parts nsteps b0 b1 g0 g1 beta alpha sigma :
  compute_beta_alpha nsteps b0 b1 g0 g1 = Ok (beta, alpha, sigma) ->
  exists beta_step gamma_step,
    F64.py_div_int (b1 - b0) nsteps = Ok beta_step /\
    Np.arange b0 b1 beta_step = Ok beta /\
    F64.py_div_int (g1 - g0) nsteps = Ok gamma_step /\
    Np.arange g0 g1 gamma_step = Ok sigma /\
    alpha = Np.cumprod (map (fun b => 1 - b) beta).
Proof.
  unfold compute_beta_alpha, Py.bind.
  destruct (F64.py_div_int (b1 - b0) nsteps) as [bs|]; [|discriminate].
  destruct (Np.arange b0 b1 bs) as [bl|] eqn:Ebeta; [|discriminate].
  destruct (F64.py_div_int (g1 - g0) nsteps) as [gs|]; [|discriminate].
  destruct (Np.arange g0 g1 gs) as [gl|] eqn:Egamma; [|discriminate].
  intros H; injection H as <- <- <-. exists bs, gs. repeat split; assumption.
Qed.

Lemma compute_beta_alpha2_parts nsteps b0 b1 g0 g1 beta alpha sigma :
  compute_beta_alpha2 pf nsteps b0 b1 g0 g1 = Ok (beta, alpha, sigma) ->
  exists unit_step u gamma_step,
    F64.py_div_int 1 nsteps = Ok unit_step /\
    Np.arange 0 1 unit_step = Ok u /\
    beta = map (fun x => np_sin pf ((F64.pi / 2) * x) * (b1 - b0) + b0) u /\
    F64.py_div_int (g1 - g0) nsteps = Ok gamma_step /\
    Np.arange g0 g1 gamma_step = Ok sigma /\
    alpha = Np.cumprod (map (fun b => 1 - b) beta).
Proof.
  unfold compute_beta_alpha2, Py.bind.
  destruct (F64.py_div_int 1 nsteps) as [us|]; [|discriminate].
  destruct (Np.arange 0 1 us) as [u|] eqn:Eu; [|discriminate].
  destruct (F64.py_div_int (g1 - g0) nsteps) as [gs|]; [|discriminate].
  destruct (Np.arange g0 g1 gs) as [gl|] eqn:Egamma; [|discriminate].
  intros H; injection H as <- <- <-. exists us, u, gs.
  rewrite map_map. repeat split; assumption.
Qed.

End ScheduleInversion.

(** X1.  A negative [n_steps] never yields a schedule: each generator
    either raises or returns three empty sequences. *)
Theorem negative_steps_give_nothing pf nsteps b0 b1 g0 g1 :
  (nsteps < 0)%Z ->
  (Py.raises (compute_beta_alpha nsteps b0 b1 g0 g1) = true \/
   compute_beta_alpha nsteps b0 b1 g0 g1 = Ok ([], [], [])) /\
  (Py.raises (compute_beta_alpha2 pf nsteps b0 b1 g0 g1) = true \/
   compute_beta_alpha2 pf nsteps b0 b1 g0 g1 = Ok ([], [], [])).
Proof.
  intros Hn.
  assert (Hstep : forall x0 x1 delta s,
             delta = (x1 - x0)%float -> F64.py_div_int delta nsteps = Ok s ->
             Py.raises (Np.arange x0 x1 s) = true \/ Np.arange x0 x1 s = Ok []).
  { intros x0 x1 delta s Hd E.
    exact (ArangeFacts.arange_negative_steps x0 x1 delta nsteps s Hn Hd E). }
  split.
  - unfold compute_beta_alpha.
    destruct (F64.py_div_int (b1 - b0) nsteps) as [s|] eqn:E; [|now left].
    cbn [Py.bind].
    destruct (Hstep b0 b1 _ s eq_refl E) as [H | H].
    { left. destruct (Np.arange b0 b1 s); [discriminate | reflexivity]. }
    rewrite H. cbn [Py.bind].
    destruct (F64.py_div_int (g1 - g0) nsteps) as [gs|] eqn:Eg; [|now left].
    cbn [Py.bind].
    destruct (Hstep g0 g1 _ gs eq_refl Eg) as [H' | H'].
    { left. destruct (Np.arange g0 g1 gs); [discriminate | reflexivity]. }
    rewrite H'. now right.
  - unfold compute_beta_alpha2.
    destruct (F64.py_div_int 1 nsteps) as [s|] eqn:E; [|now left].
    cbn [Py.bind].
    destruct (Hstep 0%float 1%float 1%float s eq_refl E) as [H | H].
    { left. destruct (Np.arange 0 1 s); [discriminate | reflexivity]. }
    rewrite H. cbn [Py.bind]. cbv zeta.
    destruct (F64.py_div_int (g1 - g0) nsteps) as [gs|] eqn:Eg; [|now left].
    cbn [Py.bind].
    destruct (Hstep g0 g1 _ gs eq_refl Eg) as [H' | H'].
    { left. destruct (Np.arange g0 g1 gs); [discriminate | reflexivity]. }
    rewrite H'. now right.
Qed.

Lemma negative_steps_give_nothing_witness :
  compute_beta_alpha (-5) 0.0001 0.2 gamma_start_default gamma_end_default
  = Ok ([], [], []) /\
  compute_beta_alpha2 taylor_platform (-5) 0.0001 0.2
    gamma_start_default gamma_end_default
  = Ok ([], [], []).
Proof.
  destruct (negative_steps_give_nothing taylor_platform (-5) 0.0001 0.2
              gamma_start_default gamma_end_default) as [[H1 | H1] [H2 | H2]];
    [lia | | | |];
    try (vm_compute in H1; discriminate H1);
    try (vm_compute in H2; discriminate H2).
  exact (conj H1 H2).
Defined.

(** X2.  Equal endpoints cannot be scheduled.  With [beta_start = beta_end]
    the linear generator raises [ZeroDivisionError]: the step is zero and
    [np.arange] divides by it.  With [gamma_start = gamma_end] both
    generators raise. *)
Theorem equal_endpoints_raise pf nsteps b x0 x1 :
  is_finite b = true -> (Z.abs nsteps < 2 ^ 1023)%Z ->
  compute_beta_alpha nsteps b b x0 x1 = Raise ZeroDivisionError /\
  Py.raises (compute_beta_alpha nsteps x0 x1 b b) = true /\
  Py.raises (compute_beta_alpha2 pf nsteps x0 x1 b b) = true.
Proof.
  intros Hb Hn.
  pose proof (ScheduleEdges.arange_equal_endpoints b nsteps Hb Hn) as H.
  split; [|split].
  - unfold compute_beta_alpha.
    destruct (F64.py_div_int (b - b) nsteps) as [s|e]; cbn [Py.bind] in *.
    + now rewrite H.
    + injection H as ->. reflexivity.
  - unfold compute_beta_alpha.
    destruct (F64.py_div_int (x1 - x0) nsteps) as [s|e]; [|reflexivity].
    cbn [Py.bind]. destruct (Np.arange x0 x1 s) as [beta|e]; [|reflexivity].
    cbn [Py.bind]. destruct (F64.py_div_int (b - b) nsteps) as [gs|e];
      cbn [Py.bind] in *; [now rewrite H | reflexivity].
  - unfold compute_beta_alpha2.
    destruct (F64.py_div_int 1 nsteps) as [s|e]; [|reflexivity].
    cbn [Py.bind]. destruct (Np.arange 0 1 s) as [u|e]; [|reflexivity].
    cbn [Py.bind]. cbv zeta.
    destruct (F64.py_div_int (b - b) nsteps) as [gs|e];
      cbn [Py.bind] in *; [now rewrite H | reflexivity].
Qed.

Lemma equal_endpoints_raise_witness :
  compute_beta_alpha 50 0.1 0.1 gamma_start_default gamma_end_default
  = Raise ZeroDivisionError /\
  Py.raises (compute_beta_alpha 50 0.0001 0.2 0.1 0.1) = true /\
  Py.raises (compute_beta_alpha2 taylor_platform 50 0.0001 0.2 0.1 0.1) = true.
Proof.
  apply (equal_endpoints_raise taylor_platform 50 0.1 gamma_start_default
           gamma_end_default); [reflexivity | vm_compute; reflexivity].
Defined.

(** X3.  An endpoint of beta that is an infinity or a NaN makes the linear
    generator raise [ValueError]: [np.arange] cannot compute a length. *)
Theorem linear_schedule_rejects_non_finite nsteps b0 b1 g0 g1 :
  is_finite b0 && is_finite b1 = false ->
  nsteps <> 0%Z -> (Z.abs nsteps < 2 ^ 1023)%Z ->
  compute_beta_alpha nsteps b0 b1 g0 g1 = Raise ValueError.
Proof.
  intros Hb Hn Hsize.
  assert (Hd : is_finite (b1 - b0) = false).
  { apply ScheduleEdges.sub_not_finite. now rewrite andb_comm. }
  pose proof (ScheduleEdges.arange_not_finite b0 b1 nsteps Hd Hn Hsize) as H.
  unfold compute_beta_alpha.
  destruct (F64.py_div_int (b1 - b0) nsteps) as [s|e]; cbn [Py.bind] in *.
  - now rewrite H.
  - injection H as ->. reflexivity.
Qed.

Lemma linear_schedule_rejects_non_finite_witness :
  compute_beta_alpha 50 0.0001 infinity gamma_start_default gamma_end_default
  = Raise ValueError /\
  compute_beta_alpha 50 nan 0.2 gamma_start_default gamma_end_default
  = Raise ValueError.
Proof.
  split.
  - apply (linear_schedule_rejects_non_finite 50 0.0001 infinity);
      [reflexivity | discriminate | vm_compute; reflexivity].
  - apply (linear_schedule_rejects_non_finite 50 nan 0.2);
      [reflexivity | discriminate | vm_compute; reflexivity].
Defined.

(** X4.  A NaN endpoint of beta does not stop the sine generator: when it
    returns, every beta and every alpha is a NaN. *)
Theorem sine_schedule_propagates_nan pf nsteps b0 b1 g0 g1 beta alpha sigma :
  is_nan b0 || is_nan b1 = true ->
  compute_beta_alpha2 pf nsteps b0 b1 g0 g1 = Ok (beta, alpha, sigma) ->
  Forall (fun x => is_nan x = true) beta /\
  Forall (fun x => is_nan x = true) alpha.
Proof.
  intros Hb H.
  destruct (compute_beta_alpha2_parts pf _ _ _ _ _ _ _ _ H)
    as (us & u & gs & _ & _ & Hbeta & _ & _ & Halpha).
  assert (Hall : Forall (fun x => is_nan x = true) beta).
  { rewrite Hbeta. apply Forall_forall. intros x Hx.
    apply in_map_iff in Hx. destruct Hx as (y & <- & _).
    apply orb_prop in Hb. destruct Hb as [Hb | Hb].
    - now apply ScheduleEdges.add_nan_r.
    - apply ScheduleEdges.add_nan_l, ScheduleEdges.mul_nan_r.
      now apply ScheduleEdges.sub_nan_l. }
  split; [exact Hall|].
  rewrite Halpha. apply ScheduleEdges.cumprod_nan.
  apply Forall_forall. intros x Hx. apply in_map_iff in Hx.
  destruct Hx as (y & <- & Hy). apply ScheduleEdges.sub_nan_r.
  rewrite Forall_forall in Hall. now apply Hall.
Qed.

Lemma sine_schedule_propagates_nan_witness :
  exists beta alpha sigma,
    compute_beta_alpha2 taylor_platform 3 nan 0.2
      gamma_start_default gamma_end_default = Ok (beta, alpha, sigma) /\
    length beta = 3%nat /\
    Forall (fun x => is_nan x = true) beta /\
    Forall (fun x => is_nan x = true) alpha.
Proof.
  destruct (compute_beta_alpha2 taylor_platform 3 nan 0.2
              gamma_start_default gamma_end_default) as [[[beta alpha] sigma]|e] eqn:E;
    [|vm_compute in E; discriminate E].
  exists beta, alpha, sigma. split; [reflexivity|]. split.
  - vm_compute in E. injection E as <- _ _. reflexivity.
  - exact (sine_schedule_propagates_nan taylor_platform 3 nan 0.2
             gamma_start_default gamma_end_default beta alpha sigma eq_refl E).
Defined.

(** X7.  For every [n_steps] from 1 to 1000 the sine generator, called with
    the default gamma endpoints as the training driver calls it, returns,
    whatever the endpoints of beta and the platform's sine; beta and alpha
    have [n_steps + 1] elements for the step counts of [sine_long_steps]
    and [n_steps] elements for the others, and sigma has [n_steps + 1]
    elements for the step counts of [gamma_long_steps]. *)
Theorem sine_schedule_lengths_to_1000 pf nsteps b0 b1 :
  (1 <= nsteps <= 1000)%Z ->
  schedule_lengths
    (compute_beta_alpha2 pf nsteps b0 b1 gamma_start_default gamma_end_default)
  = Some (steps_or_one_more sine_long_steps nsteps,
          steps_or_one_more sine_long_steps nsteps,
          steps_or_one_more gamma_long_steps nsteps).
Proof.
  intros Hn. rewrite compute_beta_alpha2_lengths.
  set (check := fun n : Z =>
    match (s <- F64.py_div_int 1 n ;; Np.arange_length 0 1 s),
          (s <- F64.py_div_int (gamma_end_default - gamma_start_default) n ;;
           Np.arange_length gamma_start_default gamma_end_default s)
    with
    | Ok lb, Ok lg =>
        (Z.to_nat lb =? steps_or_one_more sine_long_steps n)%nat &&
        (Z.to_nat lg =? steps_or_one_more gamma_long_steps n)%nat
    | _, _ => false
    end).
  assert (Hall : forallb check (map Z.of_nat (seq 1 1000)) = true)
    by (vm_compute; reflexivity).
  rewrite forallb_forall in Hall.
  assert (Hc : check nsteps = true).
  { apply Hall. apply in_map_iff. exists (Z.to_nat nsteps).
    split; [lia | apply in_seq; lia]. }
  unfold check in Hc.
  destruct (s <- F64.py_div_int 1 nsteps ;; Np.arange_length 0 1 s) as [lb|];
    [|discriminate].
  destruct (s <- F64.py_div_int (gamma_end_default - gamma_start_default) nsteps ;;
            Np.arange_length gamma_start_default gamma_end_default s) as [lg|];
    [|discriminate].
  apply andb_prop in Hc. destruct Hc as [H1 H2].
  apply Nat.eqb_eq in H1, H2. now rewrite H1, H2.
Qed.

Lemma sine_schedule_lengths_to_1000_witness :
  schedule_lengths
    (compute_beta_alpha2 taylor_platform 50 0.0001 0.2
       gamma_start_default gamma_end_default) = Some (50, 50, 50)%nat /\
  schedule_lengths
    (compute_beta_alpha2 taylor_platform 253 0.0001 0.2
       gamma_start_default gamma_end_default) = Some (254, 254, 254)%nat.
Proof.
  split.
  - apply (sine_schedule_lengths_to_1000 taylor_platform 50 0.0001 0.2). lia.
  - apply (sine_schedule_lengths_to_1000 taylor_platform 253 0.0001 0.2). lia.
Defined.

(** * Edge cases of the position encoder *)

Module TableFacts.

(** The two strided assignments together overwrite every slot of a row of
    even length: what was in the row does not matter. *)
Lemma assign_both {A : Type} (s1 s2 dst : list A) :
  length s2 = length s1 -> length dst = (2 * length s1)%nat ->
  Np2.assign_stride2 true (Np2.assign_stride2 false dst s1) s2 =
  flat_map (fun p => [fst p; snd p]) (combine s1 s2).
Proof.
  revert s2 dst. induction s1 as [|a s1 IH]; intros s2 dst H2 Hd.
  - destruct dst; [reflexivity | discriminate].
  - destruct s2 as [|b s2]; [discriminate|].
    destruct dst as [|d0 [|d1 dst]]; try (simpl in Hd; lia).
    cbn [Np2.assign_stride2 combine flat_map fst snd app]. do 2 f_equal.
    apply IH; simpl in *; lia.
Qed.

Lemma even_half D : (0 <= D)%Z -> Z.even D = true ->
  Z.to_nat D = (2 * Z.to_nat (D / 2))%nat.
Proof.
  intros H0 He. apply Z.even_spec in He. destruct He as [k ->].
  rewrite Z.mul_comm, Z.div_mul by lia. lia.
Qed.

(** A row of [pos_emb]: the sine and the cosine of each pair, side by
    side. *)
Lemma encoding_row_pairs pf D r :
  (0 <= D)%Z -> Z.even D = true ->
  encoding_row pf D r =
  flat_map (fun i => [np_sin pf (angle pf D (Z.of_nat r) i);
                      np_cos pf (angle pf D (Z.of_nat r) i)])
           (Np2.arange_int (D / 2)).
Proof.
  intros H0 He. unfold encoding_row.
  rewrite assign_both.
  - rewrite Np2Facts.combine_map_same, flat_map_concat_map, map_map.
    now rewrite <- flat_map_concat_map.
  - now rewrite !length_map.
  - rewrite !length_map, length_seq, Np2Facts.arange_int_length.
    now apply even_half.
Qed.

Lemma stored_dims_nonneg md : (0 <= stored_dims md <-> -1 <= md)%Z.
Proof.
  unfold stored_dims. destruct (Z.even md) eqn:E; [|lia].
  destruct (Z.eq_dec md (-1)) as [-> | Hne]; [discriminate E | lia].
Qed.

Lemma stored_dims_idem md : stored_dims (stored_dims md) = stored_dims md.
Proof.
  unfold stored_dims at 1. now rewrite stored_dims_even.
Qed.

(** A block of [w] elements out of the concatenation of rows of length
    [w] is a row. *)
Lemma chunk_concat {A : Type} (rows : list (list A)) w i :
  Forall (fun r => length r = w) rows -> (i < length rows)%nat ->
  firstn w (skipn (i * w) (concat rows)) = nth i rows [].
Proof.
  revert i. induction rows as [|r rows IH]; intros i Hall Hi; [simpl in Hi; lia|].
  inversion Hall as [|? ? Hr Hrest]; subst.
  destruct i as [|i]; cbn [concat nth].
  - cbn [Nat.mul skipn]. rewrite firstn_app, Nat.sub_diag, firstn_all.
    cbn [firstn]. apply app_nil_r.
  - rewrite skipn_app.
    replace (skipn (S i * length r) r) with (@nil A)
      by (symmetry; apply skipn_all2; simpl; lia).
    replace (S i * length r - length r)%nat with (i * length r)%nat by (simpl; lia).
    cbn [app]. apply IH; [assumption | simpl in Hi; lia].
Qed.

Lemma table_row_spec pf ms md dt enc i :
  PositionEncoder_init pf ms md dt = Ok enc -> (0 <= i < ms)%Z ->
  table_row enc i =
  map (Tf.astype dt) (encoding_row pf (stored_dims md) (Z.to_nat i)).
Proof.
  intros Hinit Hi.
  destruct (PositionEncoder_init_inv pf ms md dt enc Hinit)
    as (Hemb & _ & Hdims & _).
  unfold table_row. rewrite Hemb, Hdims. cbn [Tensor.data].
  rewrite (chunk_concat _ (Z.to_nat (stored_dims md)) (Z.to_nat i)).
  - rewrite (nth_indep _ []
               ((fun r => map (Tf.astype dt) (encoding_row pf (stored_dims md) r)) 0%nat))
      by (rewrite length_map, length_seq; lia).
    rewrite (map_nth (fun r => map (Tf.astype dt) (encoding_row pf (stored_dims md) r))).
    now rewrite seq_nth by lia.
  - apply Forall_forall. intros row Hrow. apply in_map_iff in Hrow.
    destruct Hrow as (r & <- & _). now rewrite length_map, encoding_row_length.
  - rewrite length_map, length_seq. lia.
Qed.

End TableFacts.

Module GatherFacts.

Lemma collect_agree {A B : Type} (g g' : A -> result B) l ys :
  (forall x y, g x = Ok y -> g' x = Ok y) ->
  Tf.collect (map g l) = Ok ys -> Tf.collect (map g' l) = Ok ys.
Proof.
  intros Hg. revert ys. induction l as [|x l IH]; intros ys; cbn [map Tf.collect].
  - trivial.
  - destruct (g x) as [y|] eqn:Ey; [|discriminate]. rewrite (Hg x y Ey).
    cbn [Py.bind]. destruct (Tf.collect (map g l)) as [zs|]; [|discriminate].
    now rewrite (IH zs eq_refl).
Qed.


End GatherFacts.

Lemma zero_one_row_length n : length (zero_one_row n) = (2 * n)%nat.
Proof.
  unfold zero_one_row.
  assert (H : forall a, length (flat_map (fun _ => [0; 1]%float) (seq a n))
                        = (2 * n)%nat).
  { induction n as [|n IH]; intros a; [reflexivity|].
    cbn [seq flat_map app length]. rewrite IH. lia. }
  apply H.
Qed.


(** X9.  The table does not depend on what [np.empty] hands out: the two
    slice assignments overwrite every element. *)
Theorem table_ignores_uninitialised_memory pf cell ms md dt :
  PositionEncoder_init
    {| np_sin := np_sin pf; np_cos := np_cos pf; np_power := np_power pf;
       np_empty_cell := cell |} ms md dt
  = PositionEncoder_init pf ms md dt.
Proof.
  set (pf' := {| np_sin := np_sin pf; np_cos := np_cos pf;
                 np_power := np_power pf; np_empty_cell := cell |}).
  rewrite !PositionEncoder_init_rows.
  destruct ((ms <? 0) || (stored_dims md <? 0))%Z eqn:E; [reflexivity|].
  apply orb_false_elim in E. destruct E as [_ E]. apply Z.ltb_ge in E.
  assert (Hrow : forall r, encoding_row pf' (stored_dims md) r =
                           encoding_row pf (stored_dims md) r).
  { intros r.
    rewrite !TableFacts.encoding_row_pairs by (assumption || apply stored_dims_even).
    reflexivity. }
  rewrite (map_ext (fun r => map (Tf.astype dt) (encoding_row pf' (stored_dims md) r))
                   (fun r => map (Tf.astype dt) (encoding_row pf (stored_dims md) r)))
    by (intros r; now rewrite Hrow).
  reflexivity.
Qed.

(** X10.  An encoder rebuilt from its own configuration is the encoder
    itself: [get_config] records the adjusted [max_dims], which the
    constructor leaves as it is. *)
Theorem config_round_trip pf ms md dt enc super_get_config :
  PositionEncoder_init pf ms md dt = Ok enc ->
  config_dtype (super_get_config enc) = dtype enc ->
  from_config pf (get_config super_get_config enc) = Ok enc /\
  config_max_dims (get_config super_get_config enc) = stored_dims md.
Proof.
  intros Hinit Hdt. unfold from_config, get_config.
  cbn [config_max_steps config_max_dims base_config]. rewrite Hdt.
  destruct (PositionEncoder_init_inv pf ms md dt enc Hinit)
    as (_ & Hsteps & Hdims & Hdtype & _).
  rewrite Hsteps, Hdims, Hdtype. split; [|reflexivity].
  rewrite PositionEncoder_init_rows in Hinit |- *.
  rewrite TableFacts.stored_dims_idem. exact Hinit.
Qed.

Lemma config_round_trip_witness :
  exists enc,
    PositionEncoder_init taylor_platform 3 5 default_dtype = Ok enc /\
    config_max_dims
      (get_config (fun self => {| config_name := String.EmptyString;
                                  config_trainable := true;
                                  config_dtype := dtype self |}) enc) = 6%Z /\
    from_config taylor_platform
      (get_config (fun self => {| config_name := String.EmptyString;
                                  config_trainable := true;
                                  config_dtype := dtype self |}) enc) = Ok enc.
Proof.
  destruct (PositionEncoder_init_ok taylor_platform 3 5 default_dtype)
    as [enc Hinit]; [lia | lia |].
  exists enc. split; [exact Hinit|].
  destruct (config_round_trip taylor_platform 3 5 default_dtype enc
              (fun self => {| config_name := String.EmptyString;
                              config_trainable := true;
                              config_dtype := dtype self |}) Hinit eq_refl)
    as [Hfrom Hdims].
  split; [exact Hdims | exact Hfrom].
Defined.

(** X11.  On a platform with [sin(0) = 0], [cos(0) = 1] and positive
    powers of 10000, for positive [max_steps] and [max_dims], row 0 of the
    table is [[0, 1, 0, 1, ...]] whatever the number of dimensions and the
    dtype, and so is the lookup of step 0. *)
Theorem first_row_is_zero_one pf ms md dt dev enc :
  np_sin pf 0 = 0%float -> np_cos pf 0 = 1%float ->
  (forall i, (0 <= i < stored_dims md / 2)%Z ->
     (0 <? np_power pf (F64.of_Z 10000)
             (F64.of_Z (2 * i) / F64.of_Z (stored_dims md)))%float = true) ->
  (0 < ms)%Z -> (0 < md)%Z ->
  PositionEncoder_init pf ms md dt = Ok enc ->
  table_row enc 0 = zero_one_row (Z.to_nat (stored_dims md / 2)) /\
  call dev enc (Tensor.vector [0%Z]) =
    Ok (Tensor.vector (zero_one_row (Z.to_nat (stored_dims md / 2)))).
Proof.
  intros Hsin Hcos Hpow Hms Hmd Hinit.
  destruct (PositionEncoder_init_inv pf ms md dt enc Hinit)
    as (Hemb & _ & Hdims & _ & _).
  assert (HD : (0 <= stored_dims md)%Z)
    by (pose proof (stored_dims_positive md Hmd); lia).
  assert (Hrow : table_row enc 0 = zero_one_row (Z.to_nat (stored_dims md / 2))).
  { rewrite (TableFacts.table_row_spec pf ms md dt) by (assumption || lia).
    rewrite TableFacts.encoding_row_pairs by (assumption || apply stored_dims_even).
    unfold zero_one_row, Np2.arange_int.
    rewrite !flat_map_concat_map, concat_map, !map_map. f_equal.
    apply map_ext_in. intros k Hk. apply in_seq in Hk.
    change (Z.of_nat (Z.to_nat 0)) with 0%Z.
    rewrite (angle_step_zero pf) by (apply Hpow; lia).
    rewrite Hsin, Hcos. cbn [map].
    now rewrite F64Facts.astype_zero, F64Facts.astype_one. }
  split; [exact Hrow|].
  change (Tensor.vector [0%Z]) with (Tensor.mk ([] ++ [1%nat]) [0%Z]).
  rewrite (call_in_range pf ms md dt);
    [| assumption | assumption | reflexivity | repeat constructor; lia].
  cbn [map concat app]. rewrite app_nil_r, Hrow, Hdims. unfold Tensor.vector.
  do 2 f_equal. rewrite zero_one_row_length. f_equal.
  apply (TableFacts.even_half (stored_dims md) HD (stored_dims_even md)).
Qed.

Lemma first_row_is_zero_one_witness :
  exists enc,
    PositionEncoder_init taylor_platform 10 5 default_dtype = Ok enc /\
    table_row enc 0 = [0; 1; 0; 1; 0; 1]%float /\
    call Tf.CPU enc (Tensor.vector [0%Z])
    = Ok (Tensor.vector [0; 1; 0; 1; 0; 1]%float).
Proof.
  destruct (PositionEncoder_init_ok taylor_platform 10 5 default_dtype)
    as [enc Hinit]; [lia | lia |].
  exists enc. split; [exact Hinit|].
  apply (first_row_is_zero_one taylor_platform 10 5 default_dtype Tf.CPU enc);
    try reflexivity; try exact Hinit.
  intros i Hi. change (stored_dims 5 / 2)%Z with 3%Z in Hi.
  assert (Hcases : i = 0%Z \/ i = 1%Z \/ i = 2%Z) by lia.
  destruct Hcases as [-> | [-> | ->]]; reflexivity.
Defined.

(** X12.  For a positive [max_dims], looking up every step in order
    returns the table itself. *)
Theorem lookup_of_all_steps_is_the_table pf ms md dt dev enc :
  (0 < md)%Z ->
  PositionEncoder_init pf ms md dt = Ok enc ->
  call dev enc (Tensor.mk [Z.to_nat ms; 1%nat] (Np2.arange_int ms))
  = Ok (embedding enc).
Proof.
  intros Hmd Hinit.
  destruct (PositionEncoder_init_inv pf ms md dt enc Hinit)
    as (Hemb & _ & Hdims & _ & Hms).
  change [Z.to_nat ms; 1%nat] with ([Z.to_nat ms] ++ [1%nat]).
  rewrite (call_in_range pf ms md dt); [| assumption | assumption | |].
  - rewrite Hemb, Hdims. cbn [app]. do 2 f_equal.
    unfold Np2.arange_int. rewrite map_map. f_equal.
    apply map_ext_in. intros r Hr. apply in_seq in Hr.
    rewrite (TableFacts.table_row_spec pf ms md dt) by (assumption || lia).
    now rewrite Nat2Z.id.
  - rewrite Np2Facts.arange_int_length. cbn. lia.
  - apply Forall_forall. intros i Hi. unfold Np2.arange_int in Hi.
    apply in_map_iff in Hi. destruct Hi as (r & <- & Hr). apply in_seq in Hr. lia.
Qed.

Lemma lookup_of_all_steps_is_the_table_witness :
  exists enc,
    PositionEncoder_init taylor_platform 3 4 default_dtype = Ok enc /\
    call Tf.GPU enc (Tensor.matrix [[0]; [1]; [2]]%Z) = Ok (embedding enc).
Proof.
  destruct (PositionEncoder_init_ok taylor_platform 3 4 default_dtype)
    as [enc Hinit]; [lia | lia |].
  exists enc. split; [exact Hinit|].
  exact (lookup_of_all_steps_is_the_table taylor_platform 3 4 default_dtype
           Tf.GPU enc eq_refl Hinit).
Defined.

(** X13.  The device matters only for indices out of range: whatever the
    CPU lookup returns, the GPU lookup returns too. *)
Theorem gpu_agrees_with_cpu self indices out :
  call Tf.CPU self indices = Ok out -> call Tf.GPU self indices = Ok out.
Proof.
  unfold call, Tf.gather_nd.
  destruct (rev (Tensor.shape indices)) as [|K outer_rev]; [discriminate|].
  destruct ((length (Tensor.shape (positional_embedding self)) =? 0) ||
            (length (Tensor.shape (positional_embedding self)) <? K))%nat;
    [discriminate|].
  destruct ((0 <? Tensor.numel (rev outer_rev)) &&
            (Tensor.numel (Tensor.shape (positional_embedding self)) =? 0))%nat;
    [discriminate|].
  match goal with
  | |- Py.bind (Tf.collect (map ?g ?l)) _ = _ ->
       Py.bind (Tf.collect (map ?g' ?l)) _ = _ =>
      destruct (Tf.collect (map g l)) as [slices|] eqn:E; [|discriminate];
      rewrite (GatherFacts.collect_agree g g' l slices); [trivial | | exact E]
  end.
  intros j y. cbv beta.
  destruct (Tf.flat_offset _ _ 0); [trivial | discriminate].
Qed.

Lemma gpu_agrees_with_cpu_witness :
  exists enc,
    PositionEncoder_init taylor_platform 3 4 default_dtype = Ok enc /\
    call Tf.GPU enc (Tensor.matrix [[2]; [0]]%Z)
    = Ok (Tensor.mk [2; 4]%nat (table_row enc 2 ++ table_row enc 0 ++ [])).
Proof.
  destruct (PositionEncoder_init_ok taylor_platform 3 4 default_dtype)
    as [enc Hinit]; [lia | lia |].
  exists enc. split; [exact Hinit|].
  apply gpu_agrees_with_cpu.
  change (Tensor.matrix [[2]; [0]]%Z) with (Tensor.mk ([2%nat] ++ [1%nat]) [2; 0]%Z).
  rewrite (call_in_range taylor_platform 3 4 default_dtype);
    [| reflexivity | exact Hinit | reflexivity | repeat constructor; lia].
  destruct (PositionEncoder_init_inv taylor_platform _ _ _ _ Hinit)
    as (_ & _ & Hdims & _).
  rewrite Hdims. reflexivity.
Defined.


(** * The range of the converter *)

Module RangeFacts.

Open Scope float_scope.

Lemma half_keeps_nan x : is_nan (x / 2) = is_nan x.
Proof.
  rewrite !F64Facts.is_nan_spec, div_spec.
  change (Prim2SF 2) with (S754_finite false 4503599627370496 (-51)).
  destruct (Prim2SF x) as [s|s| |s m e]; try reflexivity.
  pose proof (F64Signs.SFdiv_finite_sign s m e false 4503599627370496 (-51)) as H.
  destruct (SF64div _ _); try reflexivity. discriminate H.
Qed.

Lemma add_half_keeps_nan x : is_nan (x + 0.5) = is_nan x.
Proof.
  rewrite !F64Facts.is_nan_spec, add_spec.
  change (Prim2SF 0.5) with (S754_finite false 4503599627370496 (-53)).
  destruct (Prim2SF x) as [s|s| |s m e]; try reflexivity.
  unfold SF64add. cbn [SFadd].
  match goal with
  | |- context [binary_normalize prec emax ?z ?e false] =>
      destruct z as [|p|p]; cbn [binary_normalize]; [reflexivity | |];
      [pose proof (SF.binary_round_sign prec emax false p e) as H
      |pose proof (SF.binary_round_sign prec emax true p e) as H];
      destruct (binary_round prec emax _ p e); try reflexivity; discriminate H
  end.
Qed.

Lemma to_binary32_keeps_nan x : is_nan (F64.to_binary32 x) = is_nan x.
Proof.
  unfold F64.to_binary32, F64.round_to.
  destruct (Prim2SF x) as [s|s| |s m e] eqn:E; try reflexivity.
  rewrite (F64Facts.is_nan_spec x), E.
  pose proof (SF.binary_round_sign 24 128 s m e) as H.
  destruct (binary_round 24 128 s m e) as [s'|s'| |s' m' e'].
  - now destruct s'.
  - now destruct s'.
  - discriminate H.
  - rewrite F64Facts.is_nan_spec.
    rewrite Prim2SF_SF2Prim by apply SF.binary_round_valid.
    pose proof (SF.binary_round_sign prec emax s' m' e') as H'.
    destruct (binary_round prec emax s' m' e'); try reflexivity. discriminate H'.
Qed.

Lemma rounding_keeps_nan b x : is_nan (Heap.rounding b x) = is_nan x.
Proof.
  destruct b; cbn [Heap.rounding]; try reflexivity. apply to_binary32_keeps_nan.
Qed.

(** [clamp] to [0, 1] of a number is in [0, 1]; of a NaN it is the NaN. *)
Lemma clamp_unit v :
  if is_nan v then is_nan (clamp v 0 1) = true else in_unit (clamp v 0 1) = true.
Proof.
  unfold clamp. destruct (is_nan v) eqn:Hnan.
  - now rewrite (F64Facts.nan_ltb_l v 0 Hnan), (F64Facts.nan_ltb_r 1 v Hnan).
  - destruct (v <? 0) eqn:H0; [reflexivity|].
    destruct (1 <? v) eqn:H1; [reflexivity|].
    unfold in_unit.
    rewrite (F64Facts.leb_negb_ltb v 0 Hnan eq_refl), H0.
    rewrite (F64Facts.leb_negb_ltb 1 v eq_refl Hnan), H1. reflexivity.
Qed.

Lemma to_unit_range_unit b x :
  if is_nan x
  then is_nan (to_unit_range (Heap.rounding b) x) = true
  else in_unit (to_unit_range (Heap.rounding b) x) = true.
Proof.
  unfold to_unit_range.
  set (v := Heap.rounding b (Heap.rounding b (x / 2) + 0.5)).
  assert (Hv : is_nan v = is_nan x).
  { unfold v. now rewrite rounding_keeps_nan, add_half_keeps_nan,
      rounding_keeps_nan, half_keeps_nan. }
  rewrite <- Hv. apply clamp_unit.
Qed.

End RangeFacts.

(** X15.  Every element the converter returns is in [0, 1], except where
    the input holds a NaN: there the output holds a NaN.  Infinite inputs
    are clamped like the others. *)
Theorem convert_image_range (h : Heap.heap) (I : Heap.ref) :
  Forall2 (fun x y => if is_nan x then is_nan y = true else in_unit y = true)
    (Heap.operand (Heap.nd_buffer (Heap.read I h)))
    (Heap.operand
       (Heap.nd_buffer
          (Heap.read (fst (convert_image I h)) (snd (convert_image I h))))).
Proof.
  destruct (HeapFacts.convert_image_eval I h) as (a1 & a2 & a3 & E).
  rewrite E. cbn [fst snd].
  replace (h ++ [a1; a2; a3; _]) with ((h ++ [a1; a2; a3]) ++
    [{| Heap.nd_shape := Heap.nd_shape (Heap.read I h);
        Heap.nd_buffer :=
          Heap.rebuild (Heap.nd_buffer (Heap.read I h))
            (map (to_unit_range (Heap.rounding (Heap.nd_buffer (Heap.read I h))))
                 (Heap.operand (Heap.nd_buffer (Heap.read I h)))) |}])
    by (rewrite <- app_assoc; reflexivity).
  replace (length h + 3)%nat with (length (h ++ [a1; a2; a3]))
    by (rewrite length_app; reflexivity).
  rewrite HeapFacts.read_new. cbn [Heap.nd_buffer].
  rewrite HeapFacts.operand_rebuild. clear E.
  set (b := Heap.nd_buffer (Heap.read I h)).
  induction (Heap.operand b) as [|x l IH]; cbn [map];
    [constructor | constructor; [apply RangeFacts.to_unit_range_unit | exact IH]].
Qed.

(** * Output file names *)

Module BaseFacts.

Import Stdlib.Strings.String.

Local Open Scope string_scope.

Lemma append_assoc (a b c : string) : (a ++ b) ++ c = a ++ (b ++ c).
Proof.
  induction a as [|x a IH]; cbn [append]; [reflexivity | now rewrite IH].
Qed.

Lemma append_nil_r (a : string) : a ++ "" = a.
Proof.
  induction a as [|x a IH]; cbn [append]; [reflexivity | now rewrite IH].
Qed.

Lemma append_inj_l (a b c : string) : a ++ b = a ++ c -> b = c.
Proof.
  induction a as [|x a IH]; cbn [append]; intros H; [exact H|].
  injection H as H. now apply IH.
Qed.

End BaseFacts.

Section FileNames.

Import Stdlib.Strings.String.

Local Open Scope string_scope.

(** X16.  The base name does not identify the arguments: an experiment type
    that contains an underscore reads like a type and a label, and a
    missing experiment type reads like the type ["None"]. *)
Theorem generate_fname_collisions rp e l lab :
  Base.generate_fname
    {| Base.results_path := rp;
       Base.exp_type := Some (e ++ "_" ++ l);
       Base.label := None |}
  = Base.generate_fname
      {| Base.results_path := rp; Base.exp_type := Some e; Base.label := Some l |} /\
  Base.generate_fname
    {| Base.results_path := rp; Base.exp_type := None; Base.label := lab |}
  = Base.generate_fname
      {| Base.results_path := rp; Base.exp_type := Some "None";
         Base.label := lab |}.
Proof.
  split; [|reflexivity].
  unfold Base.generate_fname.
  cbn [Base.results_path Base.exp_type Base.label Base.format_field].
  f_equal. f_equal. rewrite BaseFacts.append_assoc. f_equal.
  apply BaseFacts.append_nil_r.
Qed.

(** X17.  With the results path and the experiment type fixed, the label
    is read back from the base name: two runs that differ in their label,
    or of which one only has a label, get different names. *)
Theorem generate_fname_separates_labels rp e l1 l2 :
  l1 <> l2 ->
  Base.generate_fname
    {| Base.results_path := rp; Base.exp_type := e; Base.label := l1 |}
  <> Base.generate_fname
       {| Base.results_path := rp; Base.exp_type := e; Base.label := l2 |}.
Proof.
  intros Hne H. apply Hne. unfold Base.generate_fname in H.
  cbn [Base.results_path Base.exp_type Base.label] in H.
  do 3 apply BaseFacts.append_inj_l in H.
  destruct l1 as [a|], l2 as [b|]; try reflexivity; try discriminate H.
  injection H as ->. reflexivity.
Qed.

Lemma generate_fname_separates_labels_witness :
  Base.generate_fname
    {| Base.results_path := "./results"; Base.exp_type := None;
       Base.label := Some "" |}
  <> Base.generate_fname
       {| Base.results_path := "./results"; Base.exp_type := None;
          Base.label := None |}.
Proof.
  apply generate_fname_separates_labels. discriminate.
Defined.

End FileNames.

(** * Rounding in any binary format, against a lower and an upper bound *)

Module RoundingBounds.

Open Scope Z_scope.

Section Format.

(** The precision and the maximal exponent of the format. *)
Variables p E : Z.
Hypothesis p_pos : 1 <= p.

Lemma pow_p : 2 ^ p = 2 * 2 ^ (p - 1).
Proof.
  rewrite <- Z.pow_succ_r by lia. f_equal. lia.
Qed.

Lemma pow_p_pos : 0 < 2 ^ (p - 1).
Proof. apply Z.pow_pos_nonneg; lia. Qed.

(** What [binary_round_aux] does to an aligned mantissa [m] at exponent
    [e]: with [f] the exponent of the format for that number, [m1] is [m]
    shifted down to [f], [m2] is [m1] or its successor, and the result
    holds [m2] at exponent [f], renormalised when [m2] reaches [2^p]. *)
Lemma round_spec s (m : positive) e :
  e <= fexp p E (Zpos (digits2_pos m) + e) ->
  let f := fexp p E (Zpos (digits2_pos m) + e) in
  exists m1 m2,
    m1 * 2 ^ (f - e) <= Zpos m < (m1 + 1) * 2 ^ (f - e) /\
    0 <= m1 < 2 ^ p /\ (3 - E - p < f -> 2 ^ (p - 1) <= m1) /\
    (m2 = m1 \/ (m2 = m1 + 1 /\ m1 * 2 ^ (f - e) < Zpos m)) /\
    match binary_round_aux p E s (Zpos m) e loc_Exact with
    | S754_zero s' => s' = s /\ m2 = 0
    | S754_finite s' mr er =>
        s' = s /\ f <= er <= f + 1 /\ Zpos mr * 2 ^ (er - f) = m2 /\
        Zpos mr < 2 ^ p /\ er <= E - p /\
        fexp p E (Zpos (digits2_pos mr) + er) = er
    | S754_infinity s' =>
        s' = s /\ 0 < m2 /\ E - p <= f /\ (f = E - p -> m2 = 2 ^ p)
    | S754_nan => False
    end.
Proof.
  intros Hpre.
  pose proof (Rounding.digits2_bounds m) as [Hdlo Hdhi].
  pose proof pow_p as Hpp. pose proof pow_p_pos as Hp1.
  unfold binary_round_aux, shr_fexp. cbn [Zdigits2 shr_record_of_loc].
  set (d := Zpos (digits2_pos m)) in *.
  set (f := fexp p E (d + e)) in *. cbv zeta.
  destruct (Rounding.shr_exact_spec (Zpos m) e (f - e))
    as (mrs1 & E1 & H0 & [Hlo Hhi] & Hin); [lia | lia |].
  rewrite E1. replace (e + (f - e)) with f by lia.
  rewrite Z2Nat.id in Hlo, Hhi, Hin by lia.
  set (m1 := shr_m mrs1) in *.
  assert (Hf : 3 - E - p <= f /\ d + e - p <= f /\ (f = 3 - E - p \/ f = d + e - p))
    by (unfold f, fexp, emin; lia).
  destruct Hf as (Hf1 & Hf2 & Hf3).
  assert (Hq : 0 < 2 ^ (f - e)) by (apply Z.pow_pos_nonneg; lia).
  assert (Hm1 : m1 < 2 ^ p).
  { assert (Hd : 2 ^ d <= 2 ^ p * 2 ^ (f - e)).
    { rewrite <- Z.pow_add_r by lia. apply Z.pow_le_mono_r; lia. }
    assert (m1 * 2 ^ (f - e) < 2 ^ p * 2 ^ (f - e)) by lia.
    apply Z.mul_lt_mono_pos_r in H; assumption. }
  assert (Hm1lo : 3 - E - p < f -> 2 ^ (p - 1) <= m1).
  { intros Hn. assert (Hfe : f = d + e - p) by lia.
    assert (Hd : 2 ^ (d - 1) = 2 ^ (p - 1) * 2 ^ (f - e)).
    { rewrite <- Z.pow_add_r by lia. f_equal. lia. }
    rewrite Hd in Hdlo.
    assert (2 ^ (p - 1) * 2 ^ (f - e) < (m1 + 1) * 2 ^ (f - e)) by lia.
    apply Z.mul_lt_mono_pos_r in H; [lia | assumption]. }
  set (m2 := round_nearest_even m1 (loc_of_shr_record mrs1)).
  assert (Hm2 : m2 = m1 \/ (m2 = m1 + 1 /\ m1 * 2 ^ (f - e) < Zpos m)).
  { destruct (Rounding.round_nearest_even_bounds mrs1) as [H | [H Hloc]];
      [now left | right; split; [exact H | now apply Hin]]. }
  exists m1, m2.
  split; [split; assumption|]. split; [lia|]. split; [exact Hm1lo|].
  split; [exact Hm2|].
  assert (Hm2r : 0 <= m2 <= 2 ^ p) by lia.
  destruct m2 as [|p2|p2] eqn:Em2; [| | lia].
  - cbn [Zdigits2].
    destruct (fexp p E (0 + f) - f) as [|q|q] eqn:Eq;
      try (split; reflexivity).
    unfold fexp, emin in Eq. lia.
  - cbn [Zdigits2].
    pose proof (Rounding.digits2_bounds p2) as [Hlo2 Hhi2].
    set (d2 := Zpos (digits2_pos p2)) in *.
    assert (Hd2 : d2 <= p + 1).
    { destruct (Z_le_gt_dec d2 (p + 1)) as [|Hgt]; [assumption|]. exfalso.
      assert (2 ^ (p + 1) <= 2 ^ (d2 - 1)) by (apply Z.pow_le_mono_r; lia).
      assert (2 ^ (p + 1) = 2 * 2 ^ p)
        by (replace (p + 1) with (Z.succ p) by lia; apply Z.pow_succ_r; lia).
      lia. }
    destruct (Z.eq_dec d2 (p + 1)) as [Htop | Htop].
    + assert (Hp2 : Zpos p2 = 2 ^ p).
      { assert (2 ^ p <= Zpos p2); [|lia].
        replace p with (d2 - 1) at 1 by lia. exact Hlo2. }
      replace (fexp p E (d2 + f) - f) with 1 by (unfold fexp, emin; lia).
      cbn [shr iter_pos].
      destruct p2 as [q|q|]; [lia | | lia].
      cbn [shr_1 shr_m orb]. rewrite Pos2Z.inj_xO in Hp2.
      assert (Hqd : Zpos (digits2_pos q) = p).
      { apply Rounding.digits_unique. lia. }
      destruct (f + 1 <=? E - p) eqn:Hov.
      * apply Z.leb_le in Hov. split; [reflexivity|]. split; [lia|].
        split; [replace (f + 1 - f) with 1 by lia; rewrite Z.pow_1_r; lia|].
        split; [lia|]. split; [lia|].
        rewrite Hqd. unfold fexp, emin. lia.
      * apply Z.leb_gt in Hov. split; [reflexivity | lia].
    + assert (Hd2p : d2 <= p) by lia.
      assert (Hd2n : 3 - E - p < f -> d2 = p).
      { intros Hn. specialize (Hm1lo Hn).
        destruct (Z_le_gt_dec p d2) as [|Hlt]; [lia|]. exfalso.
        assert (2 ^ d2 <= 2 ^ (p - 1)) by (apply Z.pow_le_mono_r; lia). lia. }
      assert (Hfix : fexp p E (d2 + f) = f) by (unfold fexp, emin; lia).
      rewrite Hfix, Z.sub_diag. cbn [shr shr_m].
      assert (Hlt : Zpos p2 < 2 ^ p).
      { eapply Z.lt_le_trans; [exact Hhi2|]. apply Z.pow_le_mono_r; lia. }
      destruct (f <=? E - p) eqn:Hov.
      * apply Z.leb_le in Hov. split; [reflexivity|]. split; [lia|].
        split; [rewrite Z.sub_diag; simpl; lia|].
        split; [exact Hlt|]. split; [lia|]. fold d2. exact Hfix.
      * apply Z.leb_gt in Hov. split; [reflexivity | lia].
Qed.

Section Values.

Variable K : Z.

Local Abbreviation V := (scaled K).

(** Rounding to nearest never falls below a number of the format: when
    [mx * 2^ex] with [mx < 2^p] at an exponent of the format is at most the
    exact value, it is at most the rounded one. *)
Lemma round_aux_ge s (m : positive) e (mx : positive) ex :
  - K <= e -> - K <= ex ->
  e <= fexp p E (Zpos (digits2_pos m) + e) ->
  Zpos mx < 2 ^ p -> 3 - E - p <= ex ->
  V (Zpos mx) ex <= V (Zpos m) e ->
  match binary_round_aux p E s (Zpos m) e loc_Exact with
  | S754_finite s' mr er =>
      s' = s /\ e <= er /\ V (Zpos mx) ex <= V (Zpos mr) er /\
      fexp p E (Zpos (digits2_pos mr) + er) = er /\ er <= E - p
  | S754_infinity s' => s' = s
  | _ => False
  end.
Proof.
  intros He Hex Hpre Hmx Hexmin Hle.
  pose proof pow_p as Hpp. pose proof pow_p_pos as Hp1.
  destruct (round_spec s m e Hpre)
    as (m1 & m2 & [Hlo Hhi] & Hm1 & Hm1lo & Hm2 & Hres).
  set (f := fexp p E (Zpos (digits2_pos m) + e)) in *.
  assert (Hfe : e <= f) by exact Hpre.
  assert (Hpos : 0 < V (Zpos mx) ex).
  { unfold scaled. apply Z.mul_pos_pos; [lia|]. apply Z.pow_pos_nonneg; lia. }
  assert (Hbound : V (Zpos mx) ex <= V m1 f).
  { destruct (Z_le_gt_dec f ex) as [Hcase | Hcase].
    - replace ex with (f + (ex - f)) in Hle |- * by lia.
      rewrite <- (Rounding.V_shift K) in Hle |- * by lia.
      assert (Hup : V (Zpos m) e < V (m1 + 1) f).
      { replace f with (e + (f - e)) at 1 by lia.
        rewrite <- (Rounding.V_shift K) by lia.
        apply (Rounding.V_lt_mono K); lia. }
      assert (Hlt : V (Zpos mx * 2 ^ (ex - f)) f < V (m1 + 1) f) by lia.
      apply (Rounding.V_lt_inv K) in Hlt; [|lia].
      apply (Rounding.V_mono K); lia.
    - specialize (Hm1lo ltac:(lia)).
      apply Z.le_trans with (V (2 ^ p) ex).
      { apply (Rounding.V_mono K); lia. }
      rewrite Hpp, Z.mul_comm.
      replace (2 ^ (p - 1) * 2) with (2 ^ (p - 1) * 2 ^ 1) by (rewrite Z.pow_1_r; reflexivity).
      rewrite (Rounding.V_shift K) by lia.
      apply Z.le_trans with (V (2 ^ (p - 1)) f).
      { apply (Rounding.V_le_exp K); lia. }
      apply (Rounding.V_mono K); lia. }
  assert (Hm2' : V m1 f <= V m2 f)
    by (apply (Rounding.V_mono K); lia).
  destruct (binary_round_aux p E s (Zpos m) e loc_Exact) as [s'|s'| |s' mr er].
  - destruct Hres as [_ Hz]. rewrite Hz in Hm2'.
    unfold scaled in Hm2' at 2. lia.
  - now destruct Hres.
  - exact Hres.
  - destruct Hres as (-> & Her & Hval & _ & Hov & Hcan).
    split; [reflexivity|]. split; [lia|]. split; [|split; assumption].
    rewrite <- Hval in Hm2'.
    rewrite (Rounding.V_shift K) in Hm2' by lia.
    replace (f + (er - f)) with er in Hm2' by lia. lia.
Qed.

(** The same for [binary_round], which aligns the mantissa first. *)
Lemma round_ge s (m : positive) e (mx : positive) ex :
  - K <= e -> - K <= ex -> - K <= 3 - E - p ->
  Zpos mx < 2 ^ p -> 3 - E - p <= ex ->
  V (Zpos mx) ex <= V (Zpos m) e ->
  match binary_round p E s m e with
  | S754_finite s' mr er =>
      s' = s /\ V (Zpos mx) ex <= V (Zpos mr) er /\
      fexp p E (Zpos (digits2_pos mr) + er) = er /\ er <= E - p
  | S754_infinity s' => s' = s
  | _ => False
  end.
Proof.
  intros He Hex Hmin Hmx Hexmin Hle. unfold binary_round.
  destruct (Rounding.shl_align_spec m e (fexp p E (Zpos (digits2_pos m) + e)))
    as (mz & Ez & Hmz).
  rewrite Ez. set (f := fexp p E (Zpos (digits2_pos m) + e)) in *.
  assert (Hf : 3 - E - p <= f) by (unfold f, fexp, emin; lia).
  assert (Hd : Zpos (digits2_pos mz) + Z.min e f = Zpos (digits2_pos m) + e).
  { rewrite (Rounding.digits_shift m mz (e - Z.min e f)) by (lia || exact Hmz). lia. }
  pose proof (round_aux_ge s mz (Z.min e f) mx ex) as H.
  rewrite Hd in H. fold f in H.
  assert (Hv : V (Zpos mz) (Z.min e f) = V (Zpos m) e).
  { rewrite Hmz, (Rounding.V_shift K) by lia. f_equal. lia. }
  rewrite Hv in H. specialize (H ltac:(lia) Hex ltac:(lia) Hmx Hexmin Hle).
  destruct (binary_round_aux p E s (Zpos mz) (Z.min e f) loc_Exact);
    try assumption.
  destruct H as (H1 & _ & H2). now split.
Qed.

(** Rounding to nearest never rises above a number of the format: when the
    exact value is at most [mx * 2^ex] with [mx < 2^p] at an exponent of
    the format, so is the rounded one, which is then finite. *)
Lemma round_aux_at_most s (m : positive) e (mx : positive) ex :
  - K <= e -> - K <= ex ->
  e <= fexp p E (Zpos (digits2_pos m) + e) ->
  Zpos mx < 2 ^ p -> 3 - E - p <= ex <= E - p ->
  V (Zpos m) e <= V (Zpos mx) ex ->
  match binary_round_aux p E s (Zpos m) e loc_Exact with
  | S754_zero s' => s' = s
  | S754_finite s' mr er =>
      s' = s /\ V (Zpos mr) er <= V (Zpos mx) ex /\
      fexp p E (Zpos (digits2_pos mr) + er) = er /\ er <= E - p
  | _ => False
  end.
Proof.
  intros He Hex Hpre Hmx Hexr Hle.
  pose proof pow_p as Hpp. pose proof pow_p_pos as Hp1.
  destruct (round_spec s m e Hpre)
    as (m1 & m2 & [Hlo Hhi] & Hm1 & Hm1lo & Hm2 & Hres).
  set (f := fexp p E (Zpos (digits2_pos m) + e)) in *.
  assert (Hfe : e <= f) by exact Hpre.
  assert (Hdown : V m1 f <= V (Zpos m) e).
  { replace f with (e + (f - e)) by lia.
    rewrite <- (Rounding.V_shift K) by lia. apply (Rounding.V_mono K); lia. }
  assert (Hbig : ex < f -> V (Zpos mx) ex < V m1 f).
  { intros Hcase. specialize (Hm1lo ltac:(lia)).
    apply Z.lt_le_trans with (V (2 ^ p) ex).
    { apply (Rounding.V_lt_mono K); lia. }
    rewrite Hpp, Z.mul_comm.
    replace (2 ^ (p - 1) * 2) with (2 ^ (p - 1) * 2 ^ 1) by (rewrite Z.pow_1_r; reflexivity).
    rewrite (Rounding.V_shift K) by lia.
    apply Z.le_trans with (V (2 ^ (p - 1)) f).
    { apply (Rounding.V_le_exp K); lia. }
    apply (Rounding.V_mono K); lia. }
  assert (Hfex : f <= ex).
  { destruct (Z_le_gt_dec f ex) as [|Hgt]; [assumption|].
    specialize (Hbig ltac:(lia)). lia. }
  assert (Hbound : V m2 f <= V (Zpos mx) ex).
  { destruct Hm2 as [-> | [-> Hstrict]]; [lia|].
    assert (Hlt : V m1 f < V (Zpos m) e).
    { replace f with (e + (f - e)) by lia.
      rewrite <- (Rounding.V_shift K) by lia. apply (Rounding.V_lt_mono K); lia. }
    replace ex with (f + (ex - f)) in Hle |- * by lia.
    rewrite <- (Rounding.V_shift K) in Hle |- * by lia.
    assert (Hlt' : V m1 f < V (Zpos mx * 2 ^ (ex - f)) f) by lia.
    apply (Rounding.V_lt_inv K) in Hlt'; [|lia].
    apply (Rounding.V_mono K); lia. }
  destruct (binary_round_aux p E s (Zpos m) e loc_Exact) as [s'|s'| |s' mr er].
  - now destruct Hres.
  - exfalso. destruct Hres as (_ & Hpos & Hov & Htop).
    assert (Hf : f = E - p) by lia. specialize (Htop Hf).
    assert (V (Zpos mx) ex < V m2 f); [|lia].
    rewrite Htop. apply Z.lt_le_trans with (V (2 ^ p) ex).
    + apply (Rounding.V_lt_mono K); lia.
    + apply (Rounding.V_le_exp K); lia.
  - exact Hres.
  - destruct Hres as (-> & Her & Hval & _ & Hov & Hcan).
    split; [reflexivity|]. split; [|split; assumption].
    rewrite <- Hval in Hbound.
    rewrite (Rounding.V_shift K) in Hbound by lia.
    replace (f + (er - f)) with er in Hbound by lia. exact Hbound.
Qed.

Lemma round_le s (m : positive) e (mx : positive) ex :
  - K <= e -> - K <= ex -> - K <= 3 - E - p ->
  Zpos mx < 2 ^ p -> 3 - E - p <= ex <= E - p ->
  V (Zpos m) e <= V (Zpos mx) ex ->
  match binary_round p E s m e with
  | S754_zero s' => s' = s
  | S754_finite s' mr er =>
      s' = s /\ V (Zpos mr) er <= V (Zpos mx) ex /\
      fexp p E (Zpos (digits2_pos mr) + er) = er /\ er <= E - p
  | _ => False
  end.
Proof.
  intros He Hex Hmin Hmx Hexr Hle. unfold binary_round.
  destruct (Rounding.shl_align_spec m e (fexp p E (Zpos (digits2_pos m) + e)))
    as (mz & Ez & Hmz).
  rewrite Ez. set (f := fexp p E (Zpos (digits2_pos m) + e)) in *.
  assert (Hf : 3 - E - p <= f) by (unfold f, fexp, emin; lia).
  assert (Hd : Zpos (digits2_pos mz) + Z.min e f = Zpos (digits2_pos m) + e).
  { rewrite (Rounding.digits_shift m mz (e - Z.min e f)) by (lia || exact Hmz). lia. }
  pose proof (round_aux_at_most s mz (Z.min e f) mx ex) as H.
  rewrite Hd in H. fold f in H.
  assert (Hv : V (Zpos mz) (Z.min e f) = V (Zpos m) e).
  { rewrite Hmz, (Rounding.V_shift K) by lia. f_equal. lia. }
  rewrite Hv in H. exact (H ltac:(lia) Hex ltac:(lia) Hmx Hexr Hle).
Qed.

End Values.

End Format.

End RoundingBounds.

(** * The converter at and beyond the ends of its range *)

Module Saturation.

Section SaturationScaled.

Variable K : Z.
Hypothesis K_large : (2200 <= K)%Z.

Local Abbreviation V := (scaled K).

Open Scope Z_scope.

Lemma V_double m e : - K < e -> V m e = 2 * V m (e - 1).
Proof.
  intros He. unfold scaled.
  replace (e + K) with (Z.succ (e - 1 + K)) by lia.
  rewrite Z.pow_succ_r by lia. ring.
Qed.

Lemma V_add a b e : V (a + b) e = V a e + V b e.
Proof. unfold scaled. ring. Qed.

Lemma V_exp_lt e1 e2 : - K <= e1 -> V 1 e1 < V 1 e2 -> e1 < e2.
Proof.
  intros He H. unfold scaled in H. rewrite !Z.mul_1_l in H.
  destruct (Z_lt_le_dec e1 e2) as [|Hge]; [assumption|]. exfalso.
  assert (2 ^ (e2 + K) <= 2 ^ (e1 + K)); [|lia].
  destruct (Z_lt_le_dec (e2 + K) 0) as [Hneg|Hpos].
  - rewrite (Z.pow_neg_r 2 (e2 + K)) by assumption.
    apply Z.lt_le_incl, Z.pow_pos_nonneg; lia.
  - apply Z.pow_le_mono_r; lia.
Qed.

(** A canonical number of magnitude at least [2^b] has an exponent above
    [b - 53]. *)
Lemma exponent_above m e b :
  canonical m e -> - K <= b -> V 1 b <= V (Zpos m) e -> b - 53 < e.
Proof.
  intros Hcan Hb H.
  destruct (Rounding.canonical_facts m e Hcan) as (He & Hm & _).
  assert (Hlt : V (Zpos m) e < V (2 ^ 53) e) by (apply Rounding.V_lt_mono; lia).
  rewrite Rounding.V_pow in Hlt by lia.
  assert (b < e + 53); [|lia]. apply V_exp_lt; lia.
Qed.

Open Scope float_scope.

Lemma ge_one_SF x : (1 <=? x) = true -> at_least K false 0 (Prim2SF x).
Proof.
  rewrite leb_spec, Rounding.one_SF. intros H.
  destruct (Prim2SF x) as [s|s| |s m e] eqn:Ex; cbn [at_least].
  - now destruct s.
  - now destruct s.
  - discriminate.
  - destruct s; [discriminate|]. split; [reflexivity|].
    pose proof (Rounding.valid_canonical x m e false Ex) as Hcan.
    destruct (Rounding.canonical_facts m e Hcan) as (He & Hm & Hn).
    rewrite <- (Rounding.one_value K K_large).
    unfold SFleb, SFcompare in H.
    destruct (Z.compare_spec (-52) e) as [Heq | Hlt | Hgt]; [| | discriminate].
    + subst e. rewrite Pos.compare_cont_spec in H. cbn [Pos.switch_Eq] in H.
      apply Rounding.V_mono; [lia|].
      destruct (Pos.compare_spec 4503599627370496 m) as [Hm' | Hm' | Hm'];
        [subst m; reflexivity
        | apply Pos2Z.pos_lt_pos in Hm'; apply Z.lt_le_incl, Hm'
        | discriminate].
    + specialize (Hn ltac:(lia)).
      apply Z.le_trans with (V (2 ^ 52) e)%Z; [|apply Rounding.V_mono; lia].
      change (Zpos 4503599627370496) with (2 ^ 52)%Z.
      apply Rounding.V_le_exp; lia.
Qed.

Lemma le_minus_one_SF x : (x <=? -1) = true -> at_least K true 0 (Prim2SF x).
Proof.
  rewrite leb_spec.
  change (Prim2SF (-1)) with (S754_finite true 4503599627370496 (-52)). intros H.
  destruct (Prim2SF x) as [s|s| |s m e] eqn:Ex; cbn [at_least].
  - now destruct s.
  - now destruct s.
  - discriminate.
  - destruct s; [|discriminate]. split; [reflexivity|].
    pose proof (Rounding.valid_canonical x m e true Ex) as Hcan.
    destruct (Rounding.canonical_facts m e Hcan) as (He & Hm & Hn).
    rewrite <- (Rounding.one_value K K_large).
    unfold SFleb, SFcompare in H.
    destruct (Z.compare_spec e (-52)) as [Heq | Hlt | Hgt]; [| discriminate |].
    + subst e. rewrite Pos.compare_cont_spec in H. cbn [Pos.switch_Eq] in H.
      apply Rounding.V_mono; [lia|].
      destruct (Pos.compare_spec m 4503599627370496) as [Hm' | Hm' | Hm'];
        [subst m; reflexivity
        | discriminate
        | apply Pos2Z.pos_lt_pos in Hm'; apply Z.lt_le_incl, Hm'].
    + specialize (Hn ltac:(lia)).
      apply Z.le_trans with (V (2 ^ 52) e)%Z; [|apply Rounding.V_mono; lia].
      change (Zpos 4503599627370496) with (2 ^ 52)%Z.
      apply Rounding.V_le_exp; lia.
Qed.

Lemma half_value : V (Zpos 4503599627370496) (-53) = V 1 (-1).
Proof.
  change (Zpos 4503599627370496) with (1 * 2 ^ 52)%Z.
  rewrite Rounding.V_shift by lia. reflexivity.
Qed.

(** Halving keeps a magnitude of at least 1 at least one half. *)
Lemma half_at_least x s :
  at_least K s 0 (Prim2SF x) -> at_least K s (-1) (Prim2SF (x / 2)).
Proof.
  intros H. rewrite div_spec.
  change (Prim2SF 2) with (S754_finite false 4503599627370496 (-51)).
  destruct (Prim2SF x) as [sx|sx| |sx m e] eqn:Ex; cbn [at_least] in H;
    try contradiction.
  - subst sx. cbn. now destruct s.
  - destruct H as [-> Hv].
    pose proof (Rounding.valid_canonical x m e s Ex) as Hcan.
    pose proof (exponent_above m e 0 Hcan ltac:(lia) Hv) as He.
    destruct (Rounding.canonical_facts m e Hcan) as (_ & Hm & Hn).
    assert (Hd : Zpos (digits2_pos m) = 53%Z).
    { unfold canonical, fexp, emin, prec, emax in Hcan. lia. }
    unfold SF64div. cbn [SFdiv]. unfold SFdiv_core_binary. cbn [Zdigits2].
    rewrite Hd. change (Zpos (digits2_pos 4503599627370496)) with 53%Z.
    replace (Z.min (fexp prec emax (53 + e - (53 + -51))) (e - -51)) with (e - 2)%Z
      by (unfold fexp, emin, prec, emax; lia).
    replace (e - -51 - (e - 2))%Z with 53%Z by lia.
    cbv iota. rewrite Z.shiftl_mul_pow2 by lia.
    replace (Zpos m * 2 ^ 53)%Z with (Zpos (xO m) * Zpos 4503599627370496)%Z
      by (rewrite Pos2Z.inj_xO; change (Zpos 4503599627370496) with (2 ^ 52)%Z;
          change (2 ^ 53)%Z with (2 * 2 ^ 52)%Z; ring).
    destruct (Z.div_eucl (Zpos (xO m) * Zpos 4503599627370496) (Zpos 4503599627370496))
      as [q r] eqn:E.
    assert (Hq : q = Zpos (xO m) /\ r = 0%Z).
    { pose proof (Z.div_mul (Zpos (xO m)) (Zpos 4503599627370496) ltac:(lia)) as H1.
      pose proof (Z.mod_mul (Zpos (xO m)) (Zpos 4503599627370496) ltac:(lia)) as H2.
      unfold Z.div in H1. unfold Z.modulo in H2. rewrite E in H1, H2. now split. }
    destruct Hq as [-> ->].
    change (new_location (Zpos 4503599627370496) 0) with loc_Exact.
    pose proof (RoundingBounds.round_aux_ge prec emax ltac:(unfold prec; lia) K
                  (xorb s false) (xO m) (e - 2) 4503599627370496 (-53)) as Hr.
    cbn [digits2_pos] in Hr. rewrite Pos2Z.inj_succ, Hd in Hr.
    specialize (Hr ltac:(lia) ltac:(lia)
                   ltac:(unfold fexp, emin, prec, emax; lia)
                   ltac:(unfold prec; lia) ltac:(unfold prec, emax; lia)).
    rewrite half_value in Hr.
    assert (Hhalf : (V 1 (-1) <= V (Zpos (xO m)) (e - 2))%Z).
    { rewrite Pos2Z.inj_xO, Z.mul_comm.
      replace (Zpos m * 2)%Z with (Zpos m * 2 ^ 1)%Z by (rewrite Z.pow_1_r; reflexivity).
      rewrite Rounding.V_shift by lia.
      replace (e - 2 + 1)%Z with (e - 1)%Z by lia.
      rewrite (V_double 1 0), (V_double (Zpos m) e) in Hv by lia.
      replace (0 - 1)%Z with (-1)%Z in Hv by lia. lia. }
    specialize (Hr Hhalf). rewrite xorb_false_r in *.
    destruct (binary_round_aux prec emax s (Zpos (xO m)) (e - 2) loc_Exact)
      as [s'|s'| |s' mr er]; cbn [at_least]; try contradiction.
    + exact Hr.
    + destruct Hr as (-> & _ & Hge & _). now split.
Qed.

(** The two operands of [y + 0.5] aligned at exponent -53. *)
Lemma align_with_half my ey :
  (-53 <= ey)%Z ->
  exists a,
    shl_align my ey (Z.min ey (-53)) = (a, (-53)%Z) /\
    shl_align 4503599627370496 (-53) (Z.min ey (-53)) = (4503599627370496%positive, (-53)%Z) /\
    Z.min ey (-53) = (-53)%Z /\
    V (Zpos a) (-53) = V (Zpos my) ey.
Proof.
  intros He. replace (Z.min ey (-53)) with (-53)%Z by lia.
  destruct (Rounding.shl_align_spec my ey (-53)) as (a & Ea & Ha).
  replace (Z.min ey (-53)) with (-53)%Z in Ea, Ha by lia.
  exists a. split; [exact Ea|]. split; [reflexivity|]. split; [reflexivity|].
  rewrite Ha, Rounding.V_shift by lia. f_equal. lia.
Qed.

(** Adding one half to a number that is at least one half gives at least
    1. *)
Lemma add_half_at_least y :
  at_least K false (-1) (Prim2SF y) -> at_least K false 0 (Prim2SF (y + 0.5)).
Proof.
  intros H. rewrite add_spec.
  change (Prim2SF 0.5) with (S754_finite false 4503599627370496 (-53)).
  destruct (Prim2SF y) as [sy|sy| |sy my ey] eqn:Ey; cbn [at_least] in H;
    try contradiction.
  - subst sy. exact eq_refl.
  - destruct H as [-> Hv].
    pose proof (Rounding.valid_canonical y my ey false Ey) as Hcan.
    pose proof (exponent_above my ey (-1) Hcan ltac:(lia) Hv) as He.
    destruct (align_with_half my ey ltac:(lia)) as (a & Ea & Eb & Emin & Ha).
    unfold SF64add. cbn [SFadd]. rewrite Ea, Eb, Emin.
    cbn [fst cond_Zopp Z.add binary_normalize].
    pose proof (RoundingBounds.round_ge prec emax ltac:(unfold prec; lia) K
                  false (a + 4503599627370496) (-53) 4503599627370496 (-52)
                  ltac:(lia) ltac:(lia) ltac:(unfold prec, emax; lia)
                  ltac:(unfold prec; lia) ltac:(unfold prec, emax; lia)) as Hr.
    rewrite (Rounding.one_value K K_large), Pos2Z.inj_add, V_add, Ha, half_value in Hr.
    rewrite (V_double 1 0) in Hr by lia. replace (0 - 1)%Z with (-1)%Z in Hr by lia.
    specialize (Hr ltac:(lia)).
    destruct (binary_round prec emax false (a + 4503599627370496) (-53))
      as [s'|s'| |s' mr er]; cbn [at_least]; try contradiction.
    + exact Hr.
    + destruct Hr as (-> & Hge & _). split; [reflexivity|].
      rewrite (V_double 1 0) by lia. replace (0 - 1)%Z with (-1)%Z by lia. exact Hge.
Qed.

(** Adding one half to a number that is at most minus one half gives [+0]
    or a negative number that is not tiny. *)
Lemma add_half_at_most y :
  at_least K true (-1) (Prim2SF y) ->
  Prim2SF (y + 0.5) = S754_zero false \/
  at_least K true (-53) (Prim2SF (y + 0.5)).
Proof.
  intros H. rewrite add_spec.
  change (Prim2SF 0.5) with (S754_finite false 4503599627370496 (-53)).
  destruct (Prim2SF y) as [sy|sy| |sy my ey] eqn:Ey; cbn [at_least] in H;
    try contradiction.
  - subst sy. right. exact eq_refl.
  - destruct H as [-> Hv].
    pose proof (Rounding.valid_canonical y my ey true Ey) as Hcan.
    pose proof (exponent_above my ey (-1) Hcan ltac:(lia) Hv) as He.
    destruct (align_with_half my ey ltac:(lia)) as (a & Ea & Eb & Emin & Ha).
    unfold SF64add. cbn [SFadd]. rewrite Ea, Eb, Emin.
    cbn [fst cond_Zopp].
    assert (Hab : (Zpos 4503599627370496 <= Zpos a)%Z).
    { rewrite <- Ha, <- half_value in Hv.
      destruct (Z_le_gt_dec (Zpos 4503599627370496) (Zpos a)) as [|Hgt]; [assumption|].
      exfalso. apply Z.gt_lt in Hgt.
      apply (Rounding.V_lt_mono K _ _ (-53)) in Hgt; lia. }
    destruct (- Zpos a + Zpos 4503599627370496)%Z as [|k|k] eqn:Ek; [now left | lia |].
    right. cbn [binary_normalize].
    pose proof (RoundingBounds.round_ge prec emax ltac:(unfold prec; lia) K
                  true k (-53) 1 (-53)
                  ltac:(lia) ltac:(lia) ltac:(unfold prec, emax; lia)
                  ltac:(unfold prec; lia) ltac:(unfold prec, emax; lia)) as Hr.
    specialize (Hr ltac:(apply Rounding.V_mono; lia)).
    destruct (binary_round prec emax true k (-53))
      as [s'|s'| |s' mr er]; cbn [at_least]; try contradiction.
    + exact Hr.
    + destruct Hr as (-> & Hge & _). now split.
Qed.

(** Rounding to binary32 keeps a magnitude of at least [2^b], for [b] in
    the range of binary32. *)
Lemma to_binary32_at_least s b x :
  (-149 <= b)%Z ->
  at_least K s b (Prim2SF x) -> at_least K s b (Prim2SF (F64.to_binary32 x)).
Proof.
  intros Hb H. unfold F64.to_binary32, F64.round_to.
  destruct (Prim2SF x) as [sx|sx| |sx m e] eqn:Ex; cbn [at_least] in H;
    try contradiction.
  - rewrite Ex. exact H.
  - destruct H as [-> Hv].
    pose proof (Rounding.valid_canonical x m e s Ex) as Hcan.
    destruct (Rounding.canonical_facts m e Hcan) as (He & _).
    pose proof (RoundingBounds.round_ge 24 128 ltac:(lia) K s m e 1 b
                  ltac:(lia) ltac:(lia) ltac:(lia) ltac:(lia) ltac:(lia) Hv) as Hr.
    destruct (binary_round 24 128 s m e) as [s'|s'| |s' m' e']; try contradiction.
    + subst s'. now destruct s.
    + destruct Hr as (-> & Hge & Hcan' & _).
      rewrite Prim2SF_SF2Prim by apply SF.binary_round_valid.
      assert (He' : (-149 <= e')%Z) by (unfold fexp, emin in Hcan'; lia).
      pose proof (RoundingBounds.round_ge prec emax ltac:(unfold prec; lia) K
                    s m' e' 1 b
                    ltac:(lia) ltac:(lia) ltac:(unfold prec, emax; lia)
                    ltac:(unfold prec; lia) ltac:(unfold prec, emax; lia) Hge) as Hr.
      destruct (binary_round prec emax s m' e') as [s''|s''| |s'' mr er];
        cbn [at_least]; try contradiction.
      * exact Hr.
      * destruct Hr as (-> & Hge' & _). now split.
Qed.

Lemma rounding_at_least buf s b x :
  (-149 <= b)%Z ->
  at_least K s b (Prim2SF x) -> at_least K s b (Prim2SF (Heap.rounding buf x)).
Proof.
  intros Hb H. destruct buf; cbn [Heap.rounding]; try exact H.
  now apply to_binary32_at_least.
Qed.

Lemma rounding_zero buf : Heap.rounding buf 0 = 0.
Proof. destruct buf; reflexivity. Qed.

(** [clamp] of a number that is at least 1 is 1; of a negative number it
    is 0. *)
Lemma clamp_at_least v : at_least K false 0 (Prim2SF v) -> clamp v 0 1 = 1.
Proof.
  intros H.
  assert (H0 : (v <? 0) = false).
  { rewrite ltb_spec. change (Prim2SF 0) with (S754_zero false).
    destruct (Prim2SF v) as [s|s| |s m e]; cbn [at_least] in H; try contradiction.
    - now subst s.
    - now destruct H as [-> _]. }
  assert (H1 : (1 <? v) = true \/ v = 1).
  { rewrite ltb_spec, Rounding.one_SF.
    destruct (Prim2SF v) as [s|s| |s m e] eqn:Ev; cbn [at_least] in H;
      try contradiction.
    - subst s. now left.
    - destruct H as [-> Hv].
      pose proof (Rounding.valid_canonical v m e false Ev) as Hcan.
      rewrite <- (Rounding.one_value K K_large) in Hv.
      pose proof (Rounding.SFleb_of_value K K_large _ _ _ _
                    Rounding.one_canonical Hcan Hv) as Hle.
      unfold SFltb. unfold SFleb in Hle. cbn [SFcompare] in *.
      destruct (Z.compare_spec (-52) e) as [Heq | Hlt | Hgt];
        [| now left | discriminate].
      subst e. rewrite Pos.compare_cont_spec in *. cbn [Pos.switch_Eq] in *.
      destruct (Pos.compare_spec 4503599627370496 m) as [Hm | Hm | Hm];
        [| now left | discriminate].
      subst m. right. apply Prim2SF_inj. now rewrite Ev. }
  unfold clamp. rewrite H0. destruct H1 as [-> | ->]; reflexivity.
Qed.

Lemma clamp_negative v b : at_least K true b (Prim2SF v) -> clamp v 0 1 = 0.
Proof.
  intros H. unfold clamp. rewrite ltb_spec.
  change (Prim2SF 0) with (S754_zero false).
  destruct (Prim2SF v) as [s|s| |s m e]; cbn [at_least] in H; try contradiction.
  - subst s. reflexivity.
  - destruct H as [-> _]. reflexivity.
Qed.

(** The converter on one element: 1 and above go to 1, -1 and below go
    to 0. *)
Lemma to_unit_range_high buf x :
  at_least K false 0 (Prim2SF x) -> to_unit_range (Heap.rounding buf) x = 1.
Proof.
  intros H. unfold to_unit_range.
  apply clamp_at_least, rounding_at_least; [lia|].
  apply add_half_at_least, rounding_at_least; [lia|].
  now apply half_at_least.
Qed.

Lemma to_unit_range_low buf x :
  at_least K true 0 (Prim2SF x) -> to_unit_range (Heap.rounding buf) x = 0.
Proof.
  intros H. unfold to_unit_range.
  assert (Hy : at_least K true (-1) (Prim2SF (Heap.rounding buf (x / 2)))).
  { apply rounding_at_least; [lia|]. now apply half_at_least. }
  destruct (add_half_at_most _ Hy) as [Hz | Hneg].
  - assert (E : Heap.rounding buf (x / 2) + 0.5 = 0)
      by (apply Prim2SF_inj; rewrite Hz; reflexivity).
    rewrite E, rounding_zero. reflexivity.
  - apply (clamp_negative _ (-53)). apply rounding_at_least; [lia | exact Hneg].
Qed.

(** [float(k)] of an integer that is not zero has a magnitude of at least
    1. *)
Lemma of_Z_at_least k :
  (k <> 0)%Z -> at_least K (k <? 0)%Z 0 (Prim2SF (F64.of_Z k)).
Proof.
  intros Hk. rewrite F64Signs.Prim2SF_of_Z.
  destruct k as [|q|q]; [lia | |]; cbn [binary_normalize Z.ltb Z.compare].
  - pose proof (RoundingBounds.round_ge prec emax ltac:(unfold prec; lia) K
                  false q 0 1 0
                  ltac:(lia) ltac:(lia) ltac:(unfold prec, emax; lia)
                  ltac:(unfold prec; lia) ltac:(unfold prec, emax; lia)
                  ltac:(apply Rounding.V_mono; lia)) as Hr.
    destruct (binary_round prec emax false q 0) as [s|s| |s mr er];
      cbn [at_least]; try contradiction; [exact Hr|].
    destruct Hr as (-> & Hge & _). now split.
  - pose proof (RoundingBounds.round_ge prec emax ltac:(unfold prec; lia) K
                  true q 0 1 0
                  ltac:(lia) ltac:(lia) ltac:(unfold prec, emax; lia)
                  ltac:(unfold prec; lia) ltac:(unfold prec, emax; lia)
                  ltac:(apply Rounding.V_mono; lia)) as Hr.
    destruct (binary_round prec emax true q 0) as [s|s| |s mr er];
      cbn [at_least]; try contradiction; [exact Hr|].
    destruct Hr as (-> & Hge & _). now split.
Qed.

End SaturationScaled.

End Saturation.

Module ConverterFacts.

Open Scope float_scope.

(** What holds of each element and its image under the specification's
    formula holds of the input and the output of the converter. *)
Lemma convert_image_pointwise (P : float -> float -> Prop) h I :
  (forall x, P x (to_unit_range
                    (Heap.rounding (Heap.nd_buffer (Heap.read I h))) x)) ->
  Forall2 P
    (Heap.operand (Heap.nd_buffer (Heap.read I h)))
    (Heap.operand
       (Heap.nd_buffer
          (Heap.read (fst (convert_image I h)) (snd (convert_image I h))))).
Proof.
  intros HP.
  destruct (HeapFacts.convert_image_eval I h) as (a1 & a2 & a3 & E).
  rewrite E. cbn [fst snd].
  replace (h ++ [a1; a2; a3; _]) with ((h ++ [a1; a2; a3]) ++
    [{| Heap.nd_shape := Heap.nd_shape (Heap.read I h);
        Heap.nd_buffer :=
          Heap.rebuild (Heap.nd_buffer (Heap.read I h))
            (map (to_unit_range (Heap.rounding (Heap.nd_buffer (Heap.read I h))))
                 (Heap.operand (Heap.nd_buffer (Heap.read I h)))) |}])
    by (rewrite <- app_assoc; reflexivity).
  replace (length h + 3)%nat with (length (h ++ [a1; a2; a3]))
    by (rewrite length_app; reflexivity).
  rewrite HeapFacts.read_new. cbn [Heap.nd_buffer].
  rewrite HeapFacts.operand_rebuild. clear E.
  induction (Heap.operand (Heap.nd_buffer (Heap.read I h))) as [|x l IH];
    cbn [map]; [constructor | constructor; [apply HP | exact IH]].
Qed.

End ConverterFacts.

(** X18.  The converter saturates: an element that is 1 or more, [+inf]
    included, gives exactly 1, and an element that is -1 or less gives
    exactly 0, in [float64] and in [float32] alike. *)
Theorem convert_image_saturates (h : Heap.heap) (I : Heap.ref) :
  Forall2 (fun x y => ((1 <=? x)%float = true -> y = 1%float) /\
                      ((x <=? -1)%float = true -> y = 0%float))
    (Heap.operand (Heap.nd_buffer (Heap.read I h)))
    (Heap.operand
       (Heap.nd_buffer
          (Heap.read (fst (convert_image I h)) (snd (convert_image I h))))).
Proof.
  apply ConverterFacts.convert_image_pointwise. intros x. split; intros H.
  - apply (Saturation.to_unit_range_high 2200 (Z.le_refl _)).
    now apply Saturation.ge_one_SF.
  - apply (Saturation.to_unit_range_low 2200 (Z.le_refl _)).
    now apply Saturation.le_minus_one_SF.
Qed.

(** X19.  On an array of integers the converter returns only three values:
    0 for the negative elements, 0.5 for the zeros and 1 for the positive
    ones. *)
Theorem convert_image_of_integers (a : Heap.ndarray) (l : list Z) :
  Heap.nd_buffer a = Heap.Int64 l ->
  run_convert_image a =
  {| Heap.nd_shape := Heap.nd_shape a;
     Heap.nd_buffer :=
       Heap.Float64
         (map (fun k => if (k <? 0)%Z then 0%float
                        else if (k =? 0)%Z then 0.5%float else 1%float) l) |}.
Proof.
  intros Hbuf. unfold run_convert_image.
  destruct (HeapFacts.convert_image_eval 0%nat [a]) as (a1 & a2 & a3 & E).
  rewrite E. unfold Heap.read. cbn [length Nat.add nth app].
  rewrite Hbuf. cbn [Heap.rebuild Heap.operand Heap.rounding].
  f_equal. f_equal. rewrite map_map. apply map_ext. intros k.
  destruct (Z.eq_dec k 0) as [-> | Hk]; [reflexivity|].
  pose proof (Saturation.of_Z_at_least 2200 (Z.le_refl _) k Hk) as H.
  destruct (k <? 0)%Z eqn:Hneg.
  - exact (Saturation.to_unit_range_low 2200 (Z.le_refl _) (Heap.Int64 l) _ H).
  - replace (k =? 0)%Z with false by (symmetry; now apply Z.eqb_neq).
    exact (Saturation.to_unit_range_high 2200 (Z.le_refl _) (Heap.Int64 l) _ H).
Qed.

Lemma convert_image_of_integers_witness :
  run_convert_image
    {| Heap.nd_shape := [2; 2]%nat;
       Heap.nd_buffer := Heap.Int64 [-7; 0; 1; 255]%Z |}
  = {| Heap.nd_shape := [2; 2]%nat;
       Heap.nd_buffer := Heap.Float64 [0; 0.5; 1; 1]%float |}.
Proof.
  exact (convert_image_of_integers
           {| Heap.nd_shape := [2; 2]%nat;
              Heap.nd_buffer := Heap.Int64 [-7; 0; 1; 255]%Z |}
           [-7; 0; 1; 255]%Z eq_refl).
Defined.

(** * The range of the table of encodings *)

Module SignedUnit.

Section SignedUnitScaled.

Variable K : Z.
Hypothesis K_large : (2200 <= K)%Z.

Local Abbreviation V := (scaled K).

Open Scope float_scope.

Lemma in_signed_unit_SF x :
  in_signed_unit x = true -> at_most K 0 (Prim2SF x).
Proof.
  unfold in_signed_unit. rewrite !leb_spec, Rounding.one_SF.
  change (Prim2SF (-1)) with (S754_finite true 4503599627370496 (-52)).
  intros H. apply andb_prop in H. destruct H as [Hlo Hhi].
  destruct (Prim2SF x) as [s|s| |s m e] eqn:Ex; cbn [at_most]; trivial.
  - destruct s; discriminate.
  - discriminate.
  - pose proof (Rounding.valid_canonical x m e s Ex) as Hcan.
    destruct (Rounding.canonical_facts m e Hcan) as (He & Hm & Hn).
    rewrite <- (Rounding.one_value K K_large).
    assert (Hcmp : match (e ?= -52)%Z with
                   | Lt => True
                   | Eq => (Zpos m <= Zpos 4503599627370496)%Z
                   | Gt => False
                   end).
    { destruct s; unfold SFleb, SFcompare in Hlo, Hhi.
      - rewrite (Z.compare_antisym e (-52)) in Hlo.
        destruct (e ?= -52)%Z eqn:Ec; cbn [CompOpp] in Hlo; try exact I;
          try discriminate.
        rewrite Pos.compare_cont_spec in Hlo. cbn [Pos.switch_Eq] in Hlo.
        destruct (Pos.compare_spec 4503599627370496 m) as [Hm' | Hm' | Hm'];
          [subst m; reflexivity | discriminate
          | apply Pos2Z.pos_lt_pos in Hm'; apply Z.lt_le_incl, Hm'].
      - destruct (e ?= -52)%Z eqn:Ec; try exact I; try discriminate.
        rewrite Pos.compare_cont_spec in Hhi. cbn [Pos.switch_Eq] in Hhi.
        destruct (Pos.compare_spec m 4503599627370496) as [Hm' | Hm' | Hm'];
          [subst m; reflexivity
          | apply Pos2Z.pos_lt_pos in Hm'; apply Z.lt_le_incl, Hm'
          | discriminate]. }
    destruct (Z.compare_spec e (-52)) as [Heq | Hlt | Hgt]; [| | contradiction].
    + subst e. apply Rounding.V_mono; [lia | exact Hcmp].
    + apply Z.le_trans with (V (2 ^ 53) e)%Z; [apply Rounding.V_mono; lia|].
      rewrite (Rounding.one_value K K_large), Rounding.V_pow by lia.
      apply Rounding.V_le_exp; lia.
Qed.

Lemma SF_in_signed_unit x :
  at_most K 0 (Prim2SF x) -> in_signed_unit x = true.
Proof.
  unfold in_signed_unit. rewrite !leb_spec, Rounding.one_SF.
  change (Prim2SF (-1)) with (S754_finite true 4503599627370496 (-52)).
  destruct (Prim2SF x) as [s|s| |s m e] eqn:Ex; cbn [at_most]; try contradiction.
  - intros _. now destruct s.
  - intros Hv.
    pose proof (Rounding.valid_canonical x m e s Ex) as Hcan.
    destruct (Rounding.canonical_facts m e Hcan) as (He & Hm & Hn).
    rewrite <- (Rounding.one_value K K_large) in Hv.
    pose proof (Rounding.SFleb_of_value K K_large _ _ _ _ Hcan
                  Rounding.one_canonical Hv) as Hle.
    destruct s; [|now rewrite Hle].
    cbn [andb]. rewrite andb_true_r.
    unfold SFleb, SFcompare in Hle |- *.
    rewrite (Z.compare_antisym e (-52)).
    destruct (e ?= -52)%Z; cbn [CompOpp]; try reflexivity; try discriminate.
    rewrite Pos.compare_cont_spec in Hle |- *. cbn [Pos.switch_Eq] in Hle |- *.
    rewrite (Pos.compare_antisym m 4503599627370496).
    now destruct (m ?= 4503599627370496)%positive.
Qed.

(** Rounding into a narrower format, and back into a double, keeps a
    magnitude of at most 1. *)
Lemma round_to_at_most p E x :
  (1 <= p)%Z -> (3 - E - p <= 0 <= E - p)%Z -> (- K <= 3 - E - p)%Z ->
  at_most K 0 (Prim2SF x) -> at_most K 0 (Prim2SF (F64.round_to p E x)).
Proof.
  intros Hp HE HK H. unfold F64.round_to.
  destruct (Prim2SF x) as [sx|sx| |sx m e] eqn:Ex; cbn [at_most] in H;
    try contradiction.
  - now rewrite Ex.
  - pose proof (Rounding.valid_canonical x m e sx Ex) as Hcan.
    destruct (Rounding.canonical_facts m e Hcan) as (He & _).
    assert (Hone : (1 < 2 ^ p)%Z).
    { change 1%Z with (2 ^ 0)%Z at 1. apply Z.pow_lt_mono_r; lia. }
    pose proof (RoundingBounds.round_le p E Hp K sx m e 1 0
                  ltac:(lia) ltac:(lia) HK Hone HE H) as Hr.
    destruct (binary_round p E sx m e) as [s'|s'| |s' m' e']; try contradiction.
    + now destruct s'.
    + destruct Hr as (-> & Hle & Hcan' & _).
      rewrite Prim2SF_SF2Prim by apply SF.binary_round_valid.
      assert (He' : (- K <= e')%Z) by (unfold fexp, emin in Hcan'; lia).
      pose proof (RoundingBounds.round_le prec emax ltac:(unfold prec; lia) K
                    sx m' e' 1 0
                    He' ltac:(lia) ltac:(unfold prec, emax; lia)
                    ltac:(unfold prec; lia) ltac:(unfold prec, emax; lia) Hle) as Hr.
      destruct (binary_round prec emax sx m' e') as [s''|s''| |s'' mr er];
        cbn [at_most]; try contradiction; [exact I|].
      now destruct Hr as (_ & Hr & _).
Qed.

End SignedUnitScaled.

Lemma astype_in_signed_unit dt x :
  in_signed_unit x = true -> in_signed_unit (Tf.astype dt x) = true.
Proof.
  intros H. apply (SF_in_signed_unit 2200 (Z.le_refl _)).
  apply (in_signed_unit_SF 2200 (Z.le_refl _)) in H.
  destruct dt; cbn [Tf.astype]; [| |exact H].
  - apply round_to_at_most; [lia | lia | lia | lia | exact H].
  - apply round_to_at_most; [lia | lia | lia | lia | exact H].
Qed.

End SignedUnit.

Module GatherElements.

Lemma collect_in {A B : Type} (g : A -> result B) l ys y :
  Tf.collect (map g l) = Ok ys -> In y ys -> exists j, In j l /\ g j = Ok y.
Proof.
  revert ys. induction l as [|x l IH]; intros ys; cbn [map Tf.collect].
  - intros E. injection E as <-. contradiction.
  - destruct (g x) as [z|] eqn:Ez; [|discriminate]. cbn [Py.bind].
    destruct (Tf.collect (map g l)) as [zs|]; [|discriminate]. cbn [Py.bind].
    intros E. injection E as <-. intros [<- | Hin].
    + exists x. split; [now left | exact Ez].
    + destruct (IH zs eq_refl Hin) as (j & Hj & Hg). exists j. split; [now right | exact Hg].
Qed.

Lemma in_firstn_skipn {A : Type} (x : A) n k l :
  In x (firstn n (skipn k l)) -> In x l.
Proof.
  intros H. rewrite <- (firstn_skipn k l). apply in_or_app. right.
  rewrite <- (firstn_skipn n (skipn k l)). apply in_or_app. now left.
Qed.

(** What a lookup returns is made of elements of the table and of
    zeros. *)
Lemma gather_nd_elements dev params idx out v :
  Tf.gather_nd dev params idx = Ok out -> In v (Tensor.data out) ->
  In v (Tensor.data params) \/ v = 0%float.
Proof.
  unfold Tf.gather_nd.
  destruct (rev (Tensor.shape idx)) as [|K outer_rev]; [discriminate|].
  destruct ((length (Tensor.shape params) =? 0) ||
            (length (Tensor.shape params) <? K))%nat; [discriminate|].
  destruct ((0 <? Tensor.numel (rev outer_rev)) &&
            (Tensor.numel (Tensor.shape params) =? 0))%nat; [discriminate|].
  match goal with
  | |- Py.bind (Tf.collect (map ?g ?l)) _ = _ -> _ =>
      destruct (Tf.collect (map g l)) as [slices|] eqn:E; [|discriminate];
      cbn [Py.bind]; intros Hout; injection Hout as <-; cbn [Tensor.data];
      intros Hin; apply in_concat in Hin; destruct Hin as (slice & Hs & Hv);
      destruct (collect_in g l slices slice E Hs) as (j & _ & Hg)
  end.
  cbv beta in Hg.
  destruct (Tf.flat_offset _ _ 0) as [off|].
  - injection Hg as <-. left. now apply in_firstn_skipn in Hv.
  - destruct dev; [discriminate|]. injection Hg as <-.
    right. now apply repeat_spec in Hv.
Qed.

End GatherElements.

(** X20.  The cast to the layer's dtype never takes an entry out of
    [-1, 1]: when the platform's sine and cosine of the angles of the table
    are in [-1, 1], so is every entry of the table, in [float16],
    [float32] and [float64], and so is every value a lookup returns, the
    zeros of an out-of-range lookup on GPU included. *)
Theorem table_entries_stay_in_range pf ms md dt enc :
  PositionEncoder_init pf ms md dt = Ok enc ->
  (forall t i, (0 <= t < ms)%Z -> (0 <= i < stored_dims md / 2)%Z ->
     in_signed_unit (np_sin pf (angle pf (stored_dims md) t i)) = true /\
     in_signed_unit (np_cos pf (angle pf (stored_dims md) t i)) = true) ->
  Forall (fun v => in_signed_unit v = true) (Tensor.data (embedding enc)) /\
  forall dev indices out,
    call dev enc indices = Ok out ->
    Forall (fun v => in_signed_unit v = true) (Tensor.data out).
Proof.
  intros Hinit Hpf.
  destruct (PositionEncoder_init_inv pf ms md dt enc Hinit)
    as (Hemb & _ & _ & _ & Hms).
  assert (HD : (0 <= stored_dims md)%Z).
  { pose proof Hinit as H. rewrite PositionEncoder_init_rows in H.
    destruct (ms <? 0)%Z; [discriminate|].
    destruct (stored_dims md <? 0)%Z eqn:E; [discriminate|]. now apply Z.ltb_ge. }
  assert (Htable : Forall (fun v => in_signed_unit v = true)
                          (Tensor.data (embedding enc))).
  { rewrite Hemb. cbn [Tensor.data]. apply Forall_forall. intros v Hv.
    apply in_concat in Hv. destruct Hv as (row & Hrow & Hv).
    apply in_map_iff in Hrow. destruct Hrow as (r & <- & Hr).
    apply in_seq in Hr. apply in_map_iff in Hv. destruct Hv as (w & <- & Hw).
    apply SignedUnit.astype_in_signed_unit.
    rewrite TableFacts.encoding_row_pairs in Hw
      by (assumption || apply stored_dims_even).
    apply in_flat_map in Hw. destruct Hw as (i & Hi & Hw).
    unfold Np2.arange_int in Hi. apply in_map_iff in Hi.
    destruct Hi as (k & <- & Hk). apply in_seq in Hk.
    destruct (Hpf (Z.of_nat r) (Z.of_nat k) ltac:(lia) ltac:(lia)) as [Hs Hc].
    destruct Hw as [<- | [<- | []]]; assumption. }
  split; [exact Htable|].
  intros dev indices out Hcall. apply Forall_forall. intros v Hv.
  destruct (GatherElements.gather_nd_elements dev _ indices out v Hcall Hv)
    as [Hin | ->]; [|reflexivity].
  rewrite Forall_forall in Htable. now apply Htable.
Qed.

Lemma table_entries_stay_in_range_witness :
  exists enc,
    PositionEncoder_init taylor_platform 2 2 Tf.float16 = Ok enc /\
    Forall (fun v => in_signed_unit v = true) (Tensor.data (embedding enc)).
Proof.
  destruct (PositionEncoder_init_ok taylor_platform 2 2 Tf.float16)
    as [enc Hinit]; [lia | lia |].
  exists enc. split; [exact Hinit|].
  apply (table_entries_stay_in_range taylor_platform 2 2 Tf.float16 enc Hinit).
  intros t i Ht Hi. change (stored_dims 2 / 2)%Z with 1%Z in Hi.
  assert (Hi0 : i = 0%Z) by lia. subst i.
  assert (Ht' : t = 0%Z \/ t = 1%Z) by lia.
  destruct Ht' as [-> | ->]; split; reflexivity.
Defined.

(** * Numbers of a format round to themselves *)

Module ExactRounding.

Open Scope Z_scope.

Section ExactFormat.

Variables p E : Z.
Hypothesis p_pos : 1 <= p.

(** What [binary_round] returns in any case: the sign it is given and, when
    finite, a mantissa and an exponent of the format. *)
Lemma round_canonical s m e :
  match binary_round p E s m e with
  | S754_zero s' => s' = s
  | S754_finite s' mr er =>
      s' = s /\ fexp p E (Zpos (digits2_pos mr) + er) = er /\ er <= E - p
  | S754_infinity s' => s' = s
  | S754_nan => False
  end.
Proof.
  unfold binary_round.
  destruct (Rounding.shl_align_spec m e (fexp p E (Zpos (digits2_pos m) + e)))
    as (mz & Ez & Hmz).
  rewrite Ez. set (f := fexp p E (Zpos (digits2_pos m) + e)) in *.
  assert (Hd : Zpos (digits2_pos mz) + Z.min e f = Zpos (digits2_pos m) + e).
  { rewrite (Rounding.digits_shift m mz (e - Z.min e f)) by (lia || exact Hmz). lia. }
  pose proof (RoundingBounds.round_spec p E p_pos s mz (Z.min e f)) as H.
  rewrite Hd in H. fold f in H. specialize (H ltac:(lia)). cbv zeta in H.
  destruct H as (m1 & m2 & _ & _ & _ & _ & Hres).
  destruct (binary_round_aux p E s (Zpos mz) (Z.min e f) loc_Exact)
    as [s'|s'| |s' mr er].
  - now destruct Hres.
  - now destruct Hres.
  - exact Hres.
  - destruct Hres as (-> & _ & _ & _ & Hov & Hcan). now repeat split.
Qed.

Lemma canonical_bounds (m : positive) e :
  fexp p E (Zpos (digits2_pos m) + e) = e ->
  Zpos m < 2 ^ p /\ 3 - E - p <= e.
Proof.
  intros H. pose proof (Rounding.digits2_bounds m) as [_ Hhi].
  assert (Hd : Zpos (digits2_pos m) <= p /\ 3 - E - p <= e)
    by (unfold fexp, emin in H; lia).
  split; [|lia].
  eapply Z.lt_le_trans; [exact Hhi|]. apply Z.pow_le_mono_r; lia.
Qed.

Section ExactValues.

Variable K : Z.

Local Abbreviation V := (scaled K).

Lemma magnitude (m : positive) e :
  - K <= e ->
  2 ^ (Zpos (digits2_pos m) - 1 + (e + K)) <= V (Zpos m) e
  < 2 ^ (Zpos (digits2_pos m) + (e + K)).
Proof.
  intros He. pose proof (Rounding.digits2_bounds m) as [Hlo Hhi].
  unfold scaled.
  rewrite (Z.pow_add_r 2 (Zpos (digits2_pos m) - 1) (e + K)) by lia.
  rewrite (Z.pow_add_r 2 (Zpos (digits2_pos m)) (e + K)) by lia.
  assert (0 < 2 ^ (e + K)) by (apply Z.pow_pos_nonneg; lia).
  split; [apply Z.mul_le_mono_nonneg_r | apply Z.mul_lt_mono_pos_r]; lia.
Qed.

(** A value has one canonical representation in the format. *)
Lemma canonical_unique (m1 : positive) e1 (m2 : positive) e2 :
  - K <= e1 -> - K <= e2 ->
  fexp p E (Zpos (digits2_pos m1) + e1) = e1 ->
  fexp p E (Zpos (digits2_pos m2) + e2) = e2 ->
  V (Zpos m1) e1 = V (Zpos m2) e2 ->
  m1 = m2 /\ e1 = e2.
Proof.
  intros He1 He2 H1 H2 Hv.
  pose proof (magnitude m1 e1 He1) as [Hlo1 Hhi1].
  pose proof (magnitude m2 e2 He2) as [Hlo2 Hhi2].
  set (d1 := Zpos (digits2_pos m1)) in *. set (d2 := Zpos (digits2_pos m2)) in *.
  assert (Hd1 : 0 < d1) by (unfold d1; lia).
  assert (Hd2 : 0 < d2) by (unfold d2; lia).
  assert (Ha : d1 - 1 + (e1 + K) < d2 + (e2 + K)).
  { apply (Z.pow_lt_mono_r_iff 2); lia. }
  assert (Hb : d2 - 1 + (e2 + K) < d1 + (e1 + K)).
  { apply (Z.pow_lt_mono_r_iff 2); lia. }
  assert (Hmag : d1 + e1 = d2 + e2) by lia.
  assert (He : e1 = e2) by (rewrite <- H1, <- H2, Hmag; reflexivity).
  split; [|exact He]. subst e2. unfold scaled in Hv.
  apply Z.mul_cancel_r in Hv; [congruence|].
  apply Z.neq_sym, Z.lt_neq, Z.pow_pos_nonneg; lia.
Qed.

(** A number of the format, given by any mantissa and exponent, rounds to
    its canonical representation. *)
Lemma round_exact s (m : positive) e (mx : positive) ex :
  - K <= e -> - K <= 3 - E - p ->
  fexp p E (Zpos (digits2_pos mx) + ex) = ex -> ex <= E - p ->
  V (Zpos m) e = V (Zpos mx) ex ->
  binary_round p E s m e = S754_finite s mx ex.
Proof.
  intros He Hmin Hcan Hmax Hv.
  destruct (canonical_bounds mx ex Hcan) as [Hmx Hex].
  pose proof (RoundingBounds.round_ge p E p_pos K s m e mx ex
                He ltac:(lia) Hmin Hmx Hex ltac:(lia)) as Hge.
  pose proof (RoundingBounds.round_le p E p_pos K s m e mx ex
                He ltac:(lia) Hmin Hmx ltac:(lia) ltac:(lia)) as Hle.
  destruct (binary_round p E s m e) as [s'|s'| |s' mr er]; try contradiction.
  destruct Hge as (-> & Hge & Hc & _). destruct Hle as (_ & Hle & _).
  destruct (canonical_bounds mr er Hc) as [_ Her].
  destruct (canonical_unique mr er mx ex ltac:(lia) ltac:(lia) Hc Hcan ltac:(lia))
    as [-> ->].
  reflexivity.
Qed.

(** A finite number with a mantissa that fits and an exponent in range
    keeps its value when it is rounded. *)
Lemma round_same_value s (m : positive) e :
  - K <= e -> - K <= 3 - E - p ->
  Zpos m < 2 ^ p -> 3 - E - p <= e <= E - p ->
  exists mr er,
    binary_round p E s m e = S754_finite s mr er /\ - K <= er /\
    V (Zpos mr) er = V (Zpos m) e.
Proof.
  intros He Hmin Hm Hexp.
  pose proof (RoundingBounds.round_ge p E p_pos K s m e m e
                He He Hmin Hm ltac:(lia) ltac:(lia)) as Hge.
  pose proof (RoundingBounds.round_le p E p_pos K s m e m e
                He He Hmin Hm Hexp ltac:(lia)) as Hle.
  destruct (binary_round p E s m e) as [s'|s'| |s' mr er]; try contradiction.
  destruct Hge as (-> & Hge & Hc & _). destruct Hle as (_ & Hle & _).
  destruct (canonical_bounds mr er Hc) as [_ Her].
  exists mr, er. split; [reflexivity|]. split; lia.
Qed.

End ExactValues.

End ExactFormat.

Open Scope float_scope.

(** The 32-bit rounding yields 32-bit numbers: it leaves its own results
    as they are. *)
Lemma to_binary32_idem x : F64.to_binary32 (F64.to_binary32 x) = F64.to_binary32 x.
Proof.
  unfold F64.to_binary32 at 2 3. unfold F64.round_to.
  destruct (Prim2SF x) as [sx|sx| |sx mx ex] eqn:Ex.
  - unfold F64.to_binary32, F64.round_to. now rewrite Ex.
  - unfold F64.to_binary32, F64.round_to. now rewrite Ex.
  - unfold F64.to_binary32, F64.round_to. now rewrite Ex.
  - pose proof (round_canonical 24 128 ltac:(lia) sx mx ex) as Hr.
    destruct (binary_round 24 128 sx mx ex) as [s'|s'| |s' m' e'] eqn:Er;
      try contradiction.
    + unfold F64.to_binary32, F64.round_to.
      now rewrite Prim2SF_SF2Prim by reflexivity.
    + unfold F64.to_binary32, F64.round_to.
      now rewrite Prim2SF_SF2Prim by reflexivity.
    + destruct Hr as (-> & Hcan & Hov).
      destruct (canonical_bounds 24 128 m' e' Hcan) as [Hm He].
      assert (Hm64 : (Zpos m' < 2 ^ prec)%Z).
      { eapply Z.lt_le_trans; [exact Hm|]. unfold prec.
        apply Z.pow_le_mono_r; lia. }
      destruct (round_same_value prec emax ltac:(unfold prec; lia) 2200 sx m' e'
                  ltac:(lia) ltac:(unfold prec, emax; lia) Hm64
                  ltac:(unfold prec, emax; lia))
        as (m2 & e2 & E2 & He2 & Hv).
      unfold F64.to_binary32, F64.round_to.
      rewrite Prim2SF_SF2Prim by apply SF.binary_round_valid.
      rewrite E2.
      rewrite (round_exact 24 128 ltac:(lia) 2200 sx m2 e2 m' e'); try lia;
        try assumption.
      now rewrite E2.
Qed.

End ExactRounding.

(** * The table of the default dtype *)

Module DefaultTable.

Open Scope float_scope.

Lemma map_flat_map {A B C : Type} (f : B -> C) (g : A -> list B) l :
  map f (flat_map g l) = flat_map (fun a => map f (g a)) l.
Proof.
  induction l as [|a l IH]; [reflexivity|].
  cbn [flat_map]. now rewrite map_app, IH.
Qed.

(** A row of the table of an encoder with the default dtype. *)
Lemma rounded_row_spec pf D r :
  (0 <= D)%Z -> Z.even D = true ->
  map (Tf.astype default_dtype) (encoding_row pf D r) =
  rounded_row pf D (Z.of_nat r).
Proof.
  intros H0 He. rewrite TableFacts.encoding_row_pairs by assumption.
  now rewrite map_flat_map.
Qed.

Lemma rounded_row_idem pf D t :
  Forall (fun v => F64.to_binary32 v = v) (rounded_row pf D t).
Proof.
  apply Forall_forall. intros v Hv. unfold rounded_row in Hv.
  apply in_flat_map in Hv. destruct Hv as (i & _ & [<- | [<- | []]]);
    apply ExactRounding.to_binary32_idem.
Qed.

End DefaultTable.

(** C10.  The default dtype is [float32].  For every [max_steps] and
    [max_dims] the constructor accepts, the stored table holds, at row [t]
    and pair [i], the 32-bit rounding of the 64-bit sine and cosine of
    [t / 10000^(2i / D)]; every stored value is a 32-bit number, which the
    rounding leaves unchanged, so an entry is the 64-bit value only where
    that value has a 32-bit representation; and a lookup of steps in range
    returns rows of these rounded values. *)
Theorem default_table_is_binary32 pf ms md :
  (0 <= ms)%Z -> (-1 <= md)%Z ->
  exists enc,
    PositionEncoder_init pf ms md default_dtype = Ok enc /\
    dtype enc = Tf.float32 /\
    embedding enc =
      Tensor.mk [Z.to_nat ms; Z.to_nat (stored_dims md)]
        (concat (map (rounded_row pf (stored_dims md)) (Np2.arange_int ms))) /\
    Forall (fun v => F64.to_binary32 v = v) (Tensor.data (embedding enc)) /\
    (forall t i, (0 <= t < ms)%Z -> (0 <= i < stored_dims md / 2)%Z ->
       let s := np_sin pf (angle pf (stored_dims md) t i) in
       let c := np_cos pf (angle pf (stored_dims md) t i) in
       Tensor.get2 (embedding enc) (Z.to_nat t) (Z.to_nat (2 * i)) 0%float =
         F64.to_binary32 s /\
       Tensor.get2 (embedding enc) (Z.to_nat t) (Z.to_nat (2 * i + 1)) 0%float =
         F64.to_binary32 c /\
       (Tensor.get2 (embedding enc) (Z.to_nat t) (Z.to_nat (2 * i)) 0%float = s <->
        F64.to_binary32 s = s) /\
       (Tensor.get2 (embedding enc) (Z.to_nat t) (Z.to_nat (2 * i + 1)) 0%float = c <->
        F64.to_binary32 c = c)) /\
    (forall dev outer idx,
       (0 < md)%Z -> length idx = Tensor.numel outer ->
       Forall (fun i => (0 <= i < ms)%Z) idx ->
       call dev enc (Tensor.mk (outer ++ [1%nat]) idx) =
       Ok (Tensor.mk (outer ++ [Z.to_nat (stored_dims md)])
                     (concat (map (rounded_row pf (stored_dims md)) idx)))).
Proof.
  intros Hms Hmd.
  assert (HD : (0 <= stored_dims md)%Z) by now apply TableFacts.stored_dims_nonneg.
  pose proof (stored_dims_even md) as Heven.
  assert (Hinit : exists enc, PositionEncoder_init pf ms md default_dtype = Ok enc).
  { rewrite PositionEncoder_init_rows.
    replace ((ms <? 0) || (stored_dims md <? 0))%Z with false
      by (symmetry; apply orb_false_intro; apply Z.ltb_ge; lia).
    eexists. reflexivity. }
  destruct Hinit as [enc Hinit]. exists enc. split; [exact Hinit|].
  destruct (PositionEncoder_init_inv pf ms md default_dtype enc Hinit)
    as (Hemb & Hsteps & Hdims & Hdt & _).
  split; [exact Hdt|].
  assert (Htable : embedding enc =
            Tensor.mk [Z.to_nat ms; Z.to_nat (stored_dims md)]
              (concat (map (rounded_row pf (stored_dims md)) (Np2.arange_int ms)))).
  { rewrite Hemb. f_equal. f_equal. unfold Np2.arange_int. rewrite map_map.
    apply map_ext. intros r. now apply DefaultTable.rounded_row_spec. }
  split; [exact Htable|]. split; [|split].
  - rewrite Htable. cbn [Tensor.data]. apply Forall_concat, Forall_map, Forall_forall.
    intros t _. apply DefaultTable.rounded_row_idem.
  - intros t i Ht Hi s c.
    destruct (pair_index_bound _ i Heven Hi) as [_ Hc].
    assert (Hs : Tensor.get2 (embedding enc) (Z.to_nat t) (Z.to_nat (2 * i)) 0%float =
                 F64.to_binary32 s).
    { rewrite Hemb, table_get2 by lia.
      rewrite encoding_row_sin by assumption. now rewrite Z2Nat.id by lia. }
    assert (Hcos : Tensor.get2 (embedding enc) (Z.to_nat t) (Z.to_nat (2 * i + 1)) 0%float =
                   F64.to_binary32 c).
    { rewrite Hemb, table_get2 by lia.
      rewrite encoding_row_cos by assumption. now rewrite Z2Nat.id by lia. }
    rewrite Hs, Hcos. repeat split; trivial.
  - intros dev outer idx Hpos Hlen Hin.
    rewrite (call_in_range pf ms md default_dtype) by assumption.
    rewrite Hdims. do 3 f_equal. apply map_ext_in. intros t Ht.
    rewrite Forall_forall in Hin. specialize (Hin t Ht).
    rewrite (TableFacts.table_row_spec pf ms md default_dtype) by assumption.
    rewrite DefaultTable.rounded_row_spec by assumption.
    now rewrite Z2Nat.id by lia.
Qed.

Lemma default_table_is_binary32_witness :
  exists enc,
    PositionEncoder_init taylor_platform 3 5 default_dtype = Ok enc /\
    Tensor.shape (embedding enc) = [3; 6]%nat /\
    Tensor.get2 (embedding enc) 1 0 0%float = 0x1.aaaaaap-1%float /\
    np_sin taylor_platform (angle taylor_platform 6 1 0) = 0x1.aaaaaaaaaaaabp-1%float /\
    call Tf.CPU enc (Tensor.matrix [[1%Z]]) =
      Ok (Tensor.mk [1; 6]%nat (rounded_row taylor_platform 6 1 ++ [])).
Proof.
  destruct (default_table_is_binary32 taylor_platform 3 5)
    as (enc & Hinit & _ & Htable & _ & Hentry & Hcall); [lia | lia |].
  exists enc. split; [exact Hinit|]. split; [now rewrite Htable|].
  destruct (Hentry 1%Z 0%Z) as (Hs & _); [lia | vm_compute; split; congruence |].
  split; [exact Hs|]. split; [reflexivity|].
  exact (Hcall Tf.CPU [1%nat] [1%Z] eq_refl eq_refl
           (Forall_cons _ (conj (Z.le_0_1) eq_refl) (Forall_nil _))).
Defined.

(** * Rounding a quotient, against a lower and an upper bound *)

Module QuotientRounding.

Open Scope Z_scope.

Lemma within_step N P mrs : 0 < P -> within N P mrs -> within N (2 * P) (shr_1 mrs).
Proof.
  unfold within. intros HP.
  destruct mrs as [mm r s]. cbn [shr_m]. intros (H0 & [Hlo Hhi] & Hin).
  assert (Hin' : r || s = true -> mm * P < N).
  { intros Hrs. apply Hin. destruct r, s; simpl in *; congruence. }
  assert (Hloc : forall q b,
            loc_of_shr_record (Build_shr_record q b (r || s)) <> loc_Exact ->
            b = true \/ r || s = true).
  { intros q b. destruct b; [now left|]. destruct (r || s); [now right|].
    simpl. congruence. }
  destruct mm as [|[p|p|]|p]; try lia; cbn [shr_1 shr_m].
  - repeat split; try lia.
    intros H. destruct (Hloc _ _ H) as [?|Hrs]; [discriminate|].
    specialize (Hin' Hrs). lia.
  - rewrite Pos2Z.inj_xI in *.
    replace ((2 * Z.pos p + 1) * P) with (2 * (Z.pos p * P) + P) in * by ring.
    replace ((2 * Z.pos p + 1 + 1) * P) with (2 * (Z.pos p * P) + 2 * P) in * by ring.
    replace (Z.pos p * (2 * P)) with (2 * (Z.pos p * P)) by ring.
    replace ((Z.pos p + 1) * (2 * P)) with (2 * (Z.pos p * P) + 2 * P) by ring.
    repeat split; lia.
  - rewrite Pos2Z.inj_xO in *.
    replace (2 * Z.pos p * P) with (2 * (Z.pos p * P)) in * by ring.
    replace ((2 * Z.pos p + 1) * P) with (2 * (Z.pos p * P) + P) in * by ring.
    replace (Z.pos p * (2 * P)) with (2 * (Z.pos p * P)) by ring.
    replace ((Z.pos p + 1) * (2 * P)) with (2 * (Z.pos p * P) + 2 * P) by ring.
    repeat split; try lia.
    intros H. destruct (Hloc _ _ H) as [?|Hrs]; [discriminate|].
    specialize (Hin' Hrs). lia.
  - repeat split; lia.
Qed.

Lemma within_iter N P k mrs :
  0 < P -> within N P mrs -> within N (2 ^ Z.of_nat k * P) (Nat.iter k shr_1 mrs).
Proof.
  intros HP H. induction k as [|k IH].
  - change (2 ^ Z.of_nat 0) with 1. rewrite Z.mul_1_l. exact H.
  - rewrite Nat2Z.inj_succ, Z.pow_succ_r, <- Z.mul_assoc by lia.
    simpl. apply within_step; [|exact IH].
    apply Z.mul_pos_pos; [apply Z.pow_pos_nonneg; lia | exact HP].
Qed.

Lemma shr_within N P mrs e n :
  0 < P -> 0 <= n -> within N P mrs ->
  exists mrs', shr mrs e n = (mrs', e + n) /\ within N (2 ^ n * P) mrs'.
Proof.
  intros HP Hn H. destruct n as [|k|k]; [| |lia].
  - exists mrs. split; [simpl; now rewrite Z.add_0_r|].
    now rewrite Z.pow_0_r, Z.mul_1_l.
  - eexists. split; [reflexivity|]. rewrite Rounding.iter_pos_nat.
    rewrite <- (positive_nat_Z k). now apply within_iter.
Qed.

Lemma loc_of_shr_record_of_loc m l :
  loc_of_shr_record (shr_record_of_loc m l) = l.
Proof. destruct l as [|[]]; reflexivity. Qed.

Lemma within_start q l N P :
  0 <= q -> q * P <= N < (q + 1) * P -> (l <> loc_Exact -> q * P < N) ->
  within N P (shr_record_of_loc q l).
Proof.
  intros Hq Hb Hl. unfold within.
  rewrite SF.shr_record_of_loc_m, loc_of_shr_record_of_loc. now repeat split.
Qed.

Lemma new_location_exact D : new_location D 0 = loc_Exact.
Proof.
  unfold new_location, new_location_even, new_location_odd.
  now destruct (Z.even D).
Qed.

Section QuotientFormat.

Variables p E : Z.
Hypothesis p_pos : 1 <= p.

(** What [binary_round_aux] does to the integer part [q] of a quotient
    [N / P] at exponent [e], given with its location: the same as to an
    exact mantissa, the brackets being those of the quotient. *)
Lemma round_quotient_spec s q e l N P :
  0 <= q -> 0 < P -> q * P <= N < (q + 1) * P ->
  (l <> loc_Exact -> q * P < N) ->
  e <= fexp p E (Zdigits2 q + e) ->
  let f := fexp p E (Zdigits2 q + e) in
  exists m1 m2,
    m1 * (2 ^ (f - e) * P) <= N < (m1 + 1) * (2 ^ (f - e) * P) /\
    0 <= m1 < 2 ^ p /\ (3 - E - p < f -> 2 ^ (p - 1) <= m1) /\
    (m2 = m1 \/ (m2 = m1 + 1 /\ m1 * (2 ^ (f - e) * P) < N)) /\
    match binary_round_aux p E s q e l with
    | S754_zero s' => s' = s /\ m2 = 0
    | S754_finite s' mr er =>
        s' = s /\ f <= er <= f + 1 /\ Zpos mr * 2 ^ (er - f) = m2 /\
        Zpos mr < 2 ^ p /\ er <= E - p /\
        fexp p E (Zpos (digits2_pos mr) + er) = er
    | S754_infinity s' =>
        s' = s /\ 0 < m2 /\ E - p <= f /\ (f = E - p -> m2 = 2 ^ p)
    | S754_nan => False
    end.
Proof.
  intros Hq HP Hb Hl Hpre.
  pose proof (RoundingBounds.pow_p p p_pos) as Hpp.
  pose proof (RoundingBounds.pow_p_pos p p_pos) as Hp1.
  unfold binary_round_aux, shr_fexp.
  set (f := fexp p E (Zdigits2 q + e)) in *. cbv zeta.
  destruct (shr_within N P (shr_record_of_loc q l) e (f - e) HP ltac:(lia)
              (within_start q l N P Hq Hb Hl))
    as (mrs1 & E1 & H0 & [Hlo Hhi] & Hin).
  rewrite E1. replace (e + (f - e)) with f by lia.
  set (m1 := shr_m mrs1) in *.
  assert (Hf : 3 - E - p <= f /\ Zdigits2 q + e - p <= f /\
               (f = 3 - E - p \/ f = Zdigits2 q + e - p))
    by (unfold f, fexp, emin; lia).
  destruct Hf as (Hf1 & Hf2 & Hf3).
  assert (Hsh : 0 < 2 ^ (f - e)) by (apply Z.pow_pos_nonneg; lia).
  assert (Hqlo : m1 * 2 ^ (f - e) <= q).
  { assert (m1 * 2 ^ (f - e) < q + 1); [|lia].
    apply (Z.mul_lt_mono_pos_r P); [exact HP|].
    eapply Z.le_lt_trans; [|exact (proj2 Hb)].
    rewrite <- Z.mul_assoc. exact Hlo. }
  assert (Hqhi : q < (m1 + 1) * 2 ^ (f - e)).
  { apply (Z.mul_lt_mono_pos_r P); [exact HP|].
    eapply Z.le_lt_trans; [exact (proj1 Hb)|].
    rewrite <- Z.mul_assoc. exact Hhi. }
  assert (Hm1 : m1 < 2 ^ p /\ (3 - E - p < f -> 2 ^ (p - 1) <= m1)).
  { destruct q as [|m|m]; [| |lia].
    - cbn [Zdigits2] in *. split; [|lia].
      assert (m1 = 0) by nia. lia.
    - cbn [Zdigits2] in *.
      pose proof (Rounding.digits2_bounds m) as [Hdlo Hdhi].
      set (d := Zpos (digits2_pos m)) in *. split.
      + assert (Hd : 2 ^ d <= 2 ^ p * 2 ^ (f - e)).
        { rewrite <- Z.pow_add_r by lia. apply Z.pow_le_mono_r; lia. }
        assert (m1 * 2 ^ (f - e) < 2 ^ p * 2 ^ (f - e)) by lia.
        apply Z.mul_lt_mono_pos_r in H; assumption.
      + intros Hn. assert (Hfe : f = d + e - p) by lia.
        assert (Hd : 2 ^ (d - 1) = 2 ^ (p - 1) * 2 ^ (f - e)).
        { rewrite <- Z.pow_add_r by lia. f_equal. lia. }
        rewrite Hd in Hdlo.
        assert (2 ^ (p - 1) * 2 ^ (f - e) < (m1 + 1) * 2 ^ (f - e)) by lia.
        apply Z.mul_lt_mono_pos_r in H; [lia | assumption]. }
  destruct Hm1 as [Hm1 Hm1lo].
  set (m2 := round_nearest_even m1 (loc_of_shr_record mrs1)).
  assert (Hm2 : m2 = m1 \/ (m2 = m1 + 1 /\ m1 * (2 ^ (f - e) * P) < N)).
  { destruct (Rounding.round_nearest_even_bounds mrs1) as [H | [H Hloc]];
      [now left | right; split; [exact H | now apply Hin]]. }
  exists m1, m2.
  split; [split; assumption|]. split; [lia|]. split; [exact Hm1lo|].
  split; [exact Hm2|].
  assert (Hm2r : 0 <= m2 <= 2 ^ p) by lia.
  destruct m2 as [|p2|p2] eqn:Em2; [| | lia].
  - cbn [Zdigits2 shr_record_of_loc].
    destruct (fexp p E (0 + f) - f) as [|k|k] eqn:Eq;
      try (split; reflexivity).
    unfold fexp, emin in Eq. lia.
  - cbn [Zdigits2 shr_record_of_loc].
    pose proof (Rounding.digits2_bounds p2) as [Hlo2 Hhi2].
    set (d2 := Zpos (digits2_pos p2)) in *.
    assert (Hd2 : d2 <= p + 1).
    { destruct (Z_le_gt_dec d2 (p + 1)) as [|Hgt]; [assumption|]. exfalso.
      assert (2 ^ (p + 1) <= 2 ^ (d2 - 1)) by (apply Z.pow_le_mono_r; lia).
      assert (2 ^ (p + 1) = 2 * 2 ^ p)
        by (replace (p + 1) with (Z.succ p) by lia; apply Z.pow_succ_r; lia).
      lia. }
    destruct (Z.eq_dec d2 (p + 1)) as [Htop | Htop].
    + assert (Hp2 : Zpos p2 = 2 ^ p).
      { assert (2 ^ p <= Zpos p2); [|lia].
        replace p with (d2 - 1) at 1 by lia. exact Hlo2. }
      replace (fexp p E (d2 + f) - f) with 1 by (unfold fexp, emin; lia).
      cbn [shr iter_pos].
      destruct p2 as [k|k|]; [lia | | lia].
      cbn [shr_1 shr_m orb]. rewrite Pos2Z.inj_xO in Hp2.
      assert (Hqd : Zpos (digits2_pos k) = p).
      { apply Rounding.digits_unique. lia. }
      destruct (f + 1 <=? E - p) eqn:Hov.
      * apply Z.leb_le in Hov. split; [reflexivity|]. split; [lia|].
        split; [replace (f + 1 - f) with 1 by lia; rewrite Z.pow_1_r; lia|].
        split; [lia|]. split; [lia|].
        rewrite Hqd. unfold fexp, emin. lia.
      * apply Z.leb_gt in Hov. split; [reflexivity | lia].
    + assert (Hd2p : d2 <= p) by lia.
      assert (Hd2n : 3 - E - p < f -> d2 = p).
      { intros Hn. specialize (Hm1lo Hn).
        destruct (Z_le_gt_dec p d2) as [|Hlt]; [lia|]. exfalso.
        assert (2 ^ d2 <= 2 ^ (p - 1)) by (apply Z.pow_le_mono_r; lia). lia. }
      assert (Hfix : fexp p E (d2 + f) = f) by (unfold fexp, emin; lia).
      rewrite Hfix, Z.sub_diag. cbn [shr shr_m].
      assert (Hlt : Zpos p2 < 2 ^ p).
      { eapply Z.lt_le_trans; [exact Hhi2|]. apply Z.pow_le_mono_r; lia. }
      destruct (f <=? E - p) eqn:Hov.
      * apply Z.leb_le in Hov. split; [reflexivity|]. split; [lia|].
        split; [rewrite Z.sub_diag; simpl; lia|].
        split; [exact Hlt|]. split; [lia|]. fold d2. exact Hfix.
      * apply Z.leb_gt in Hov. split; [reflexivity | lia].
Qed.

End QuotientFormat.

End QuotientRounding.

Module QuotientBounds.

Open Scope Z_scope.

Section BoundValues.

Variable K : Z.

Local Abbreviation V := (scaled K).

Lemma V_factor a P e : V (a * P) e = V a e * P.
Proof. unfold scaled. ring. Qed.

Lemma V_exp_shift a b e1 e2 t :
  - K <= e1 -> - K <= e2 -> - K <= e1 + t -> - K <= e2 + t ->
  V a e1 <= V b e2 -> V a (e1 + t) <= V b (e2 + t).
Proof.
  intros H1 H2 H3 H4 H. unfold scaled in *.
  destruct (Z_le_gt_dec 0 t) as [Ht | Ht].
  - replace (e1 + t + K) with (e1 + K + t) by lia.
    replace (e2 + t + K) with (e2 + K + t) by lia.
    rewrite (Z.pow_add_r 2 (e1 + K) t), (Z.pow_add_r 2 (e2 + K) t) by lia.
    rewrite !Z.mul_assoc.
    apply Z.mul_le_mono_nonneg_r; [apply Z.pow_nonneg; lia | exact H].
  - assert (Hp : 0 < 2 ^ (- t)) by (apply Z.pow_pos_nonneg; lia).
    replace (e1 + K) with (e1 + t + K + - t) in H by lia.
    replace (e2 + K) with (e2 + t + K + - t) in H by lia.
    rewrite (Z.pow_add_r 2 (e1 + t + K) (- t)) in H by lia.
    rewrite (Z.pow_add_r 2 (e2 + t + K) (- t)) in H by lia.
    rewrite !Z.mul_assoc in H.
    apply Z.mul_le_mono_pos_r in H; assumption.
Qed.

Section BoundFormat.

Variables p E : Z.
Hypothesis p_pos : 1 <= p.

(** Rounding a quotient never falls below a number of the format that is
    at most the quotient. *)
Lemma round_quotient_ge s q e l N P (mb : positive) eb :
  0 <= q -> 0 < P -> q * P <= N < (q + 1) * P ->
  (l <> loc_Exact -> q * P < N) ->
  e <= fexp p E (Zdigits2 q + e) ->
  - K <= e -> - K <= eb ->
  Zpos mb < 2 ^ p -> 3 - E - p <= eb ->
  V (Zpos mb * P) eb <= V N e ->
  match binary_round_aux p E s q e l with
  | S754_finite s' mr er =>
      s' = s /\ V (Zpos mb) eb <= V (Zpos mr) er /\
      fexp p E (Zpos (digits2_pos mr) + er) = er /\ er <= E - p
  | S754_infinity s' => s' = s
  | _ => False
  end.
Proof.
  intros Hq HP Hb Hl Hpre He Heb Hmb Hebmin Hle.
  pose proof (RoundingBounds.pow_p p p_pos) as Hpp.
  pose proof (RoundingBounds.pow_p_pos p p_pos) as Hp1.
  destruct (QuotientRounding.round_quotient_spec p E p_pos s q e l N P
              Hq HP Hb Hl Hpre)
    as (m1 & m2 & [Hlo Hhi] & Hm1 & Hm1lo & Hm2 & Hres).
  set (f := fexp p E (Zdigits2 q + e)) in *.
  assert (Hfe : e <= f) by exact Hpre.
  assert (Hpos : 0 < V (Zpos mb) eb).
  { unfold scaled. apply Z.mul_pos_pos; [lia|]. apply Z.pow_pos_nonneg; lia. }
  assert (Hbound : V (Zpos mb) eb <= V m1 f).
  { destruct (Z_le_gt_dec f eb) as [Hcase | Hcase].
    - assert (Hup : V N e < V ((m1 + 1) * P) f).
      { replace f with (e + (f - e)) at 1 by lia.
        rewrite <- (Rounding.V_shift K) by lia.
        apply (Rounding.V_lt_mono K); lia. }
      assert (Hlow : V (Zpos mb * 2 ^ (eb - f) * P) f = V (Zpos mb * P) eb).
      { replace eb with (f + (eb - f)) at 2 by lia.
        rewrite <- (Rounding.V_shift K) by lia. f_equal. ring. }
      assert (Hlt : V (Zpos mb * 2 ^ (eb - f) * P) f < V ((m1 + 1) * P) f) by lia.
      apply (Rounding.V_lt_inv K) in Hlt; [|lia].
      apply Z.mul_lt_mono_pos_r in Hlt; [|exact HP].
      replace eb with (f + (eb - f)) by lia.
      rewrite <- (Rounding.V_shift K) by lia.
      apply (Rounding.V_mono K); lia.
    - specialize (Hm1lo ltac:(lia)).
      apply Z.le_trans with (V (2 ^ p) eb).
      { apply (Rounding.V_mono K); lia. }
      rewrite Hpp, Z.mul_comm.
      replace (2 ^ (p - 1) * 2) with (2 ^ (p - 1) * 2 ^ 1) by (rewrite Z.pow_1_r; reflexivity).
      rewrite (Rounding.V_shift K) by lia.
      apply Z.le_trans with (V (2 ^ (p - 1)) f).
      { apply (Rounding.V_le_exp K); lia. }
      apply (Rounding.V_mono K); lia. }
  assert (Hm2' : V m1 f <= V m2 f)
    by (apply (Rounding.V_mono K); lia).
  destruct (binary_round_aux p E s q e l) as [s'|s'| |s' mr er].
  - destruct Hres as [_ Hz]. rewrite Hz in Hm2'.
    unfold scaled in Hm2' at 2. lia.
  - now destruct Hres.
  - exact Hres.
  - destruct Hres as (-> & Her & Hval & _ & Hov & Hcan).
    split; [reflexivity|]. split; [|split; assumption].
    rewrite <- Hval in Hm2'.
    rewrite (Rounding.V_shift K) in Hm2' by lia.
    replace (f + (er - f)) with er in Hm2' by lia. lia.
Qed.

(** Rounding a quotient never rises above a number of the format that is
    at least the quotient. *)
Lemma round_quotient_le s q e l N P (mb : positive) eb :
  0 <= q -> 0 < P -> q * P <= N < (q + 1) * P ->
  (l <> loc_Exact -> q * P < N) ->
  e <= fexp p E (Zdigits2 q + e) ->
  - K <= e -> - K <= eb ->
  Zpos mb < 2 ^ p -> 3 - E - p <= eb <= E - p ->
  V N e <= V (Zpos mb * P) eb ->
  match binary_round_aux p E s q e l with
  | S754_zero s' => s' = s
  | S754_finite s' mr er =>
      s' = s /\ V (Zpos mr) er <= V (Zpos mb) eb /\
      fexp p E (Zpos (digits2_pos mr) + er) = er /\ er <= E - p
  | _ => False
  end.
Proof.
  intros Hq HP Hb Hl Hpre He Heb Hmb Hebr Hle.
  pose proof (RoundingBounds.pow_p p p_pos) as Hpp.
  pose proof (RoundingBounds.pow_p_pos p p_pos) as Hp1.
  destruct (QuotientRounding.round_quotient_spec p E p_pos s q e l N P
              Hq HP Hb Hl Hpre)
    as (m1 & m2 & [Hlo Hhi] & Hm1 & Hm1lo & Hm2 & Hres).
  set (f := fexp p E (Zdigits2 q + e)) in *.
  assert (Hfe : e <= f) by exact Hpre.
  assert (Hdown : V (m1 * P) f <= V N e).
  { replace f with (e + (f - e)) by lia.
    rewrite <- (Rounding.V_shift K) by lia. apply (Rounding.V_mono K); lia. }
  assert (Hbig : eb < f -> V (Zpos mb) eb < V m1 f).
  { intros Hcase. specialize (Hm1lo ltac:(lia)).
    apply Z.lt_le_trans with (V (2 ^ p) eb).
    { apply (Rounding.V_lt_mono K); lia. }
    rewrite Hpp, Z.mul_comm.
    replace (2 ^ (p - 1) * 2) with (2 ^ (p - 1) * 2 ^ 1) by (rewrite Z.pow_1_r; reflexivity).
    rewrite (Rounding.V_shift K) by lia.
    apply Z.le_trans with (V (2 ^ (p - 1)) f).
    { apply (Rounding.V_le_exp K); lia. }
    apply (Rounding.V_mono K); lia. }
  assert (Hfeb : f <= eb).
  { destruct (Z_le_gt_dec f eb) as [|Hgt]; [assumption|].
    specialize (Hbig ltac:(lia)).
    rewrite !V_factor in *. nia. }
  assert (Hup : V (Zpos mb * 2 ^ (eb - f) * P) f = V (Zpos mb * P) eb).
  { replace eb with (f + (eb - f)) at 2 by lia.
    rewrite <- (Rounding.V_shift K) by lia. f_equal. ring. }
  assert (Hbound : V m2 f <= V (Zpos mb) eb).
  { replace eb with (f + (eb - f)) by lia.
    rewrite <- (Rounding.V_shift K) by lia.
    apply (Rounding.V_mono K); [lia|].
    destruct Hm2 as [-> | [-> Hstrict]].
    - assert (Hc : V (m1 * P) f <= V (Zpos mb * 2 ^ (eb - f) * P) f) by lia.
      rewrite (V_factor m1 P f), (V_factor (Zpos mb * 2 ^ (eb - f)) P f) in Hc.
      apply Z.mul_le_mono_pos_r in Hc; [|exact HP].
      unfold scaled in Hc. apply Z.mul_le_mono_pos_r in Hc; [exact Hc|].
      apply Z.pow_pos_nonneg; lia.
    - assert (Hlt : V (m1 * P) f < V N e).
      { replace f with (e + (f - e)) by lia.
        rewrite <- (Rounding.V_shift K) by lia. apply (Rounding.V_lt_mono K); lia. }
      assert (Hc : V (m1 * P) f < V (Zpos mb * 2 ^ (eb - f) * P) f) by lia.
      apply (Rounding.V_lt_inv K) in Hc; [|lia].
      apply Z.mul_lt_mono_pos_r in Hc; [lia | exact HP]. }
  destruct (binary_round_aux p E s q e l) as [s'|s'| |s' mr er].
  - now destruct Hres.
  - exfalso. destruct Hres as (_ & Hpos & Hov & Htop).
    assert (Hf : f = E - p) by lia. specialize (Htop Hf).
    assert (V (Zpos mb) eb < V m2 f); [|lia].
    rewrite Htop. apply Z.lt_le_trans with (V (2 ^ p) eb).
    + apply (Rounding.V_lt_mono K); lia.
    + apply (Rounding.V_le_exp K); lia.
  - exact Hres.
  - destruct Hres as (-> & Her & Hval & _ & Hov & Hcan).
    split; [reflexivity|]. split; [|split; assumption].
    rewrite <- Hval in Hbound.
    rewrite (Rounding.V_shift K) in Hbound by lia.
    replace (f + (er - f)) with er in Hbound by lia. exact Hbound.
Qed.

End BoundFormat.

End BoundValues.

End QuotientBounds.

(** * Binary64 division, against a lower and an upper bound *)

Module DivisionFacts.

Open Scope Z_scope.

Lemma valid_bounds x s m e :
  Prim2SF x = S754_finite s m e ->
  canonical m e /\ -1074 <= e <= 971 /\ Zpos m < 2 ^ 53.
Proof.
  intros Ex. pose proof (Rounding.valid_canonical x m e s Ex) as Hcan.
  pose proof (Prim2SF_valid x) as H. rewrite Ex in H.
  simpl in H. unfold bounded in H. apply andb_prop in H. destruct H as [_ H].
  apply Z.leb_le in H. unfold emax, prec in H.
  pose proof (Rounding.digits2_bounds m) as [_ Hhi].
  unfold canonical, fexp, emin, prec, emax in Hcan.
  split; [exact Hcan|]. split; [lia|].
  eapply Z.lt_le_trans; [exact Hhi|]. apply Z.pow_le_mono_r; lia.
Qed.

(** The integer division at the heart of [SFdiv]: the quotient [q] of
    [mx * 2^s] by [my], at an exponent [e'] low enough for [q] to hold all
    the digits of the format. *)
Lemma div_core_spec (mx my : positive) ex ey :
  Zpos mx < 2 ^ 53 ->
  exists q e' l s,
    SFdiv_core_binary prec emax (Zpos mx) ex (Zpos my) ey = (q, e', l) /\
    0 <= s /\ e' + s = ex - ey /\ Z.min (-1074) (ex - ey) <= e' /\
    0 <= q /\
    q * Zpos my <= Zpos mx * 2 ^ s < (q + 1) * Zpos my /\
    (l <> loc_Exact -> q * Zpos my < Zpos mx * 2 ^ s) /\
    e' <= fexp prec emax (Zdigits2 q + e').
Proof.
  intros Hmx. unfold SFdiv_core_binary. cbn [Zdigits2].
  pose proof (Rounding.digits2_bounds mx) as [Hlo1 Hhi1].
  pose proof (Rounding.digits2_bounds my) as [Hlo2 Hhi2].
  set (d1 := Zpos (digits2_pos mx)) in *. set (d2 := Zpos (digits2_pos my)) in *.
  assert (Hd1 : 0 < d1 <= 53).
  { split; [unfold d1; lia|].
    destruct (Z_le_gt_dec d1 53) as [|Hgt]; [assumption|]. exfalso.
    assert (2 ^ 53 <= 2 ^ (d1 - 1)) by (apply Z.pow_le_mono_r; lia). lia. }
  assert (Hd2 : 0 < d2) by (unfold d2; lia).
  set (e' := Z.min (fexp prec emax (d1 + ex - (d2 + ey))) (ex - ey)).
  set (s := ex - ey - e').
  assert (Hs : 0 <= s) by (unfold s, e'; lia).
  set (m' := match s with
             | 0 => Zpos mx
             | Zpos _ => Z.shiftl (Zpos mx) s
             | Zneg _ => 0
             end).
  assert (Hm' : m' = Zpos mx * 2 ^ s).
  { unfold m'. destruct s as [|k|k] eqn:Es; [simpl; lia | | lia].
    apply Z.shiftl_mul_pow2. lia. }
  pose proof (Z_div_mod m' (Zpos my) ltac:(lia)) as Hdiv.
  destruct (Z.div_eucl m' (Zpos my)) as [q r]. destruct Hdiv as [Hq Hr].
  exists q, e', (new_location (Zpos my) r), s.
  split; [reflexivity|]. split; [exact Hs|]. split; [unfold s; lia|].
  assert (Hmin : Z.min (-1074) (ex - ey) <= e')
    by (unfold e', fexp, emin, prec, emax; lia).
  split; [exact Hmin|].
  assert (Hm'0 : 0 < m').
  { rewrite Hm'. apply Z.mul_pos_pos; [lia | apply Z.pow_pos_nonneg; lia]. }
  assert (Hq0 : 0 <= q) by nia.
  split; [exact Hq0|]. rewrite <- Hm'.
  split; [nia|]. split.
  - intros Hl. assert (r <> 0); [|nia].
    intros ->. apply Hl. apply QuotientRounding.new_location_exact.
  - destruct (Z_le_gt_dec e' (-1074)) as [Hsub | Hnorm].
    + unfold fexp, emin, prec, emax. lia.
    + assert (He' : e' = d1 + ex - (d2 + ey) - 53)
        by (unfold e', fexp, emin, prec, emax in *; lia).
      assert (Hsv : s = 53 - d1 + d2) by (unfold s; lia).
      assert (Hbig : 2 ^ 52 * Zpos my < m').
      { rewrite Hm', Hsv.
        apply Z.lt_le_trans with (2 ^ 52 * 2 ^ d2).
        - apply Z.mul_lt_mono_pos_l; lia.
        - rewrite <- Z.pow_add_r by lia.
          replace (52 + d2) with (d1 - 1 + (53 - d1 + d2)) by lia.
          rewrite Z.pow_add_r by lia.
          apply Z.mul_le_mono_nonneg_r; [apply Z.pow_nonneg; lia | exact Hlo1]. }
      assert (Hq52 : 2 ^ 52 <= q) by nia.
      destruct q as [|qp|qp]; [lia | | lia].
      cbn [Zdigits2].
      pose proof (Rounding.digits2_bounds qp) as [_ Hqhi].
      set (dq := Zpos (digits2_pos qp)) in *.
      assert (Hdq : 53 <= dq).
      { destruct (Z_le_gt_dec 53 dq) as [|Hlt]; [assumption|]. exfalso.
        assert (2 ^ dq <= 2 ^ 52) by (apply Z.pow_le_mono_r; unfold dq; lia).
        lia. }
      unfold fexp, emin, prec, emax. lia.
Qed.

Section DivisionScaled.

Variable K : Z.
Hypothesis K_large : 2200 <= K.

Local Abbreviation V := (scaled K).

(** A quotient of two finite numbers is at least every binary64 number
    that, multiplied by the divisor, is at most the dividend. *)
Lemma div_ge sx mx ex sy my ey (mb : positive) eb :
  Zpos mx < 2 ^ 53 -> -1074 <= ex <= 971 -> -1074 <= ey <= 971 ->
  Zpos mb < 2 ^ 53 -> -1074 <= eb ->
  V (Zpos mb * Zpos my) eb <= V (Zpos mx) (ex - ey) ->
  match SFdiv prec emax (S754_finite sx mx ex) (S754_finite sy my ey) with
  | S754_finite s' mr er =>
      s' = xorb sx sy /\ V (Zpos mb) eb <= V (Zpos mr) er /\ canonical mr er
  | S754_infinity s' => s' = xorb sx sy
  | _ => False
  end.
Proof.
  intros Hmx Hex Hey Hmb Heb Hle. cbn [SFdiv].
  destruct (div_core_spec mx my ex ey Hmx)
    as (q & e' & l & s & -> & Hs & Hes & Hmin & Hq & Hb & Hl & Hpre).
  pose proof (QuotientBounds.round_quotient_ge K prec emax ltac:(unfold prec; lia)
                (xorb sx sy) q e' l (Zpos mx * 2 ^ s) (Zpos my) mb eb
                Hq ltac:(lia) Hb Hl Hpre ltac:(lia) ltac:(lia)
                ltac:(unfold prec; lia) ltac:(unfold prec, emax; lia)) as H.
  rewrite (Rounding.V_shift K), Hes in H by lia. specialize (H Hle).
  destruct (binary_round_aux prec emax (xorb sx sy) q e' l); try assumption.
  destruct H as (H1 & H2 & H3 & _). now repeat split.
Qed.

(** A quotient of two finite numbers is at most every binary64 number
    that, multiplied by the divisor, is at least the dividend. *)
Lemma div_le sx mx ex sy my ey (mb : positive) eb :
  Zpos mx < 2 ^ 53 -> -1074 <= ex <= 971 -> -1074 <= ey <= 971 ->
  Zpos mb < 2 ^ 53 -> -1074 <= eb <= 971 ->
  V (Zpos mx) (ex - ey) <= V (Zpos mb * Zpos my) eb ->
  match SFdiv prec emax (S754_finite sx mx ex) (S754_finite sy my ey) with
  | S754_zero s' => s' = xorb sx sy
  | S754_finite s' mr er =>
      s' = xorb sx sy /\ V (Zpos mr) er <= V (Zpos mb) eb /\ canonical mr er
  | _ => False
  end.
Proof.
  intros Hmx Hex Hey Hmb Heb Hle. cbn [SFdiv].
  destruct (div_core_spec mx my ex ey Hmx)
    as (q & e' & l & s & -> & Hs & Hes & Hmin & Hq & Hb & Hl & Hpre).
  pose proof (QuotientBounds.round_quotient_le K prec emax ltac:(unfold prec; lia)
                (xorb sx sy) q e' l (Zpos mx * 2 ^ s) (Zpos my) mb eb
                Hq ltac:(lia) Hb Hl Hpre ltac:(lia) ltac:(lia)
                ltac:(unfold prec; lia) ltac:(unfold prec, emax; lia)) as H.
  rewrite (Rounding.V_shift K), Hes in H by lia. specialize (H Hle).
  destruct (binary_round_aux prec emax (xorb sx sy) q e' l); try assumption.
  destruct H as (H1 & H2 & H3 & _). now repeat split.
Qed.

(** A finite quotient is a binary64 number. *)
Lemma div_finite_valid sx mx ex sy my ey s' mr er :
  Zpos mx < 2 ^ 53 -> -1074 <= ex <= 971 -> -1074 <= ey <= 971 ->
  SFdiv prec emax (S754_finite sx mx ex) (S754_finite sy my ey)
  = S754_finite s' mr er ->
  -1074 <= er <= 971 /\ 0 < Zpos mr.
Proof.
  intros Hmx Hex Hey. cbn [SFdiv].
  destruct (div_core_spec mx my ex ey Hmx)
    as (q & e' & l & s & -> & Hs & Hes & Hmin & Hq & Hb & Hl & Hpre).
  destruct (QuotientRounding.round_quotient_spec prec emax ltac:(unfold prec; lia)
              (xorb sx sy) q e' l (Zpos mx * 2 ^ s) (Zpos my)
              Hq ltac:(lia) Hb Hl Hpre)
    as (m1 & m2 & _ & _ & _ & _ & Hres).
  intros E. rewrite E in Hres.
  destruct Hres as (_ & _ & _ & _ & Hov & Hcan).
  unfold fexp, emin, prec, emax in *. lia.
Qed.

(** Dividing [delta] by a number of at most [2^61], and [delta] by the
    result, gives at most [2^62], when it gives a finite number at all. *)
Lemma quotient_of_fraction sd md ed sn mn en :
  Zpos md < 2 ^ 53 -> -1074 <= ed <= 971 ->
  -1074 <= en <= 971 ->
  V (Zpos mn) en <= V 1 61 ->
  match SFdiv prec emax (S754_finite sd md ed)
          (SFdiv prec emax (S754_finite sd md ed) (S754_finite sn mn en)) with
  | S754_finite _ mr er => V (Zpos mr) er <= V 1 62
  | _ => True
  end.
Proof.
  intros Hmd Hed Hen Hn.
  pose proof (Rounding.digits2_bounds md) as [Hdlo Hdhi].
  set (dg := Zpos (digits2_pos md)) in *.
  assert (Hdg : 0 < dg <= 53).
  { split; [unfold dg; lia|].
    destruct (Z_le_gt_dec dg 53) as [|Hgt]; [assumption|]. exfalso.
    assert (2 ^ 53 <= 2 ^ (dg - 1)) by (apply Z.pow_le_mono_r; lia). lia. }
  assert (Htop : V (Zpos md) ed < V 1 (ed + dg)).
  { rewrite <- (Rounding.V_pow K) by lia. apply (Rounding.V_lt_mono K); lia. }
  destruct (SFdiv prec emax (S754_finite sd md ed) (S754_finite sn mn en))
    as [ss|ss| |ss ms es] eqn:Estep; try exact I.
  destruct (div_finite_valid _ _ _ _ _ _ _ _ _ Hmd Hed Hen Estep) as [Hes Hms].
  assert (Hstep : V (Zpos md) ed <= V (Zpos ms) (es + 62)).
  { destruct (Z_le_gt_dec (-1074) (ed + dg - 62)) as [Hrep | Hsmall].
    - pose proof (div_ge sd md ed sn mn en 1 (ed + dg - 62) Hmd Hed Hen
                    ltac:(lia) Hrep) as Hge.
      rewrite Estep in Hge.
      assert (Hcond : V (1 * Zpos mn) (ed + dg - 62) <= V (Zpos md) (ed - en)).
      { rewrite Z.mul_1_l.
        apply Z.le_trans with (V 1 (ed + dg - 1 - en)).
        - pose proof (QuotientBounds.V_exp_shift K (Zpos mn) 1 en 61
                        (ed + dg - 62 - en)) as Hsh.
          replace (en + (ed + dg - 62 - en)) with (ed + dg - 62) in Hsh by lia.
          replace (61 + (ed + dg - 62 - en)) with (ed + dg - 1 - en) in Hsh by lia.
          apply Hsh; first [lia | exact Hn].
        - replace (ed + dg - 1 - en) with (ed - en + (dg - 1)) by lia.
          rewrite <- (Rounding.V_pow K) by lia.
          apply (Rounding.V_mono K); lia. }
      destruct (Hge Hcond) as (_ & Hlow & _).
      pose proof (QuotientBounds.V_exp_shift K 1 (Zpos ms) (ed + dg - 62) es 62) as Hsh.
      replace (ed + dg - 62 + 62) with (ed + dg) in Hsh by lia.
      specialize (Hsh ltac:(lia) ltac:(lia) ltac:(lia) ltac:(lia) Hlow). lia.
    - apply Z.le_trans with (V 1 (es + 62)).
      + apply Z.le_trans with (V 1 (ed + dg)); [lia|].
        apply (Rounding.V_le_exp K); lia.
      + apply (Rounding.V_mono K); lia. }
  pose proof (div_le sd md ed ss ms es 1 62 Hmd Hed Hes ltac:(lia) ltac:(lia)) as Hle.
  assert (Hcond : V (Zpos md) (ed - es) <= V (1 * Zpos ms) 62).
  { rewrite Z.mul_1_l.
    pose proof (QuotientBounds.V_exp_shift K (Zpos md) (Zpos ms) ed (es + 62) (- es)) as Hsh.
    replace (ed + - es) with (ed - es) in Hsh by lia.
    replace (es + 62 + - es) with 62 in Hsh by lia.
    apply Hsh; first [lia | exact Hstep]. }
  specialize (Hle Hcond).
  destruct (SFdiv prec emax (S754_finite sd md ed) (S754_finite ss ms es));
    try exact I.
  now destruct Hle as (_ & Hle & _).
Qed.

End DivisionScaled.

End DivisionFacts.

(** * The first element of a schedule *)

Module FirstElement.

Open Scope Z_scope.

(** The ceiling of a binary64 number of at most [2^62]. *)
Lemma ceil_at_most v s m e :
  Prim2SF v = S754_finite s m e -> -1074 <= e ->
  scaled 2200 (Zpos m) e <= scaled 2200 1 62 ->
  exists k, F64.ceil v = Some k /\ k <= 2 ^ 62.
Proof.
  intros Ev He Hv. unfold F64.ceil. rewrite Ev.
  eexists. split; [reflexivity|].
  unfold scaled in Hv. rewrite Z.mul_1_l in Hv.
  destruct s; cbn [cond_Zopp].
  - destruct e as [|p|p].
    + lia.
    + clear Hv.
      assert (0 < 2 ^ Zpos p) by (apply Z.pow_pos_nonneg; lia).
      assert (- Zpos m * 2 ^ Zpos p <= 0) by (apply Z.mul_nonpos_nonneg; lia).
      assert (0 < 2 ^ 62) by reflexivity. lia.
    + clear Hv. rewrite Z.opp_involutive.
      assert (0 < 2 ^ Zpos p) by (apply Z.pow_pos_nonneg; lia).
      assert (0 <= Zpos m / 2 ^ Zpos p) by (apply Z.div_pos; lia).
      assert (0 < 2 ^ 62) by reflexivity. lia.
  - assert (Hp2 : 0 < 2 ^ 2200) by (apply Z.pow_pos_nonneg; lia).
    destruct e as [|p|p].
    + rewrite Z.add_0_l in Hv. rewrite (Z.pow_add_r 2 62 2200) in Hv by lia.
      apply Z.mul_le_mono_pos_r in Hv; [lia | exact Hp2].
    + rewrite (Z.pow_add_r 2 (Zpos p) 2200), (Z.pow_add_r 2 62 2200) in Hv by lia.
      rewrite Z.mul_assoc in Hv.
      apply Z.mul_le_mono_pos_r in Hv; [exact Hv | exact Hp2].
    + assert (Hp : 0 < 2 ^ Zpos p) by (apply Z.pow_pos_nonneg; lia).
      assert (Hm : Zpos m <= 2 ^ 62 * 2 ^ Zpos p).
      { replace (62 + 2200) with (62 + Zpos p + (Zneg p + 2200)) in Hv by lia.
        rewrite (Z.pow_add_r 2 (62 + Zpos p) (Zneg p + 2200)) in Hv by lia.
        apply Z.mul_le_mono_pos_r in Hv; [|apply Z.pow_pos_nonneg; lia].
        now rewrite Z.pow_add_r in Hv by lia. }
      assert (- 2 ^ 62 <= - Zpos m / 2 ^ Zpos p); [|lia].
      apply Z.div_le_lower_bound; [exact Hp | lia].
Qed.

Open Scope float_scope.

(** The length of a range from [start] to [stop] in steps of
    [(stop - start) / n], for [n] up to [2^61], is not the one value that
    the cast to [npy_intp] turns negative. *)
Lemma quotient_ceil delta n :
  (0 < n <= 2 ^ 61)%Z ->
  F64.ceil (delta / (delta / F64.of_Z n)) <> Some (2 ^ 63)%Z.
Proof.
  intros Hn.
  destruct (Prim2SF (delta / (delta / F64.of_Z n))) as [s|s| |s m e] eqn:Eq;
    try (unfold F64.ceil; rewrite Eq; discriminate).
  destruct (DivisionFacts.valid_bounds _ _ _ _ Eq) as (_ & He & _).
  assert (Hv : (scaled 2200 (Zpos m) e <= scaled 2200 1 62)%Z).
  { rewrite div_spec, div_spec in Eq. unfold SF64div in Eq.
    rewrite F64Signs.Prim2SF_of_Z in Eq.
    destruct n as [|pn|pn]; [lia | | lia]. cbn [binary_normalize] in Eq.
    pose proof (RoundingBounds.round_le prec emax ltac:(unfold prec; lia) 2200
                  false pn 0 1 61 ltac:(lia) ltac:(lia)
                  ltac:(unfold prec, emax; lia) ltac:(unfold prec; lia)
                  ltac:(unfold prec, emax; lia)) as Hr.
    assert (Hpn : (scaled 2200 (Zpos pn) 0 <= scaled 2200 1 61)%Z).
    { change (scaled 2200 1 61) with (scaled 2200 1 (0 + 61)).
      rewrite <- (Rounding.V_pow 2200 61 0) by lia.
      apply (Rounding.V_mono 2200); lia. }
    specialize (Hr Hpn).
    destruct (Prim2SF delta) as [sd|sd| |sd md ed] eqn:Ed.
    - destruct (binary_round prec emax false pn 0); discriminate Eq.
    - destruct (binary_round prec emax false pn 0); discriminate Eq.
    - discriminate Eq.
    - destruct (DivisionFacts.valid_bounds _ _ _ _ Ed) as (_ & Hed & Hmd).
      destruct (binary_round prec emax false pn 0) as [sn|sn| |sn mn en];
        try contradiction.
      + cbn [SFdiv] in Eq. discriminate Eq.
      + destruct Hr as (_ & Hle & Hcan & Hov).
        assert (Hen : (-1074 <= en <= 971)%Z)
          by (unfold fexp, emin, prec, emax in *; lia).
        pose proof (DivisionFacts.quotient_of_fraction 2200 ltac:(lia)
                      sd md ed sn mn en Hmd Hed Hen Hle) as H.
        rewrite Eq in H. exact H. }
  destruct (ceil_at_most _ _ _ _ Eq ltac:(lia) Hv) as (k & -> & Hk).
  intros H. injection H as ->. lia.
Qed.

(** At [2^63] steps the ceiling of the quotient is [2^63] and the length
    wraps: both generators return empty sequences. *)
Lemma length_wraps_at_2_63 :
  compute_beta_alpha (2 ^ 63) 0.0001 0.02 gamma_start_default gamma_end_default
  = Ok ([], [], []) /\
  compute_beta_alpha2 taylor_platform (2 ^ 63) 0.0001 0.2
    gamma_start_default gamma_end_default
  = Ok ([], [], []).
Proof. split; vm_compute; reflexivity. Qed.

(** With a number of steps from 1 to [2^61] the range, when there is one,
    starts at [start]. *)
Lemma arange_positive_steps start stop delta n step l :
  (0 < n <= 2 ^ 61)%Z -> delta = stop - start ->
  F64.py_div_int delta n = Ok step ->
  Np.arange start stop step = Ok l ->
  exists rest, l = start :: rest.
Proof.
  intros Hn -> E Ha. unfold F64.py_div_int in E.
  destruct (is_infinity _); [discriminate|].
  destruct (_ =? 0) eqn:Ed; [discriminate|]. injection E as <-.
  pose proof (F64Signs.of_Z_cases n) as H.
  assert (Hs : sign_of (Prim2SF (F64.of_Z n)) = Some false).
  { destruct (Prim2SF (F64.of_Z n)) as [s|s| |s m e]; cbn [sign_of].
    - lia.
    - destruct H as [-> _]. f_equal. apply Z.ltb_ge. lia.
    - contradiction.
    - destruct H as [_ ->]. f_equal. apply Z.ltb_ge. lia. }
  destruct (stop - start =? 0) eqn:Ez.
  - exfalso. unfold Np.arange, Np.arange_length, F64.py_div in Ha.
    assert (Hz : ((stop - start) / F64.of_Z n =? 0) = true).
    { rewrite F64Signs.eqb_zero_spec in Ez |- *. rewrite div_spec.
      rewrite F64Signs.eqb_zero_spec in Ed.
      destruct (Prim2SF (stop - start)); try discriminate.
      destruct (Prim2SF (F64.of_Z n)); try discriminate; try contradiction;
        reflexivity. }
    rewrite Hz in Ha. discriminate.
  - eapply ArangeFacts.arange_forwards; [| exact Ez | | exact Ha].
    + now apply ArangeFacts.quotient_sign.
    + now apply quotient_ceil.
Qed.

End FirstElement.

(** X5.  For [n_steps] from 1 to [2^61] the linear generator, when it
    returns, returns sequences that are not empty and start at the start
    values, bit for bit: [beta[0]] is [beta_start], [alpha[0]] is
    [1 - beta_start] and [sigma[0]] is [gamma_start]. *)
Theorem linear_schedule_starts_at_start nsteps b0 b1 g0 g1 beta alpha sigma :
  (0 < nsteps <= 2 ^ 61)%Z ->
  compute_beta_alpha nsteps b0 b1 g0 g1 = Ok (beta, alpha, sigma) ->
  exists beta' alpha' sigma',
    beta = b0 :: beta' /\ alpha = (1 - b0)%float :: alpha' /\
    sigma = g0 :: sigma'.
Proof.
  intros Hn H.
  destruct (compute_beta_alpha_parts _ _ _ _ _ _ _ _ H)
    as (bs & gs & Eb & Ebeta & Eg & Esigma & Halpha).
  destruct (FirstElement.arange_positive_steps b0 b1 _ nsteps bs beta Hn eq_refl Eb Ebeta)
    as [beta' ->].
  destruct (FirstElement.arange_positive_steps g0 g1 _ nsteps gs sigma Hn eq_refl Eg Esigma)
    as [sigma' ->].
  rewrite Halpha. cbn [map Np.cumprod]. do 3 eexists. repeat split.
Qed.

Lemma linear_schedule_starts_at_start_witness :
  exists beta alpha sigma,
    compute_beta_alpha 50 0.0001 0.2 gamma_start_default gamma_end_default
    = Ok (0.0001%float :: beta, (1 - 0.0001)%float :: alpha,
          gamma_start_default :: sigma).
Proof.
  destruct (compute_beta_alpha 50 0.0001 0.2 gamma_start_default gamma_end_default)
    as [[[beta alpha] sigma]|e] eqn:E; [|vm_compute in E; discriminate E].
  destruct (linear_schedule_starts_at_start 50 0.0001 0.2 gamma_start_default
              gamma_end_default beta alpha sigma ltac:(lia) E)
    as (beta' & alpha' & sigma' & -> & -> & ->).
  exists beta', alpha', sigma'. reflexivity.
Defined.

(** X6.  For [n_steps] from 1 to [2^61] the sine generator, when it
    returns, returns sequences that are not empty; the first sample is
    taken at angle 0, so on a platform with [sin(0) = 0] and for finite
    endpoints with a finite difference [beta[0]] equals [beta_start]. *)
Theorem sine_schedule_starts_at_start pf nsteps b0 b1 g0 g1 beta alpha sigma :
  (0 < nsteps <= 2 ^ 61)%Z ->
  np_sin pf 0 = 0%float ->
  is_finite b0 = true -> is_finite (b1 - b0) = true ->
  compute_beta_alpha2 pf nsteps b0 b1 g0 g1 = Ok (beta, alpha, sigma) ->
  exists first beta' alpha' sigma',
    beta = first :: beta' /\ (first =? b0)%float = true /\
    alpha = (1 - first)%float :: alpha' /\ sigma = g0 :: sigma'.
Proof.
  intros Hn Hsin Hb0 Hd H.
  destruct (compute_beta_alpha2_parts pf _ _ _ _ _ _ _ _ H)
    as (us & u & gs & Eu & Earange & Hbeta & Eg & Esigma & Halpha).
  destruct (FirstElement.arange_positive_steps 0 1 1 nsteps us u Hn eq_refl Eu Earange)
    as [u' ->].
  destruct (FirstElement.arange_positive_steps g0 g1 _ nsteps gs sigma Hn eq_refl Eg Esigma)
    as [sigma' ->].
  rewrite Halpha, Hbeta. cbn [map Np.cumprod].
  change (F64.pi / 2 * 0)%float with 0%float. rewrite Hsin.
  do 4 eexists. split; [reflexivity|]. split; [|split; reflexivity].
  now apply ScheduleEdges.zero_mul_add.
Qed.

Lemma sine_schedule_starts_at_start_witness :
  exists first beta alpha sigma,
    compute_beta_alpha2 taylor_platform 50 0.0001 0.2
      gamma_start_default gamma_end_default
    = Ok (first :: beta, (1 - first)%float :: alpha, gamma_start_default :: sigma) /\
    (first =? 0.0001)%float = true.
Proof.
  destruct (compute_beta_alpha2 taylor_platform 50 0.0001 0.2
              gamma_start_default gamma_end_default)
    as [[[beta alpha] sigma]|e] eqn:E; [|vm_compute in E; discriminate E].
  destruct (sine_schedule_starts_at_start taylor_platform 50 0.0001 0.2
              gamma_start_default gamma_end_default beta alpha sigma
              ltac:(lia) eq_refl eq_refl eq_refl E)
    as (first & beta' & alpha' & sigma' & -> & Hfirst & -> & ->).
  exists first, beta', alpha', sigma'. split; [reflexivity | exact Hfirst].
Defined.
